(** * Additive-noise UKF (kf/ukfLib.c): shallow embedding and verified properties

    The C sources work on caller-owned [float] buffers reached through
    [tMatrix] descriptors that are copied around freely, so several roles
    alias one buffer.  The embedding keeps that picture:

    - a [memory] maps buffer addresses to their contents; a [tMatrix] holds an
      optional address (NULL is [None]) and its declared shape;
    - every C function is a computation in the monad [M] that threads the
      memory and stops with a [fault] at the first access that C leaves
      undefined (NULL dereference, index outside the buffer);
    - [uint8_t] quantities are naturals, reduced modulo 256 where the source
      stores the result of an arithmetic expression into a [uint8_t];
    - [float] values are read as exact rationals ([Qc]); rounding and the
      non-finite values of IEEE arithmetic are outside the model, and a
      division by zero yields 0 as everywhere in the rational library. *)

From Stdlib Require Import QArith Qcanon Lia.
From stdpp Require Import base list numbers.

(** ** Scalars *)

Abbreviation float := Qc.

(** [(float) n] for an unsigned integer [n]. *)
Definition of_nat (n : nat) : float := Qc_of_Z (Z.of_nat n).

(** [a < b] on floats, as a boolean. *)
Definition fltb (a b : float) : bool :=
  match (a ?= b)%Qc with Lt => true | _ => false end.

(** Conversion of an arithmetic result to [uint8_t]. *)
Definition u8 (n : nat) : nat := n mod 256.

(** ** Memory, faults and the computation monad *)

Definition ptr := nat.

(** Two address spaces: [float] buffers and [uint8_t] flag buffers. *)
Record memory := Memory {
  fmem : ptr → list float;
  bmem : ptr → list nat
}.

Inductive fault :=
  | NullPointer
  | OutOfBounds (p : ptr) (i : nat)
  | FlagOutOfBounds (p : ptr) (i : nat)
  | NoCallbackSlot (i : nat).

Inductive outcome (A : Type) :=
  | Done (a : A) (σ : memory)
  | Fault (e : fault).
Arguments Done {A} a σ.
Arguments Fault {A} e.

Definition M (A : Type) : Type := memory → outcome A.

#[global] Instance M_ret : MRet M := λ A a σ, Done a σ.
#[global] Instance M_bind : MBind M := λ A B f m σ,
  match m σ with
  | Done a σ' => f a σ'
  | Fault e => Fault e
  end.

Definition fail {A} (e : fault) : M A := λ _, Fault e.

Definition fupd (p : ptr) (l : list float) (σ : memory) : memory :=
  Memory (λ q, if decide (q = p) then l else fmem σ q) (bmem σ).

Definition bupd (p : ptr) (l : list nat) (σ : memory) : memory :=
  Memory (fmem σ) (λ q, if decide (q = p) then l else bmem σ q).

(** [v[i]] for a [float *v]. *)
Definition load (v : option ptr) (i : nat) : M float := λ σ,
  match v with
  | None => Fault NullPointer
  | Some p =>
      match fmem σ p !! i with
      | Some x => Done x σ
      | None => Fault (OutOfBounds p i)
      end
  end.

(** [v[i] = x] for a [float *v]. *)
Definition store (v : option ptr) (i : nat) (x : float) : M unit := λ σ,
  match v with
  | None => Fault NullPointer
  | Some p =>
      if decide (i < length (fmem σ p))
      then Done tt (fupd p (<[i := x]> (fmem σ p)) σ)
      else Fault (OutOfBounds p i)
  end.

(** [v[i]] and [v[i] = x] for a [uint8_t *v]. *)
Definition load_flag (v : option ptr) (i : nat) : M nat := λ σ,
  match v with
  | None => Fault NullPointer
  | Some p =>
      match bmem σ p !! i with
      | Some x => Done x σ
      | None => Fault (FlagOutOfBounds p i)
      end
  end.

Definition store_flag (v : option ptr) (i : nat) (x : nat) : M unit := λ σ,
  match v with
  | None => Fault NullPointer
  | Some p =>
      if decide (i < length (bmem σ p))
      then Done tt (bupd p (<[i := x]> (bmem σ p)) σ)
      else Fault (FlagOutOfBounds p i)
  end.

(** [for (i = lo; i < hi; i++) body(i)]. *)
Fixpoint iter_from (n lo : nat) (body : nat → M unit) : M unit :=
  match n with
  | 0 => mret tt
  | S n' => body lo;; iter_from n' (S lo) body
  end.

Definition for_ (lo hi : nat) (body : nat → M unit) : M unit :=
  iter_from (hi - lo) lo body.

Definition when_ (b : bool) (m : M unit) : M unit :=
  if b then m else mret tt.

(** ** Matrix descriptors *)

(** Modelled from the spec: mtxLib.h, which declares [tMatrix] and
    [tMatrixBool], is not among the sources.  Per §3 a matrix is a container
    of floats with fixed row and column counts over caller-owned storage; the
    fields are the ones ukfLib.c dereferences ([val], [nrow], [ncol]). *)
Record tMatrix := Matrix {
  val : option ptr;
  nrow : nat;
  ncol : nat
}.

Record tMatrixBool := MatrixBool {
  bval : option ptr;
  bnrow : nat;
  bncol : nat
}.

Definition is_null {A} (v : option A) : bool :=
  match v with None => true | Some _ => false end.

Definition nelem (m : tMatrix) : nat := nrow m * ncol m.

(** Whole-matrix access: the first [n] cells of a buffer. *)
Definition read_block (v : option ptr) (n : nat) : M (list float) := λ σ,
  match v with
  | None => Fault NullPointer
  | Some p =>
      if decide (n ≤ length (fmem σ p))
      then Done (take n (fmem σ p)) σ
      else Fault (OutOfBounds p (length (fmem σ p)))
  end.

Definition write_block (v : option ptr) (l : list float) : M unit := λ σ,
  match v with
  | None => Fault NullPointer
  | Some p =>
      if decide (length l ≤ length (fmem σ p))
      then Done tt (fupd p (l ++ drop (length l) (fmem σ p)) σ)
      else Fault (OutOfBounds p (length (fmem σ p)))
  end.

(** ** Dense matrices as row-major lists *)

Definition mat_build (r c : nat) (f : nat → nat → float) : list float :=
  mjoin ((λ i, (λ j, f i j) <$> seq 0 c) <$> seq 0 r).

Definition mat_at (c : nat) (a : list float) (i j : nat) : float :=
  default 0%Qc (a !! (c * i + j)).

Definition fsum (l : list float) : float := foldr Qcplus 0%Qc l.

Definition mat_identity (n : nat) : list float :=
  mat_build n n (λ i j, if decide (i = j) then 1%Qc else 0%Qc).

(** [a] is [r×k], [b] is [k×c]. *)
Definition mat_mul (r k c : nat) (a b : list float) : list float :=
  mat_build r c (λ i j, fsum ((λ t, (mat_at k a i t * mat_at c b t j)%Qc) <$> seq 0 k)).

(** [a] is [r×k], [b] is [c×k]; the product is [a·bᵗ]. *)
Definition mat_mul_tr (r k c : nat) (a b : list float) : list float :=
  mat_build r c (λ i j, fsum ((λ t, (mat_at k a i t * mat_at k b j t)%Qc) <$> seq 0 k)).

Definition vec_add (a b : list float) : list float := zip_with Qcplus a b.
Definition vec_sub (a b : list float) : list float := zip_with Qcminus a b.
Definition vec_scale (s : float) (a : list float) : list float := Qcmult s <$> a.

(** ** The matrix library used by the filter *)

(** Modelled from the spec: mtxLib.c and mtxLib.h are not among the sources.
    §6 lists the operations (copy, zero-fill, scalar multiply, elementwise
    add and subtract, multiply, multiply by a transposed second operand,
    identity fill, inversion against a pre-filled identity, lower Cholesky
    factorization) and says that each reports a status telling success from
    a defined failure.  Only [MTX_OPERATION_OK] is named by ukfLib.c. *)
Inductive mtxResultInfo :=
  | MTX_OPERATION_OK
  | MTX_SIZE_MISMATCH
  | MTX_SINGULAR
  | MTX_NOT_POS_DEFINED.

#[global] Instance mtxResultInfo_eq_dec : EqDecision mtxResultInfo.
Proof. solve_decision. Defined.

(** Modelled from the spec: the numerical routines whose implementation §1
    places out of scope.  [sqrtf] is the C library square root;
    [chol_factor n a] is the lower Cholesky factorization of the [n×n]
    matrix [a], returning a status and the cells it leaves behind;
    [gauss_jordan n a i] is the inversion of [a] against [i], returning a
    status and what it leaves in the two operands (the inverse in the second
    one when [i] is the identity). *)
Record numerics := Numerics {
  sqrtf : float → float;
  chol_factor : nat → list float → mtxResultInfo * list float;
  gauss_jordan : nat → list float → list float →
                 mtxResultInfo * (list float * list float)
}.

Module mtx.

(** Modelled from the spec: every operation first compares the declared
    shapes and reports a failure without touching memory when they do not
    fit; otherwise it reads its operands, computes and writes the
    destination.  The destination comes first in [mtx_cpy], [mtx_add] and
    [mtx_sub], as the call sites in ukfLib.c use them ("y = y - y_m"). *)

Definition mtx_cpy (dst src : tMatrix) : M mtxResultInfo :=
  if decide (nrow dst = nrow src ∧ ncol dst = ncol src) then
    l ← read_block (val src) (nelem src);
    write_block (val dst) l;;
    mret MTX_OPERATION_OK
  else mret MTX_SIZE_MISMATCH.

Definition mtx_zeros (m : tMatrix) : M mtxResultInfo :=
  write_block (val m) (replicate (nelem m) 0%Qc);;
  mret MTX_OPERATION_OK.

Definition mtx_identity (m : tMatrix) : M mtxResultInfo :=
  if decide (nrow m = ncol m) then
    write_block (val m) (mat_identity (nrow m));;
    mret MTX_OPERATION_OK
  else mret MTX_SIZE_MISMATCH.

Definition mtx_mul_scalar (m : tMatrix) (s : float) : M mtxResultInfo :=
  l ← read_block (val m) (nelem m);
  write_block (val m) (vec_scale s l);;
  mret MTX_OPERATION_OK.

Definition mtx_add (dst src : tMatrix) : M mtxResultInfo :=
  if decide (nrow dst = nrow src ∧ ncol dst = ncol src) then
    a ← read_block (val dst) (nelem dst);
    b ← read_block (val src) (nelem src);
    write_block (val dst) (vec_add a b);;
    mret MTX_OPERATION_OK
  else mret MTX_SIZE_MISMATCH.

Definition mtx_sub (dst src : tMatrix) : M mtxResultInfo :=
  if decide (nrow dst = nrow src ∧ ncol dst = ncol src) then
    a ← read_block (val dst) (nelem dst);
    b ← read_block (val src) (nelem src);
    write_block (val dst) (vec_sub a b);;
    mret MTX_OPERATION_OK
  else mret MTX_SIZE_MISMATCH.

Definition mtx_mul (src1 src2 dst : tMatrix) : M mtxResultInfo :=
  if decide (ncol src1 = nrow src2 ∧ nrow dst = nrow src1 ∧ ncol dst = ncol src2) then
    a ← read_block (val src1) (nelem src1);
    b ← read_block (val src2) (nelem src2);
    write_block (val dst) (mat_mul (nrow src1) (ncol src1) (ncol src2) a b);;
    mret MTX_OPERATION_OK
  else mret MTX_SIZE_MISMATCH.

Definition mtx_mul_src2tr (src1 src2 dst : tMatrix) : M mtxResultInfo :=
  if decide (ncol src1 = ncol src2 ∧ nrow dst = nrow src1 ∧ ncol dst = nrow src2) then
    a ← read_block (val src1) (nelem src1);
    b ← read_block (val src2) (nelem src2);
    write_block (val dst) (mat_mul_tr (nrow src1) (ncol src1) (nrow src2) a b);;
    mret MTX_OPERATION_OK
  else mret MTX_SIZE_MISMATCH.

Section Numerics.
Variable N : numerics.

(** In place on [m]: the status and the new cells come from the
    factorization routine, also when it fails. *)
Definition mtx_chol_lower (m : tMatrix) : M mtxResultInfo :=
  if decide (nrow m = ncol m) then
    a ← read_block (val m) (nelem m);
    let r := chol_factor N (nrow m) a in
    write_block (val m) (resize (nelem m) 0%Qc r.2);;
    mret r.1
  else mret MTX_SIZE_MISMATCH.

(** Both operands are worked on in place; the caller passes the identity
    in [dst] and finds the inverse there. *)
Definition mtx_inv (src dst : tMatrix) : M mtxResultInfo :=
  if decide (nrow src = ncol src ∧ nrow dst = nrow src ∧ ncol dst = ncol src) then
    a ← read_block (val src) (nelem src);
    i ← read_block (val dst) (nelem dst);
    let r := gauss_jordan N (nrow src) a i in
    write_block (val src) (resize (nelem src) 0%Qc r.2.1);;
    write_block (val dst) (resize (nelem dst) 0%Qc r.2.2);;
    mret r.1
  else mret MTX_SIZE_MISMATCH.
End Numerics.

End mtx.
Export mtx.

(** ** ukfLib.h *)

Definition xMinIdx := 0.
Definition xMaxIdx := 1.
Definition xEpsIdx := 2.

Definition alphaIdx := 0.
Definition bethaIdx := 1.
Definition kappaIdx := 2.

(** A callback receives the descriptors by reference and the sigma column;
    what it does to memory is up to the model that supplies it. *)
Definition tPredictFcn := tMatrix → tMatrix → tMatrix → nat → float → M unit.
Definition tObservFcn := tMatrix → tMatrix → tMatrix → nat → M unit.

(** [dT] of [tUkfMatrix] is [dT_cfg] here, since [tUKFpar] has a [dT] too. *)
Record tUkfMatrix := UkfMatrix {
  Sc_vector : tMatrix;
  Wm_weight_vector : tMatrix;
  Wc_weight_vector : tMatrix;
  x_system_states : tMatrix;
  x_system_states_ic : tMatrix;
  x_system_states_limits : tMatrix;
  x_system_states_limits_enable : tMatrixBool;
  x_system_states_correction : tMatrix;
  u_system_input : tMatrix;
  u_prev_system_input : tMatrix;
  X_sigma_points : tMatrix;
  Y_sigma_points : tMatrix;
  y_predicted_mean : tMatrix;
  y_meas : tMatrix;
  Pyy_out_covariance : tMatrix;
  Pyy_out_covariance_copy : tMatrix;
  Ryy0_init_out_covariance : tMatrix;
  Pxy_cross_covariance : tMatrix;
  Pxx_error_covariance : tMatrix;
  Pxx0_init_error_covariance : tMatrix;
  Qxx_process_noise_cov : tMatrix;
  K_kalman_gain : tMatrix;
  I_identity_matrix : tMatrix;
  Pxx_covariance_correction : tMatrix;
  fcnPredict : list (option tPredictFcn);
  fcnObserve : list (option tObservFcn);
  dT_cfg : float
}.

Record tUKFpar := UKFpar {
  xLen : nat;
  yLen : nat;
  sLen : nat;
  alpha : float;
  betha : float;
  kappa : float;
  lambda : float;
  dT : float;
  Wm : tMatrix;
  Wc : tMatrix;
  Qxx : tMatrix;
  Ryy0 : tMatrix;
  Pxx0 : tMatrix;
  x0 : tMatrix;
  xLim : tMatrix;
  xLimEnbl : tMatrixBool
}.

Record tUKFin := UKFin {
  u : tMatrix;
  y : tMatrix
}.

Record tUKFprev := UKFprev {
  u_p : tMatrix;
  x_p : tMatrix;
  X_p : tMatrix;
  Pxx_p : tMatrix
}.

Record tUKFpredict := UKFpredict {
  X_m : tMatrix;
  x_m : tMatrix;
  P_m : tMatrix;
  Y_m : tMatrix;
  y_m : tMatrix;
  pFcnPredict : list (option tPredictFcn);
  pFcnObserv : list (option tObservFcn)
}.

Record tUKFupdate := UKFupdate {
  Pyy : tMatrix;
  Pyy_cpy : tMatrix;
  Pxy : tMatrix;
  K : tMatrix;
  x : tMatrix;
  x_corr : tMatrix;
  Pxx : tMatrix;
  Pxx_corr : tMatrix;
  Iyy : tMatrix
}.

Record tUKF := UKF {
  par : tUKFpar;
  prev : tUKFprev;
  input : tUKFin;
  predict : tUKFpredict;
  update : tUKFupdate
}.

(** ** ukfLib.c *)

(** [ukf_state_limiter]: clamp a state into its permitted range. *)
Definition ukf_state_limiter (state min max : float) (enbl : nat) : float :=
  if negb (enbl =? 0) then
    if fltb state min then min
    else if fltb max state then max
    else state
  else state.

Definition shape_differs (m : tMatrix) (r c : nat) : bool :=
  negb (nrow m =? r) || negb (ncol m =? c).

(** [Result |= 1]. *)
Definition set_bit (Result : nat) : nat := Nat.lor Result 1.

(** [ukf_dimension_check]: 0 is OK, 1 is NOK. *)
Definition ukf_dimension_check (pUkf : tUKF) : nat :=
  let stateLen := xLen (par pUkf) in
  let sigmaLen := sLen (par pUkf) in
  let measLen := yLen (par pUkf) in
  let Result := 0 in
  let Result :=
    if negb (is_null (val (u (input pUkf)))) && negb (is_null (val (u_p (prev pUkf)))) then
      if shape_differs (u (input pUkf)) stateLen 1 && shape_differs (u_p (prev pUkf)) stateLen 1
      then set_bit Result else Result
    else Result in
  let Result :=
    if negb (is_null (val (y (input pUkf)))) then
      if shape_differs (y (input pUkf)) measLen 1 then set_bit Result else Result
    else set_bit Result in
  let Result :=
    if negb (is_null (val (Wm (par pUkf)))) && negb (is_null (val (Wc (par pUkf)))) then
      if shape_differs (Wm (par pUkf)) 1 sigmaLen && shape_differs (Wc (par pUkf)) 1 sigmaLen
      then set_bit Result else Result
    else set_bit Result in
  let Result :=
    if negb (is_null (val (Pxx0 (par pUkf)))) then
      if shape_differs (Pxx0 (par pUkf)) stateLen stateLen then set_bit Result else Result
    else set_bit Result in
  let Result :=
    if negb (is_null (val (Qxx (par pUkf)))) then
      if shape_differs (Qxx (par pUkf)) stateLen stateLen then set_bit Result else Result
    else set_bit Result in
  let Result :=
    if negb (is_null (val (Ryy0 (par pUkf)))) then
      if shape_differs (Ryy0 (par pUkf)) measLen measLen then set_bit Result else Result
    else set_bit Result in
  let Result :=
    if negb (is_null (val (X_m (predict pUkf)))) then
      if shape_differs (X_m (predict pUkf)) stateLen sigmaLen then set_bit Result else Result
    else set_bit Result in
  let Result :=
    if negb (is_null (val (Y_m (predict pUkf)))) then
      if shape_differs (Y_m (predict pUkf)) measLen sigmaLen then set_bit Result else Result
    else set_bit Result in
  let Result :=
    if negb (is_null (val (P_m (predict pUkf)))) then
      if shape_differs (P_m (predict pUkf)) stateLen stateLen then set_bit Result else Result
    else set_bit Result in
  let Result :=
    if negb (is_null (val (Pyy (update pUkf)))) && negb (is_null (val (Pyy_cpy (update pUkf)))) then
      if shape_differs (Pyy (update pUkf)) measLen measLen
         && shape_differs (Pyy_cpy (update pUkf)) measLen measLen
      then set_bit Result else Result
    else set_bit Result in
  let Result :=
    if negb (is_null (val (Pxy (update pUkf)))) then
      if shape_differs (Pxy (update pUkf)) stateLen measLen then set_bit Result else Result
    else set_bit Result in
  let Result :=
    if negb (is_null (val (Pxx_corr (update pUkf)))) then
      if shape_differs (Pxx_corr (update pUkf)) stateLen stateLen then set_bit Result else Result
    else set_bit Result in
  let Result :=
    if negb (is_null (val (K (update pUkf)))) then
      if shape_differs (K (update pUkf)) stateLen measLen then set_bit Result else Result
    else set_bit Result in
  Result.

(** The limiter sanity loop of [ukf_init] (lines 213-226): a limiter whose
    range is narrower than its epsilon is switched off. *)
Definition init_limiters (xLim : tMatrix) (xLimEnbl : tMatrixBool) : M unit :=
  if negb (is_null (bval xLimEnbl)) && negb (is_null (val xLim)) then
    for_ 0 (nrow xLim) (λ xIdx,
      xMin ← load (val xLim) (ncol xLim * xIdx + xMinIdx);
      xMax ← load (val xLim) (ncol xLim * xIdx + xMaxIdx);
      xEps ← load (val xLim) (ncol xLim * xIdx + xEpsIdx);
      enbl ← load_flag (bval xLimEnbl) xIdx;
      when_ (negb (enbl =? 0) && fltb xMax (xMin + xEps)%Qc)
        (store_flag (bval xLimEnbl) xIdx 0))
  else mret tt.

(** The scaling parameter of [ukf_init] (lines 229-231). *)
Definition init_lambda (alpha kappa : float) (xLen : nat) : float :=
  let lambda := (alpha * alpha)%Qc in
  let lambda := (lambda * (of_nat xLen + kappa))%Qc in
  (lambda - of_nat xLen)%Qc.

(** The weight vectors of [ukf_init] (lines 235-248). *)
Definition init_weights (Wm Wc : tMatrix) (WmLen WcLen : nat)
    (xLen sLen : nat) (alpha betha lambda : float) : M unit :=
  if (WmLen =? sLen) && (WcLen =? WmLen) then
    let Wm0 := (lambda / (of_nat xLen + lambda))%Qc in
    store (val Wm) 0 Wm0;;
    store (val Wc) 0 (Wm0 + (1 - alpha * alpha + betha))%Qc;;
    for_ 1 WmLen (λ col,
      store (val Wm) col (1 / (2 * (of_nat xLen + lambda)))%Qc;;
      w ← load (val Wm) col;
      store (val Wc) col w)
  else mret tt.

(** The fields [ukf_init] assigns (lines 197-211 and 251-275), given the
    three scalars it reads from [Sc_vector]. *)
Definition ukf_fields (pUkfMatrix : tUkfMatrix) (alpha betha kappa : float) : tUKF :=
  let xLen := u8 (nrow (x_system_states pUkfMatrix)) in
  let yLen := u8 (nrow (y_predicted_mean pUkfMatrix)) in
  let sLen := u8 (2 * xLen + 1) in
  {|
    par := {|
      xLen := xLen; yLen := yLen; sLen := sLen;
      alpha := alpha; betha := betha; kappa := kappa;
      lambda := init_lambda alpha kappa xLen;
      dT := dT_cfg pUkfMatrix;
      Wm := Wm_weight_vector pUkfMatrix;
      Wc := Wc_weight_vector pUkfMatrix;
      Qxx := Qxx_process_noise_cov pUkfMatrix;
      Ryy0 := Ryy0_init_out_covariance pUkfMatrix;
      Pxx0 := Pxx0_init_error_covariance pUkfMatrix;
      x0 := x_system_states_ic pUkfMatrix;
      xLim := x_system_states_limits pUkfMatrix;
      xLimEnbl := x_system_states_limits_enable pUkfMatrix |};
    input := {|
      u := u_system_input pUkfMatrix;
      y := y_meas pUkfMatrix |};
    prev := {|
      Pxx_p := Pxx_error_covariance pUkfMatrix;
      X_p := X_sigma_points pUkfMatrix;
      u_p := u_system_input pUkfMatrix;
      x_p := x_system_states pUkfMatrix |};
    predict := {|
      P_m := Pxx_error_covariance pUkfMatrix;
      X_m := X_sigma_points pUkfMatrix;
      x_m := x_system_states pUkfMatrix;
      Y_m := Y_sigma_points pUkfMatrix;
      y_m := y_predicted_mean pUkfMatrix;
      pFcnPredict := fcnPredict pUkfMatrix;
      pFcnObserv := fcnObserve pUkfMatrix |};
    update := {|
      Iyy := I_identity_matrix pUkfMatrix;
      K := K_kalman_gain pUkfMatrix;
      Pxx := Pxx_error_covariance pUkfMatrix;
      Pxy := Pxy_cross_covariance pUkfMatrix;
      Pyy := Pyy_out_covariance pUkfMatrix;
      Pyy_cpy := Pyy_out_covariance_copy pUkfMatrix;
      x := x_system_states pUkfMatrix;
      x_corr := x_system_states_correction pUkfMatrix;
      Pxx_corr := Pxx_covariance_correction pUkfMatrix |}
  |}.

(** [ukf_init]: fills every field of the filter structure from the
    configuration and returns the status of the dimension check together
    with the structure. *)
Definition ukf_init (pUkfMatrix : tUkfMatrix) : M (nat * tUKF) :=
  let WmLen := u8 (ncol (Wm_weight_vector pUkfMatrix)) in
  let WcLen := u8 (ncol (Wc_weight_vector pUkfMatrix)) in
  alpha ← load (val (Sc_vector pUkfMatrix)) alphaIdx;
  betha ← load (val (Sc_vector pUkfMatrix)) bethaIdx;
  kappa ← load (val (Sc_vector pUkfMatrix)) kappaIdx;
  let pUkf := ukf_fields pUkfMatrix alpha betha kappa in
  init_limiters (xLim (par pUkf)) (xLimEnbl (par pUkf));;
  init_weights (Wm (par pUkf)) (Wc (par pUkf)) WmLen WcLen
               (xLen (par pUkf)) (sLen (par pUkf))
               alpha betha (lambda (par pUkf));;
  mtx_cpy (Pxx_p (prev pUkf)) (Pxx0 (par pUkf));;
  mtx_cpy (x_p (prev pUkf)) (x0 (par pUkf));;
  mret (ukf_dimension_check pUkf, pUkf).

(** The limiter of state [xIdx] as both loops of [ukf_sigmapoint] fetch it
    (lines 337-345 and 355-363): zeros when no limiter is configured. *)
Definition state_limits (pUkf : tUKF) (xIdx : nat) : M (float * float * nat) :=
  if negb (is_null (bval (xLimEnbl (par pUkf)))) && negb (is_null (val (xLim (par pUkf)))) then
    xMin ← load (val (xLim (par pUkf))) (ncol (xLim (par pUkf)) * xIdx + xMinIdx);
    xMax ← load (val (xLim (par pUkf))) (ncol (xLim (par pUkf)) * xIdx + xMaxIdx);
    enbl ← load_flag (bval (xLimEnbl (par pUkf))) xIdx;
    mret (xMin, xMax, enbl)
  else mret (0%Qc, 0%Qc, 0).

(** Call slot [i] of a callback table if it is assigned. *)
Definition call_slot {F} (table : list (option F)) (i : nat)
    (run : F → M unit) (absent : M unit) : M unit :=
  match table !! i with
  | None => fail (NoCallbackSlot i)
  | Some (Some f) => run f
  | Some None => absent
  end.

Section Filter.
Variable N : numerics.

(** Step 1: generate the sigma points. *)
Definition ukf_sigmapoint (pUkf : tUKF) : M unit :=
  let pPxx_p := val (Pxx_p (prev pUkf)) in
  let pX_p := val (X_p (prev pUkf)) in
  let px_p := val (x_p (prev pUkf)) in
  let lambda := lambda (par pUkf) in
  let sLen := sLen (par pUkf) in
  let xLen := xLen (par pUkf) in
  let sigmaIdx := 0 in
  mtxResult ← mtx_chol_lower N (Pxx_p (prev pUkf));
  if decide (MTX_OPERATION_OK = mtxResult) then
    for_ 0 xLen (λ xIdx,
      lim ← state_limits pUkf xIdx;
      let '(xMin, xMax, xLimEnbl) := lim in
      xp ← load px_p xIdx;
      store pX_p (sLen * xIdx + sigmaIdx) (ukf_state_limiter xp xMin xMax xLimEnbl));;
    mtx_mul_scalar (Pxx_p (prev pUkf)) (sqrtf N (of_nat xLen + lambda)%Qc);;
    for_ 1 sLen (λ sigmaIdx,
      for_ 0 xLen (λ xIdx,
        lim ← state_limits pUkf xIdx;
        let '(xMin, xMax, xLimEnbl) := lim in
        if decide (sigmaIdx ≤ xLen) then
          xp ← load px_p xIdx;
          s ← load pPxx_p (xLen * xIdx + (sigmaIdx - 1));
          store pX_p (sLen * xIdx + sigmaIdx)
                (ukf_state_limiter (xp + s)%Qc xMin xMax xLimEnbl)
        else
          xp ← load px_p xIdx;
          s ← load pPxx_p (xLen * xIdx + (sigmaIdx - xLen - 1));
          store pX_p (sLen * xIdx + sigmaIdx)
                (ukf_state_limiter (xp - s)%Qc xMin xMax xLimEnbl)))
  else mret tt.

(** Step 2: propagate the sigma points and take their weighted mean. *)
Definition ukf_mean_pred_state (pUkf : tUKF) : M unit :=
  let xLen := xLen (par pUkf) in
  let sigmaLen := sLen (par pUkf) in
  let px_m := val (x_m (predict pUkf)) in
  let pX_m := val (X_m (predict pUkf)) in
  let pWm := val (Wm (par pUkf)) in
  for_ 0 xLen (λ xIdx,
    store px_m xIdx 0%Qc;;
    for_ 0 sigmaLen (λ sigmaIdx,
      call_slot (pFcnPredict (predict pUkf)) xIdx
        (λ f, f (u_p (prev pUkf)) (X_p (prev pUkf)) (X_m (predict pUkf))
                sigmaIdx (dT (par pUkf)))
        (mret tt);;
      w ← load pWm sigmaIdx;
      v ← load pX_m (sigmaLen * xIdx + sigmaIdx);
      acc ← load px_m xIdx;
      store px_m xIdx (acc + w * v)%Qc)).

(** Lines 447-453 of [ukf_mean_pred_output]: propagate sigma point
    [sigmaIdx] through the observation function of output [yIdx], or assign
    0 when that function is not specified. *)
Definition observe_sigma (pUkf : tUKF) (sigmaIdx yIdx : nat) : M unit :=
  let pY_m := val (Y_m (predict pUkf)) in
  let sigmaLen := sLen (par pUkf) in
  call_slot (pFcnObserv (predict pUkf)) yIdx
    (λ f, f (u (input pUkf)) (X_m (predict pUkf)) (Y_m (predict pUkf)) sigmaIdx)
    (store pY_m (sigmaLen * sigmaIdx + yIdx) 0%Qc).

(** Step 3: predicted state covariance, observation of the sigma points and
    mean of the predicted output. *)
Definition ukf_mean_pred_output (pUkf : tUKF) : M unit :=
  let pWm := val (Wm (par pUkf)) in
  let pWc := val (Wc (par pUkf)) in
  let pX_m := val (X_m (predict pUkf)) in
  let pY_m := val (Y_m (predict pUkf)) in
  let pP_m := val (P_m (predict pUkf)) in
  let px_m := val (x_m (predict pUkf)) in
  let py_m := val (y_m (predict pUkf)) in
  let sigmaLen := sLen (par pUkf) in
  let xLen := xLen (par pUkf) in
  let yLen := yLen (par pUkf) in
  mtx_zeros (y_m (predict pUkf));;
  mtx_cpy (P_m (predict pUkf)) (Qxx (par pUkf));;
  for_ 0 sigmaLen (λ sigmaIdx,
    for_ 0 xLen (λ xIdx,
      for_ 0 xLen (λ xTrIdx,
        a1 ← load pX_m (sigmaLen * xIdx + sigmaIdx);
        b1 ← load px_m xIdx;
        let term1 := (a1 - b1)%Qc in
        a2 ← load pX_m (sigmaLen * xTrIdx + sigmaIdx);
        b2 ← load px_m xTrIdx;
        let term2 := (a2 - b2)%Qc in
        w ← load pWc sigmaIdx;
        acc ← load pP_m (xLen * xIdx + xTrIdx);
        store pP_m (xLen * xIdx + xTrIdx) (acc + w * term1 * term2)%Qc));;
    for_ 0 yLen (λ yIdx,
      observe_sigma pUkf sigmaIdx yIdx;;
      w ← load pWm sigmaIdx;
      v ← load pY_m (sigmaLen * yIdx + sigmaIdx);
      acc ← load py_m yIdx;
      store py_m yIdx (acc + w * v)%Qc)).

(** Covariance of the predicted output and cross-covariance. *)
Definition ukf_calc_covariances (pUkf : tUKF) : M unit :=
  let pWc := val (Wc (par pUkf)) in
  let pX_m := val (X_m (predict pUkf)) in
  let pY_m := val (Y_m (predict pUkf)) in
  let pPyy := val (Pyy (update pUkf)) in
  let pPxy := val (Pxy (update pUkf)) in
  let px_m := val (x_m (predict pUkf)) in
  let py_m := val (y_m (predict pUkf)) in
  let sigmaLen := sLen (par pUkf) in
  let xLen := xLen (par pUkf) in
  let yLen := yLen (par pUkf) in
  mtx_cpy (Pyy (update pUkf)) (Ryy0 (par pUkf));;
  mtx_zeros (Pxy (update pUkf));;
  for_ 0 sigmaLen (λ sigmaIdx,
    for_ 0 yLen (λ yIdx,
      for_ 0 yLen (λ yTrIdx,
        a1 ← load pY_m (sigmaLen * yIdx + sigmaIdx);
        b1 ← load py_m yIdx;
        let term1 := (a1 - b1)%Qc in
        a2 ← load pY_m (sigmaLen * yTrIdx + sigmaIdx);
        b2 ← load py_m yTrIdx;
        let term2 := (a2 - b2)%Qc in
        w ← load pWc sigmaIdx;
        acc ← load pPyy (yLen * yIdx + yTrIdx);
        store pPyy (yLen * yIdx + yTrIdx) (acc + w * term1 * term2)%Qc));;
    for_ 0 xLen (λ xIdx,
      for_ 0 yLen (λ yTrIdx,
        a1 ← load pX_m (sigmaLen * xIdx + sigmaIdx);
        b1 ← load px_m xIdx;
        let term1 := (a1 - b1)%Qc in
        a2 ← load pY_m (sigmaLen * yTrIdx + sigmaIdx);
        b2 ← load py_m yTrIdx;
        let term2 := (a2 - b2)%Qc in
        w ← load pWc sigmaIdx;
        acc ← load pPxy (yLen * xIdx + yTrIdx);
        store pPxy (yLen * xIdx + yTrIdx) (acc + w * term1 * term2)%Qc))).

(** Step 4: measurement update; every status is discarded as in the source. *)
Definition ukf_meas_update (pUkf : tUKF) : M unit :=
  let pUpdate := update pUkf in
  mtx_identity (Iyy pUpdate);;
  mtx_cpy (Pyy_cpy pUpdate) (Pyy pUpdate);;
  mtx_inv N (Pyy_cpy pUpdate) (Iyy pUpdate);;
  mtx_mul (Pxy pUpdate) (Iyy pUpdate) (K pUpdate);;
  mtx_sub (y (input pUkf)) (y_m (predict pUkf));;
  mtx_mul (K pUpdate) (y (input pUkf)) (x_corr (update pUkf));;
  mtx_add (x_m (predict pUkf)) (x_corr (update pUkf));;
  mtx_mul (K pUpdate) (Pyy pUpdate) (Pxy pUpdate);;
  mtx_mul_src2tr (Pxy pUpdate) (K pUpdate) (Pxx_corr pUpdate);;
  mtx_sub (P_m (predict pUkf)) (Pxx_corr pUpdate);;
  mret tt.

(** The tail of [ukf_step] (lines 300-310): remember the inputs. *)
Definition store_prev_inputs (pUkf : tUKF) : M unit :=
  if negb (is_null (val (u (input pUkf)))) && negb (is_null (val (u_p (prev pUkf)))) then
    let pu_p := val (u_p (prev pUkf)) in
    let pu := val (u (input pUkf)) in
    let uLen := u8 (nrow (u_p (prev pUkf))) in
    for_ 0 uLen (λ u8Idx,
      v ← load pu u8Idx;
      store pu_p u8Idx v)
  else mret tt.

(** [ukf_step]: one estimation cycle. *)
Definition ukf_step (pUkf : tUKF) : M unit :=
  ukf_sigmapoint pUkf;;
  ukf_mean_pred_state pUkf;;
  ukf_mean_pred_output pUkf;;
  ukf_calc_covariances pUkf;;
  ukf_meas_update pUkf;;
  store_prev_inputs pUkf.

End Filter.

(** * Reasoning about computations *)

(** [wp m Q σ]: started in [σ], [m] finishes without a fault and its result
    and final memory satisfy [Q]. *)
Definition wp {A} (m : M A) (Q : A → memory → Prop) (σ : memory) : Prop :=
  match m σ with
  | Done a σ' => Q a σ'
  | Fault _ => False
  end.

(** What a finished computation left in a cell, and the fault of one that
    did not finish. *)
Definition peek {A} (p : ptr) (i : nat) (o : outcome A) : option float :=
  match o with
  | Done _ σ => fmem σ p !! i
  | Fault _ => None
  end.

Definition returned {A} (o : outcome A) : option A :=
  match o with
  | Done a _ => Some a
  | Fault _ => None
  end.

Definition fault_of {A} (o : outcome A) : option fault :=
  match o with
  | Done _ _ => None
  | Fault e => Some e
  end.

(** Two memories hold buffers of the same sizes. *)
Definition same_sizes (σ σ' : memory) : Prop :=
  (∀ p, length (fmem σ' p) = length (fmem σ p)) ∧
  (∀ p, length (bmem σ' p) = length (bmem σ p)).

(** [m] never resizes a buffer. *)
Definition keeps_sizes {A} (m : M A) : Prop :=
  ∀ σ a σ', m σ = Done a σ' → same_sizes σ σ'.

(** The number of sigma points an initialization arrived at, and the sum of
    the [sLen] mean weights it left in memory. *)
Definition sigma_count (o : outcome (nat * tUKF)) : option nat :=
  match o with
  | Done r _ => Some (sLen (par r.2))
  | Fault _ => None
  end.

Definition weight_sum (o : outcome (nat * tUKF)) : option float :=
  match o with
  | Done r σ =>
      p ← val (Wm (par r.2));
      Some (fsum (take (sLen (par r.2)) (fmem σ p)))
  | Fault _ => None
  end.

(** ** What [ukf_init] needs to run to completion

    The limiter arrays, when configured, cover every row of [xLim]; a copy
    between matrices of equal shape finds both buffers and finds them large
    enough. *)
Definition limiters_ready (σ : memory) (xLim : tMatrix) (xLimEnbl : tMatrixBool) : Prop :=
  match bval xLimEnbl, val xLim with
  | Some pE, Some pL =>
      (∀ i, i < nrow xLim → ncol xLim * i + xEpsIdx < length (fmem σ pL)) ∧
      nrow xLim ≤ length (bmem σ pE)
  | _, _ => True
  end.

Definition copy_ready (σ : memory) (dst src : tMatrix) : Prop :=
  nrow dst = nrow src ∧ ncol dst = ncol src →
  ∃ pd ps, val dst = Some pd ∧ val src = Some ps ∧
           nelem src ≤ length (fmem σ ps) ∧ nelem src ≤ length (fmem σ pd).

(** ** Matrices in memory

    [laid_out σ m p r c]: the descriptor [m] declares an [r×c] matrix stored
    at [p], and the buffer at [p] has exactly [r·c] cells. *)
Definition laid_out (σ : memory) (m : tMatrix) (p : ptr) (r c : nat) : Prop :=
  val m = Some p ∧ nrow m = r ∧ ncol m = c ∧ length (fmem σ p) = r * c.

(** What [mtx_inv] leaves in an identity matrix handed to it with the
    [n×n] matrix [a]: the inverse, as far as the library computes one. *)
Definition inverse (N : numerics) (n : nat) (a : list float) : list float :=
  resize (n * n) 0%Qc (gauss_jordan N n a (mat_identity n)).2.2.

(** The continuation of an operation that writes [v] to the buffer at
    [pd] and reports success: it may assume the sizes of the initial memory
    [σ0], the new contents of [pd], and every other buffer as in [σ]. *)
Definition after_write (σ0 σ : memory) (pd : ptr) (v : list float)
    (Q : mtxResultInfo → memory → Prop) : Prop :=
  ∀ σ', same_sizes σ0 σ' → fmem σ' pd = v →
        (∀ q, q ≠ pd → fmem σ' q = fmem σ q) → bmem σ' = bmem σ →
        Q MTX_OPERATION_OK σ'.

(** ** Sigma points

    The limiter of state [xIdx] as memory [σ] holds it: minimum, maximum and
    enable flag, zeros when no limiter is configured. *)
Definition limits_of (pUkf : tUKF) (σ : memory) (xIdx : nat) : float * float * nat :=
  match bval (xLimEnbl (par pUkf)), val (xLim (par pUkf)) with
  | Some pE, Some pL =>
      (mat_at (ncol (xLim (par pUkf))) (fmem σ pL) xIdx xMinIdx,
       mat_at (ncol (xLim (par pUkf))) (fmem σ pL) xIdx xMaxIdx,
       default 0 (bmem σ pE !! xIdx))
  | _, _ => (0%Qc, 0%Qc, 0)
  end.

(** [v] passed through the limiter of state [xIdx]. *)
Definition clamp (pUkf : tUKF) (σ : memory) (xIdx : nat) (v : float) : float :=
  ukf_state_limiter v (limits_of pUkf σ xIdx).1.1 (limits_of pUkf σ xIdx).1.2
                    (limits_of pUkf σ xIdx).2.

(** The lower Cholesky factor of the [n×n] matrix [a] as [mtx_chol_lower]
    leaves it, scaled by [sqrt (n + lambda)]. *)
Definition scaled_factor (N : numerics) (n : nat) (lambda : float)
    (a : list float) : list float :=
  vec_scale (sqrtf N (of_nat n + lambda)%Qc)
            (resize (n * n) 0%Qc (chol_factor N n a).2).

(** The limiter arrays, when configured, are stored apart from the sigma
    points and the covariance and cover every state. *)
Definition sigma_limits_ready (pUkf : tUKF) (σ : memory) (nx : nat)
    (pX pP : ptr) : Prop :=
  match bval (xLimEnbl (par pUkf)), val (xLim (par pUkf)) with
  | Some pE, Some pL =>
      pL ≠ pX ∧ pL ≠ pP ∧
      (∀ i, i < nx → ncol (xLim (par pUkf)) * i + xMaxIdx < length (fmem σ pL)) ∧
      nx ≤ length (bmem σ pE)
  | _, _ => True
  end.

(** Entry [(i, j)] of the sigma-point matrix as [ukf_sigmapoint] computes
    it from the previous mean at [px] and the previous covariance at [pP]:
    the mean in column 0, the mean plus a column of the scaled factor in
    columns [1..nx], the mean minus that column beyond, each through the
    limiter of state [i]. *)
Definition sigma_point (N : numerics) (pUkf : tUKF) (σ : memory) (nx : nat)
    (px pP : ptr) (i j : nat) : float :=
  let xp := mat_at 1 (fmem σ px) i 0 in
  let S := scaled_factor N nx (lambda (par pUkf)) (fmem σ pP) in
  clamp pUkf σ i
    (if decide (j = 0) then xp
     else if decide (j ≤ nx) then (xp + mat_at nx S i (j - 1))%Qc
     else (xp - mat_at nx S i (j - nx - 1))%Qc).

(** The callbacks of a filter never resize a buffer. *)
Definition observers_keep_sizes (pUkf : tUKF) : Prop :=
  ∀ f, Some f ∈ pFcnObserv (predict pUkf) → ∀ a b c s, keeps_sizes (f a b c s).

Definition predictors_keep_sizes (pUkf : tUKF) : Prop :=
  ∀ f, Some f ∈ pFcnPredict (predict pUkf) → ∀ a b c s t, keeps_sizes (f a b c s t).

(** * A test bench

    Configurations over a fixed layout: every matrix of [tUkfMatrix] gets a
    buffer of its own, at the address given by its position in the structure
    (the limiter arrays are left out, as the header allows). *)
Module Bench.

Definition q (n : Z) : float := Qc_of_Z n.

Definition at_ (p r c : nat) : tMatrix := Matrix (Some p) r c.

Definition aSc := 0.
Definition aWm := 1.
Definition aWc := 2.
Definition ax := 3.
Definition ax0 := 4.
Definition axcorr := 5.
Definition au := 6.
Definition auprev := 7.
Definition aX := 8.
Definition aY := 9.
Definition aym := 10.
Definition ay := 11.
Definition aPyy := 12.
Definition aPyycpy := 13.
Definition aRyy0 := 14.
Definition aPxy := 15.
Definition aPxx := 16.
Definition aPxx0 := 17.
Definition aQxx := 18.
Definition aK := 19.
Definition aI := 20.
Definition aPxxcorr := 21.

(** A filter with [nx] states, [ny] outputs and [nu] inputs whose sigma
    matrices and weight vectors are declared with [ns] columns. *)
Definition layout (nx ny nu ns : nat)
    (fp : list (option tPredictFcn)) (fo : list (option tObservFcn)) : tUkfMatrix := {|
  Sc_vector := at_ aSc 1 3;
  Wm_weight_vector := at_ aWm 1 ns;
  Wc_weight_vector := at_ aWc 1 ns;
  x_system_states := at_ ax nx 1;
  x_system_states_ic := at_ ax0 nx 1;
  x_system_states_limits := Matrix None 0 0;
  x_system_states_limits_enable := MatrixBool None 0 0;
  x_system_states_correction := at_ axcorr nx 1;
  u_system_input := at_ au nu 1;
  u_prev_system_input := at_ auprev nu 1;
  X_sigma_points := at_ aX nx ns;
  Y_sigma_points := at_ aY ny ns;
  y_predicted_mean := at_ aym ny 1;
  y_meas := at_ ay ny 1;
  Pyy_out_covariance := at_ aPyy ny ny;
  Pyy_out_covariance_copy := at_ aPyycpy ny ny;
  Ryy0_init_out_covariance := at_ aRyy0 ny ny;
  Pxy_cross_covariance := at_ aPxy nx ny;
  Pxx_error_covariance := at_ aPxx nx nx;
  Pxx0_init_error_covariance := at_ aPxx0 nx nx;
  Qxx_process_noise_cov := at_ aQxx nx nx;
  K_kalman_gain := at_ aK nx ny;
  I_identity_matrix := at_ aI ny ny;
  Pxx_covariance_correction := at_ aPxxcorr nx nx;
  fcnPredict := fp;
  fcnObserve := fo;
  dT_cfg := q 1
|}.

Definition matrices (c : tUkfMatrix) : list tMatrix :=
  [ Sc_vector c; Wm_weight_vector c; Wc_weight_vector c; x_system_states c;
    x_system_states_ic c; x_system_states_correction c; u_system_input c;
    u_prev_system_input c; X_sigma_points c; Y_sigma_points c;
    y_predicted_mean c; y_meas c; Pyy_out_covariance c;
    Pyy_out_covariance_copy c; Ryy0_init_out_covariance c;
    Pxy_cross_covariance c; Pxx_error_covariance c;
    Pxx0_init_error_covariance c; Qxx_process_noise_cov c; K_kalman_gain c;
    I_identity_matrix c; Pxx_covariance_correction c ].

(** Every matrix of [c] backed by a zeroed buffer of its declared size. *)
Definition zeroed (c : tUkfMatrix) : memory :=
  Memory (λ p, from_option (λ m, replicate (nelem m) 0%Qc) []
                 (list_find (λ m, val m = Some p) (matrices c) ≫= λ r, Some r.2))
         (λ _, []).

(** The caller fills a buffer. *)
Definition fill (p : ptr) (l : list float) (σ : memory) : memory := fupd p l σ.

(** Exact routines for single-state, single-output filters: the Cholesky
    factor of [[v]] is [[√v]] for positive [v] (exact when numerator and
    denominator of [v] are squares), the inverse of [[v]] against [[w]]
    leaves [[1]] and [[w/v]]; other sizes are not served. *)
Definition sqrt_exact (a : float) : float :=
  Q2Qc (Z.sqrt (Qnum a) # Pos.sqrt (Qden a)).

Definition scalar_chol (n : nat) (a : list float) : mtxResultInfo * list float :=
  match n, a with
  | 1, [v] => if fltb 0%Qc v then (MTX_OPERATION_OK, [sqrt_exact v])
              else (MTX_NOT_POS_DEFINED, a)
  | _, _ => (MTX_NOT_POS_DEFINED, a)
  end.

Definition scalar_inv (n : nat) (a i : list float)
    : mtxResultInfo * (list float * list float) :=
  match n, a, i with
  | 1, [v], [w] => if decide (v = 0%Qc) then (MTX_SINGULAR, (a, i))
                   else (MTX_OPERATION_OK, ([1%Qc], [(w / v)%Qc]))
  | _, _, _ => (MTX_SINGULAR, (a, i))
  end.

Definition scalar_numerics : numerics :=
  Numerics sqrt_exact scalar_chol scalar_inv.

(** The same configuration with another declaration for one matrix. *)
Definition with_Wm (m : tMatrix) (c : tUkfMatrix) : tUkfMatrix := {|
  Sc_vector := Sc_vector c;
  Wm_weight_vector := m;
  Wc_weight_vector := Wc_weight_vector c;
  x_system_states := x_system_states c;
  x_system_states_ic := x_system_states_ic c;
  x_system_states_limits := x_system_states_limits c;
  x_system_states_limits_enable := x_system_states_limits_enable c;
  x_system_states_correction := x_system_states_correction c;
  u_system_input := u_system_input c;
  u_prev_system_input := u_prev_system_input c;
  X_sigma_points := X_sigma_points c;
  Y_sigma_points := Y_sigma_points c;
  y_predicted_mean := y_predicted_mean c;
  y_meas := y_meas c;
  Pyy_out_covariance := Pyy_out_covariance c;
  Pyy_out_covariance_copy := Pyy_out_covariance_copy c;
  Ryy0_init_out_covariance := Ryy0_init_out_covariance c;
  Pxy_cross_covariance := Pxy_cross_covariance c;
  Pxx_error_covariance := Pxx_error_covariance c;
  Pxx0_init_error_covariance := Pxx0_init_error_covariance c;
  Qxx_process_noise_cov := Qxx_process_noise_cov c;
  K_kalman_gain := K_kalman_gain c;
  I_identity_matrix := I_identity_matrix c;
  Pxx_covariance_correction := Pxx_covariance_correction c;
  fcnPredict := fcnPredict c;
  fcnObserve := fcnObserve c;
  dT_cfg := dT_cfg c
|}.

Definition with_Pyy (m : tMatrix) (c : tUkfMatrix) : tUkfMatrix := {|
  Sc_vector := Sc_vector c;
  Wm_weight_vector := Wm_weight_vector c;
  Wc_weight_vector := Wc_weight_vector c;
  x_system_states := x_system_states c;
  x_system_states_ic := x_system_states_ic c;
  x_system_states_limits := x_system_states_limits c;
  x_system_states_limits_enable := x_system_states_limits_enable c;
  x_system_states_correction := x_system_states_correction c;
  u_system_input := u_system_input c;
  u_prev_system_input := u_prev_system_input c;
  X_sigma_points := X_sigma_points c;
  Y_sigma_points := Y_sigma_points c;
  y_predicted_mean := y_predicted_mean c;
  y_meas := y_meas c;
  Pyy_out_covariance := m;
  Pyy_out_covariance_copy := Pyy_out_covariance_copy c;
  Ryy0_init_out_covariance := Ryy0_init_out_covariance c;
  Pxy_cross_covariance := Pxy_cross_covariance c;
  Pxx_error_covariance := Pxx_error_covariance c;
  Pxx0_init_error_covariance := Pxx0_init_error_covariance c;
  Qxx_process_noise_cov := Qxx_process_noise_cov c;
  K_kalman_gain := K_kalman_gain c;
  I_identity_matrix := I_identity_matrix c;
  Pxx_covariance_correction := Pxx_covariance_correction c;
  fcnPredict := fcnPredict c;
  fcnObserve := fcnObserve c;
  dT_cfg := dT_cfg c
|}.

Definition with_limits (m : tMatrix) (e : tMatrixBool) (c : tUkfMatrix) : tUkfMatrix := {|
  Sc_vector := Sc_vector c;
  Wm_weight_vector := Wm_weight_vector c;
  Wc_weight_vector := Wc_weight_vector c;
  x_system_states := x_system_states c;
  x_system_states_ic := x_system_states_ic c;
  x_system_states_limits := m;
  x_system_states_limits_enable := e;
  x_system_states_correction := x_system_states_correction c;
  u_system_input := u_system_input c;
  u_prev_system_input := u_prev_system_input c;
  X_sigma_points := X_sigma_points c;
  Y_sigma_points := Y_sigma_points c;
  y_predicted_mean := y_predicted_mean c;
  y_meas := y_meas c;
  Pyy_out_covariance := Pyy_out_covariance c;
  Pyy_out_covariance_copy := Pyy_out_covariance_copy c;
  Ryy0_init_out_covariance := Ryy0_init_out_covariance c;
  Pxy_cross_covariance := Pxy_cross_covariance c;
  Pxx_error_covariance := Pxx_error_covariance c;
  Pxx0_init_error_covariance := Pxx0_init_error_covariance c;
  Qxx_process_noise_cov := Qxx_process_noise_cov c;
  K_kalman_gain := K_kalman_gain c;
  I_identity_matrix := I_identity_matrix c;
  Pxx_covariance_correction := Pxx_covariance_correction c;
  fcnPredict := fcnPredict c;
  fcnObserve := fcnObserve c;
  dT_cfg := dT_cfg c
|}.

(** Initialize, then run [k] on the filter structure. *)
Definition after_init {A} (c : tUkfMatrix) (k : tUKF → M A) : M A :=
  r ← ukf_init c; k r.2.

(** *** One state, one output, no callbacks

    The scaling vector holds [alpha = 1], [betha = 2] and the [kappa]
    handed to [scalars]. *)
Definition scalars (kap : Z) : list float := [q 1; q 2; q kap].

Definition plain : tUkfMatrix := layout 1 1 1 3 [None] [None].

Definition plain_mem : memory :=
  fill aPxx0 [q 4] (fill aRyy0 [q 1] (fill aSc (scalars 0) (zeroed plain))).

(** The same filter with a previous covariance that is not positive. *)
Definition indefinite_mem : memory := fill aPxx [q (-4)] plain_mem.

(** The same filter on entry to the measurement update, in a cycle whose
    measurement equals the predicted one: [y = y_m = 5], [x_m = 3],
    [P_m = 1], [Pxy = 1], [Pyy = 2]. *)
Definition settled_mem : memory :=
  fill ay [q 5] (fill aym [q 5] (fill ax [q 3] (fill aPxx [q 1]
    (fill aPxy [q 1] (fill aPyy [q 2] plain_mem))))).

(** The same filter on entry to a step, with previous mean 3 and previous
    covariance 4. *)
Definition primed_mem : memory := fill ax [q 3] (fill aPxx [q 4] plain_mem).

(** The same filter with its state limited to [2, 4]: the limits at
    address 22, the enable flag at address 0 of the flag space. *)
Definition aLim := 22.
Definition aEnbl := 0.

Definition limited : tUkfMatrix :=
  with_limits (at_ aLim 1 3) (MatrixBool (Some aEnbl) 1 1) plain.

Definition limited_mem : memory :=
  bupd aEnbl [1] (fill aLim [q 2; q 4; q 0] primed_mem).

(** The weight vector [Wm] declared [1×2] instead of [1×3], and the output
    covariance [Pyy] declared [2×2] instead of [1×1]. *)
Definition short_Wm : tUkfMatrix := with_Wm (at_ aWm 1 2) plain.
Definition wide_Pyy : tUkfMatrix := with_Pyy (at_ aPyy 2 2) plain.

(** *** 128 states: [sLen] no longer fits a [uint8_t] *)
Definition many_states : tUkfMatrix := layout 128 1 128 1 [] [].

Definition many_states_mem : memory :=
  fill aSc (scalars 0) (zeroed many_states).

(** *** [kappa = -xLen] *)
Definition degenerate_mem : memory :=
  fill aSc (scalars (-1)) (zeroed plain).

(** *** One state, four outputs without observation functions; the
    measurement sigma points hold 1..12 from an earlier cycle. *)
Definition unobserved : tUkfMatrix :=
  layout 1 4 1 3 [None] [None; None; None; None].

Definition unobserved_mem : memory :=
  fill aY (q <$> [1; 2; 3; 4; 5; 6; 7; 8; 9; 10; 11; 12]%Z)
       (fill aSc (scalars 1) (zeroed unobserved)).

(** *** A state that takes the value of the previous input

    The prediction function writes the previous input it is handed into
    the predicted sigma point; the observation function reads the state. *)
Definition follow_input : tPredictFcn := λ pu_p pX_p pX_m sigmaIdx dT,
  v ← load (val pu_p) 0;
  store (val pX_m) sigmaIdx v.

Definition observe_state : tObservFcn := λ pu pX_m pY_m sigmaIdx,
  v ← load (val pX_m) sigmaIdx;
  store (val pY_m) sigmaIdx v.

Definition follower : tUkfMatrix :=
  layout 1 1 1 3 [Some follow_input] [Some observe_state].

Definition follower_mem : memory :=
  fill aPxx0 [q 4] (fill aRyy0 [q 1] (fill aSc (scalars 0) (zeroed follower))).

(** *** Two outputs, the second without an observation function *)
Definition half_observed : tUkfMatrix :=
  layout 1 2 1 3 [Some follow_input] [Some observe_state; None].

(** Two cycles: the caller writes input 10, steps, writes input 20, steps. *)
Definition two_cycles : M unit :=
  after_init follower (λ pUkf,
    store (Some au) 0 (q 10);;
    ukf_step scalar_numerics pUkf;;
    store (Some au) 0 (q 20);;
    ukf_step scalar_numerics pUkf).

End Bench.

(** * Further notions for the properties of the stages *)

(** [m] changes no [float] buffer outside the addresses in [W]. *)
Definition writes_only {A} (W : ptr → Prop) (m : M A) : Prop :=
  ∀ σ a σ', m σ = Done a σ' → ∀ q, ¬ W q → fmem σ' q = fmem σ q.

(** [m] changes no flag buffer. *)
Definition keeps_flags {A} (m : M A) : Prop :=
  ∀ σ a σ', m σ = Done a σ' → bmem σ' = bmem σ.

(** The addresses of a list of matrices. *)
Definition stored_in (ms : list tMatrix) (q : ptr) : Prop :=
  Some q ∈ val <$> ms.

(** A prediction or observation function as the stages of [pUkf] call it
    for sigma column [s]. *)
Definition predict_call (pUkf : tUKF) (f : tPredictFcn) (s : nat) : M unit :=
  f (u_p (prev pUkf)) (X_p (prev pUkf)) (X_m (predict pUkf)) s (dT (par pUkf)).

Definition observe_call (pUkf : tUKF) (f : tObservFcn) (s : nat) : M unit :=
  f (u (input pUkf)) (X_m (predict pUkf)) (Y_m (predict pUkf)) s.

(** The callbacks of a filter, called that way, write only to the addresses
    in [W] and leave the flag buffers alone. *)
Definition predictors_write_only (W : ptr → Prop) (pUkf : tUKF) : Prop :=
  ∀ f, Some f ∈ pFcnPredict (predict pUkf) →
       ∀ s, writes_only W (predict_call pUkf f s) ∧
            keeps_flags (predict_call pUkf f s).

Definition observers_write_only (W : ptr → Prop) (pUkf : tUKF) : Prop :=
  ∀ f, Some f ∈ pFcnObserv (predict pUkf) →
       ∀ s, writes_only W (observe_call pUkf f s) ∧
            keeps_flags (observe_call pUkf f s).

(** The matrices [ukf_step] stores into. *)
Definition step_targets (pUkf : tUKF) : list tMatrix :=
  [ Pxx_p (prev pUkf); X_p (prev pUkf); x_m (predict pUkf);
    y_m (predict pUkf); P_m (predict pUkf); Y_m (predict pUkf);
    Pyy (update pUkf); Pxy (update pUkf); Iyy (update pUkf);
    Pyy_cpy (update pUkf); K (update pUkf); y (input pUkf);
    x_corr (update pUkf); Pxx_corr (update pUkf); u_p (prev pUkf) ].

(** The memory a computation leaves (the one it started in if it faults). *)
Definition memory_after {A} (m : M A) (σ : memory) : memory :=
  match m σ with
  | Done _ σ' => σ'
  | Fault _ => σ
  end.

(** ** What the dimension check rejects

    One condition per block of [ukf_dimension_check], in the order of the
    source: a mandatory matrix is rejected when it is missing or mis-shaped;
    the pairs [Wm]/[Wc] and [Pyy]/[Pyy_cpy] when one is missing or both are
    mis-shaped; the optional inputs [u]/[u_p] when both are present and both
    mis-shaped. *)
Definition missing (m : tMatrix) : bool := is_null (val m).

Definition dimension_faults (pUkf : tUKF) : list bool :=
  let nx := xLen (par pUkf) in
  let ns := sLen (par pUkf) in
  let ny := yLen (par pUkf) in
  [ negb (missing (u (input pUkf))) && negb (missing (u_p (prev pUkf)))
    && (shape_differs (u (input pUkf)) nx 1
        && shape_differs (u_p (prev pUkf)) nx 1);
    missing (y (input pUkf)) || shape_differs (y (input pUkf)) ny 1;
    missing (Wm (par pUkf)) || missing (Wc (par pUkf))
    || (shape_differs (Wm (par pUkf)) 1 ns && shape_differs (Wc (par pUkf)) 1 ns);
    missing (Pxx0 (par pUkf)) || shape_differs (Pxx0 (par pUkf)) nx nx;
    missing (Qxx (par pUkf)) || shape_differs (Qxx (par pUkf)) nx nx;
    missing (Ryy0 (par pUkf)) || shape_differs (Ryy0 (par pUkf)) ny ny;
    missing (X_m (predict pUkf)) || shape_differs (X_m (predict pUkf)) nx ns;
    missing (Y_m (predict pUkf)) || shape_differs (Y_m (predict pUkf)) ny ns;
    missing (P_m (predict pUkf)) || shape_differs (P_m (predict pUkf)) nx nx;
    missing (Pyy (update pUkf)) || missing (Pyy_cpy (update pUkf))
    || (shape_differs (Pyy (update pUkf)) ny ny
        && shape_differs (Pyy_cpy (update pUkf)) ny ny);
    missing (Pxy (update pUkf)) || shape_differs (Pxy (update pUkf)) nx ny;
    missing (Pxx_corr (update pUkf)) || shape_differs (Pxx_corr (update pUkf)) nx nx;
    missing (K (update pUkf)) || shape_differs (K (update pUkf)) nx ny ].

(** The blocks of [ukf_dimension_check] as functions of the status so far:
    a mandatory matrix, a mandatory pair, the optional inputs. *)
Definition check_single (a d : bool) (Result : nat) : nat :=
  if negb a then if d then set_bit Result else Result else set_bit Result.

Definition check_pair (a b d e : bool) (Result : nat) : nat :=
  if negb a && negb b then if d && e then set_bit Result else Result
  else set_bit Result.

Definition check_optional (a b d e : bool) (Result : nat) : nat :=
  if negb a && negb b then if d && e then set_bit Result else Result
  else Result.

(** [ukf_dimension_check] as the composition of its thirteen blocks, the
    last one outermost. *)
Definition dimension_check_blocks (pUkf : tUKF) : nat :=
  let nx := xLen (par pUkf) in
  let ns := sLen (par pUkf) in
  let ny := yLen (par pUkf) in
  check_single (missing (K (update pUkf)))
    (shape_differs (K (update pUkf)) nx ny)
  (check_single (missing (Pxx_corr (update pUkf)))
    (shape_differs (Pxx_corr (update pUkf)) nx nx)
  (check_single (missing (Pxy (update pUkf)))
    (shape_differs (Pxy (update pUkf)) nx ny)
  (check_pair (missing (Pyy (update pUkf))) (missing (Pyy_cpy (update pUkf)))
    (shape_differs (Pyy (update pUkf)) ny ny)
    (shape_differs (Pyy_cpy (update pUkf)) ny ny)
  (check_single (missing (P_m (predict pUkf)))
    (shape_differs (P_m (predict pUkf)) nx nx)
  (check_single (missing (Y_m (predict pUkf)))
    (shape_differs (Y_m (predict pUkf)) ny ns)
  (check_single (missing (X_m (predict pUkf)))
    (shape_differs (X_m (predict pUkf)) nx ns)
  (check_single (missing (Ryy0 (par pUkf)))
    (shape_differs (Ryy0 (par pUkf)) ny ny)
  (check_single (missing (Qxx (par pUkf)))
    (shape_differs (Qxx (par pUkf)) nx nx)
  (check_single (missing (Pxx0 (par pUkf)))
    (shape_differs (Pxx0 (par pUkf)) nx nx)
  (check_pair (missing (Wm (par pUkf))) (missing (Wc (par pUkf)))
    (shape_differs (Wm (par pUkf)) 1 ns) (shape_differs (Wc (par pUkf)) 1 ns)
  (check_single (missing (y (input pUkf)))
    (shape_differs (y (input pUkf)) ny 1)
  (check_optional (missing (u (input pUkf))) (missing (u_p (prev pUkf)))
    (shape_differs (u (input pUkf)) nx 1)
    (shape_differs (u_p (prev pUkf)) nx 1)
    0)))))))))))).

(** The same conditions as propositions: what a filter structure must
    satisfy for the check to report OK. *)
Definition present (m : tMatrix) : Prop := val m ≠ None.

Definition shaped (m : tMatrix) (r c : nat) : Prop := nrow m = r ∧ ncol m = c.

Definition accepted (pUkf : tUKF) : Prop :=
  let nx := xLen (par pUkf) in
  let ns := sLen (par pUkf) in
  let ny := yLen (par pUkf) in
  (present (u (input pUkf)) → present (u_p (prev pUkf)) →
   shaped (u (input pUkf)) nx 1 ∨ shaped (u_p (prev pUkf)) nx 1) ∧
  (present (y (input pUkf)) ∧ shaped (y (input pUkf)) ny 1) ∧
  (present (Wm (par pUkf)) ∧ present (Wc (par pUkf)) ∧
   (shaped (Wm (par pUkf)) 1 ns ∨ shaped (Wc (par pUkf)) 1 ns)) ∧
  (present (Pxx0 (par pUkf)) ∧ shaped (Pxx0 (par pUkf)) nx nx) ∧
  (present (Qxx (par pUkf)) ∧ shaped (Qxx (par pUkf)) nx nx) ∧
  (present (Ryy0 (par pUkf)) ∧ shaped (Ryy0 (par pUkf)) ny ny) ∧
  (present (X_m (predict pUkf)) ∧ shaped (X_m (predict pUkf)) nx ns) ∧
  (present (Y_m (predict pUkf)) ∧ shaped (Y_m (predict pUkf)) ny ns) ∧
  (present (P_m (predict pUkf)) ∧ shaped (P_m (predict pUkf)) nx nx) ∧
  (present (Pyy (update pUkf)) ∧ present (Pyy_cpy (update pUkf)) ∧
   (shaped (Pyy (update pUkf)) ny ny ∨ shaped (Pyy_cpy (update pUkf)) ny ny)) ∧
  (present (Pxy (update pUkf)) ∧ shaped (Pxy (update pUkf)) nx ny) ∧
  (present (Pxx_corr (update pUkf)) ∧ shaped (Pxx_corr (update pUkf)) nx nx) ∧
  (present (K (update pUkf)) ∧ shaped (K (update pUkf)) nx ny).

(** Two filter structures that agree on everything the check reads: the
    three lengths and the sixteen matrices above. *)
Definition checked_alike (a b : tUKF) : Prop :=
  xLen (par a) = xLen (par b) ∧ sLen (par a) = sLen (par b) ∧
  yLen (par a) = yLen (par b) ∧
  [ u (input a); u_p (prev a); y (input a); Wm (par a); Wc (par a);
    Pxx0 (par a); Qxx (par a); Ryy0 (par a); X_m (predict a); Y_m (predict a);
    P_m (predict a); Pyy (update a); Pyy_cpy (update a); Pxy (update a);
    Pxx_corr (update a); K (update a) ]
  = [ u (input b); u_p (prev b); y (input b); Wm (par b); Wc (par b);
      Pxx0 (par b); Qxx (par b); Ryy0 (par b); X_m (predict b); Y_m (predict b);
      P_m (predict b); Pyy (update b); Pyy_cpy (update b); Pxy (update b);
      Pxx_corr (update b); K (update b) ].

(** The status for a list of conditions: 1 (NOK) when one holds, else 0. *)
Definition status_of (faults : list bool) : nat :=
  if existsb id faults then 1 else 0.

(** ** Limiters after initialization

    The enable flag of state [i] as [ukf_init] leaves it: cleared when the
    limiter was enabled and [max < min + eps], else as it was. *)
Definition limiter_flag (c : nat) (lims : list float) (i enbl : nat) : nat :=
  if negb (enbl =? 0)
     && fltb (mat_at c lims i xMaxIdx)
             (mat_at c lims i xMinIdx + mat_at c lims i xEpsIdx)%Qc
  then 0 else enbl.

(** ** Weighted sums over the sigma points

    Entry [s] of a weight vector; the deviation of sigma point [s] of row
    [i] of the [·×ns] matrix [S] from entry [i] of the mean [m]; and the
    sum over the first [k] sigma points of the weighted products of the
    deviations of row [i] of [A] and row [j] of [B]. *)
Definition weight (W : list float) (s : nat) : float := default 0%Qc (W !! s).

Definition deviation (ns : nat) (S m : list float) (i s : nat) : float :=
  (mat_at ns S i s - default 0%Qc (m !! i))%Qc.

Definition weighted_products (k ns : nat) (W A a B b : list float)
    (i j : nat) : float :=
  fsum ((λ s, (weight W s * deviation ns A a i s * deviation ns B b j s)%Qc)
        <$> seq 0 k).

(** The weighted sum of the first [k] sigma points of row [i] of [S]. *)
Definition weighted_mean (k ns : nat) (W S : list float) (i : nat) : float :=
  fsum ((λ s, (weight W s * mat_at ns S i s)%Qc) <$> seq 0 k).

(** ** What the filter expects of its callbacks

    The callback table covers every state (output); an assigned prediction
    function of state [i], called for sigma point [s] in a memory of the
    sizes of [σ], completes, keeps the sizes and changes at most cell
    [(i, s)] of the sigma-point matrix at [pX].  Likewise for the
    observation function of output [i] and the matrix at [pY]. *)
Definition writes_cell (σ σ' : memory) (p : ptr) (k : nat) (m : M unit) : Prop :=
  wp m (λ _ σ'',
          same_sizes σ σ'' ∧ bmem σ'' = bmem σ' ∧
          (∀ q, q ≠ p → fmem σ'' q = fmem σ' q) ∧
          ∀ k', k' ≠ k → fmem σ'' p !! k' = fmem σ' p !! k') σ'.

Definition predictors_fit (pUkf : tUKF) (σ : memory) (pX : ptr) : Prop :=
  (∀ i, i < xLen (par pUkf) → is_Some (pFcnPredict (predict pUkf) !! i)) ∧
  ∀ i f, pFcnPredict (predict pUkf) !! i = Some (Some f) →
    ∀ s σ', s < sLen (par pUkf) → same_sizes σ σ' →
      writes_cell σ σ' pX (sLen (par pUkf) * i + s) (predict_call pUkf f s).

Definition observers_fit (pUkf : tUKF) (σ : memory) (pY : ptr) : Prop :=
  ∀ i, i < yLen (par pUkf) →
    ∃ f, pFcnObserv (predict pUkf) !! i = Some (Some f) ∧
      ∀ s σ', s < sLen (par pUkf) → same_sizes σ σ' →
        writes_cell σ σ' pY (sLen (par pUkf) * i + s) (observe_call pUkf f s).

(** ** A filter ready to step

    The buffers of a filter structure wired as [ukf_init] wires it: the
    previous, predicted and updated state share [buf_x], the three error
    covariances share [buf_P], the sigma points before and after prediction
    share [buf_X]. *)
Record tUkfBuffers := Buffers {
  buf_Wm : ptr; buf_Wc : ptr; buf_X : ptr; buf_Y : ptr; buf_x : ptr;
  buf_ym : ptr; buf_y : ptr; buf_xcorr : ptr; buf_P : ptr; buf_Pyy : ptr;
  buf_Pyycpy : ptr; buf_Pxy : ptr; buf_K : ptr; buf_I : ptr;
  buf_Pcorr : ptr; buf_Q : ptr; buf_R : ptr
}.

(** The input vectors, when both present, cover the declared inputs. *)
Definition inputs_ready (pUkf : tUKF) (σ : memory) : Prop :=
  match val (u (input pUkf)), val (u_p (prev pUkf)) with
  | Some pu, Some pup =>
      u8 (nrow (u_p (prev pUkf))) ≤ length (fmem σ pu) ∧
      u8 (nrow (u_p (prev pUkf))) ≤ length (fmem σ pup)
  | _, _ => True
  end.

(** [step_ready pUkf b nx ny σ]: in memory [σ] the filter has [nx] states,
    [ny] outputs and [2·nx + 1] sigma points, every matrix of the cycle
    lies in its buffer of [b] with the size the counts imply, the buffers
    are distinct, and limiters, inputs and callbacks fit. *)
Definition step_ready (pUkf : tUKF) (b : tUkfBuffers) (nx ny : nat)
    (σ : memory) : Prop :=
  let ns := 2 * nx + 1 in
  (xLen (par pUkf) = nx ∧ yLen (par pUkf) = ny ∧ sLen (par pUkf) = ns) ∧
  (val (Wm (par pUkf)) = Some (buf_Wm b) ∧ ns ≤ length (fmem σ (buf_Wm b))) ∧
  (val (Wc (par pUkf)) = Some (buf_Wc b) ∧ ns ≤ length (fmem σ (buf_Wc b))) ∧
  (laid_out σ (x_p (prev pUkf)) (buf_x b) nx 1 ∧
   laid_out σ (x_m (predict pUkf)) (buf_x b) nx 1) ∧
  (laid_out σ (X_p (prev pUkf)) (buf_X b) nx ns ∧
   laid_out σ (X_m (predict pUkf)) (buf_X b) nx ns) ∧
  (laid_out σ (Pxx_p (prev pUkf)) (buf_P b) nx nx ∧
   laid_out σ (P_m (predict pUkf)) (buf_P b) nx nx) ∧
  laid_out σ (Y_m (predict pUkf)) (buf_Y b) ny ns ∧
  laid_out σ (y_m (predict pUkf)) (buf_ym b) ny 1 ∧
  laid_out σ (y (input pUkf)) (buf_y b) ny 1 ∧
  laid_out σ (x_corr (update pUkf)) (buf_xcorr b) nx 1 ∧
  laid_out σ (Pyy (update pUkf)) (buf_Pyy b) ny ny ∧
  laid_out σ (Pyy_cpy (update pUkf)) (buf_Pyycpy b) ny ny ∧
  laid_out σ (Pxy (update pUkf)) (buf_Pxy b) nx ny ∧
  laid_out σ (K (update pUkf)) (buf_K b) nx ny ∧
  laid_out σ (Iyy (update pUkf)) (buf_I b) ny ny ∧
  laid_out σ (Pxx_corr (update pUkf)) (buf_Pcorr b) nx nx ∧
  laid_out σ (Qxx (par pUkf)) (buf_Q b) nx nx ∧
  laid_out σ (Ryy0 (par pUkf)) (buf_R b) ny ny ∧
  NoDup [ buf_Wm b; buf_Wc b; buf_X b; buf_Y b; buf_x b; buf_ym b; buf_y b;
          buf_xcorr b; buf_P b; buf_Pyy b; buf_Pyycpy b; buf_Pxy b; buf_K b;
          buf_I b; buf_Pcorr b; buf_Q b; buf_R b ] ∧
  sigma_limits_ready pUkf σ nx (buf_X b) (buf_P b) ∧
  inputs_ready pUkf σ ∧
  predictors_fit pUkf σ (buf_X b) ∧
  observers_fit pUkf σ (buf_Y b).

(** [n] consecutive cycles. *)
Fixpoint ukf_steps (N : numerics) (pUkf : tUKF) (n : nat) : M unit :=
  match n with
  | 0 => mret tt
  | S n' => ukf_step N pUkf;; ukf_steps N pUkf n'
  end.

(** ** What initialization writes

    The matrices [ukf_init] stores into, and the condition under which it
    computes the weights: both declared lengths equal [sLen]. *)
Definition init_targets (c : tUkfMatrix) : list tMatrix :=
  [ Wm_weight_vector c; Wc_weight_vector c; Pxx_error_covariance c;
    x_system_states c ].

Definition weights_fit (c : tUkfMatrix) : Prop :=
  u8 (ncol (Wm_weight_vector c)) = u8 (2 * u8 (nrow (x_system_states c)) + 1) ∧
  u8 (ncol (Wc_weight_vector c)) = u8 (ncol (Wm_weight_vector c)).

(** ** A configuration ready to initialize

    [config_ready c b pS px0 pP0 nx ny al be ka σ]: every matrix of the
    configuration is declared with the shape the counts imply and lies in a
    buffer of that size, the buffers of the cycle are distinct, the scaling
    vector at [pS] holds [al], [be] and [ka], the input vector, if present,
    has [nx] rows, and limiters, inputs and callbacks fit. *)
Definition config_ready (c : tUkfMatrix) (b : tUkfBuffers) (pS px0 pP0 : ptr)
    (nx ny : nat) (al be ka : float) (σ : memory) : Prop :=
  let ns := 2 * nx + 1 in
  let pUkf := ukf_fields c al be ka in
  (nx ≤ 127 ∧ ny ≤ 255) ∧
  (val (Sc_vector c) = Some pS ∧ fmem σ pS !! alphaIdx = Some al ∧
   fmem σ pS !! bethaIdx = Some be ∧ fmem σ pS !! kappaIdx = Some ka) ∧
  laid_out σ (Wm_weight_vector c) (buf_Wm b) 1 ns ∧
  laid_out σ (Wc_weight_vector c) (buf_Wc b) 1 ns ∧
  laid_out σ (x_system_states c) (buf_x b) nx 1 ∧
  laid_out σ (x_system_states_ic c) px0 nx 1 ∧
  laid_out σ (x_system_states_correction c) (buf_xcorr b) nx 1 ∧
  laid_out σ (X_sigma_points c) (buf_X b) nx ns ∧
  laid_out σ (Y_sigma_points c) (buf_Y b) ny ns ∧
  laid_out σ (y_predicted_mean c) (buf_ym b) ny 1 ∧
  laid_out σ (y_meas c) (buf_y b) ny 1 ∧
  laid_out σ (Pyy_out_covariance c) (buf_Pyy b) ny ny ∧
  laid_out σ (Pyy_out_covariance_copy c) (buf_Pyycpy b) ny ny ∧
  laid_out σ (Ryy0_init_out_covariance c) (buf_R b) ny ny ∧
  laid_out σ (Pxy_cross_covariance c) (buf_Pxy b) nx ny ∧
  laid_out σ (Pxx_error_covariance c) (buf_P b) nx nx ∧
  laid_out σ (Pxx0_init_error_covariance c) pP0 nx nx ∧
  laid_out σ (Qxx_process_noise_cov c) (buf_Q b) nx nx ∧
  laid_out σ (K_kalman_gain c) (buf_K b) nx ny ∧
  laid_out σ (I_identity_matrix c) (buf_I b) ny ny ∧
  laid_out σ (Pxx_covariance_correction c) (buf_Pcorr b) nx nx ∧
  NoDup [ buf_Wm b; buf_Wc b; buf_X b; buf_Y b; buf_x b; buf_ym b; buf_y b;
          buf_xcorr b; buf_P b; buf_Pyy b; buf_Pyycpy b; buf_Pxy b; buf_K b;
          buf_I b; buf_Pcorr b; buf_Q b; buf_R b ] ∧
  (val (u_system_input c) ≠ None →
   nrow (u_system_input c) = nx ∧ ncol (u_system_input c) = 1) ∧
  limiters_ready σ (x_system_states_limits c) (x_system_states_limits_enable c) ∧
  sigma_limits_ready pUkf σ nx (buf_X b) (buf_P b) ∧
  inputs_ready pUkf σ ∧
  predictors_fit pUkf σ (buf_X b) ∧
  observers_fit pUkf σ (buf_Y b).

(** ** Initialized filters of the bench *)
Module Cases.

Definition filter_of (c : tUkfMatrix) : tUKF :=
  ukf_fields c (Bench.q 1) (Bench.q 2) (Bench.q 0).

(** The follower of the bench after [ukf_init]. *)
Definition follower_ready : memory :=
  memory_after (ukf_init Bench.follower) Bench.follower_mem.

Definition buffers : tUkfBuffers := {|
  buf_Wm := Bench.aWm; buf_Wc := Bench.aWc; buf_X := Bench.aX;
  buf_Y := Bench.aY; buf_x := Bench.ax; buf_ym := Bench.aym;
  buf_y := Bench.ay; buf_xcorr := Bench.axcorr; buf_P := Bench.aPxx;
  buf_Pyy := Bench.aPyy; buf_Pyycpy := Bench.aPyycpy; buf_Pxy := Bench.aPxy;
  buf_K := Bench.aK; buf_I := Bench.aI; buf_Pcorr := Bench.aPxxcorr;
  buf_Q := Bench.aQxx; buf_R := Bench.aRyy0
|}.

End Cases.

(** * Calculus *)

Section Calculus.
Context {A B : Type}.
Implicit Types (σ : memory) (p : ptr) (i : nat).

Lemma wp_done (m : M A) Q σ :
  wp m Q σ ↔ ∃ a σ', m σ = Done a σ' ∧ Q a σ'.
Proof.
  unfold wp. destruct (m σ) as [a σ'|e]; split.
  - eauto.
  - intros (? & ? & [= <- <-] & ?). done.
  - done.
  - intros (? & ? & ? & ?). done.
Qed.

Lemma wp_ret (a : A) Q σ : wp (mret a) Q σ ↔ Q a σ.
Proof. done. Qed.

Lemma wp_bind (m : M A) (f : A → M B) Q σ :
  wp (m ≫= f) Q σ ↔ wp m (λ a σ', wp (f a) Q σ') σ.
Proof. unfold wp, mbind, M_bind. by destruct (m σ). Qed.

Lemma wp_mono (m : M A) (Q Q' : A → memory → Prop) σ :
  (∀ a σ', Q a σ' → Q' a σ') → wp m Q σ → wp m Q' σ.
Proof. unfold wp. destruct (m σ); eauto. Qed.

Lemma bind_done (m : M A) (f : A → M B) σ b σ'' :
  (m ≫= f) σ = Done b σ'' ↔ ∃ a σ', m σ = Done a σ' ∧ f a σ' = Done b σ''.
Proof.
  unfold mbind, M_bind. destruct (m σ) as [a σ'|e]; split.
  - eauto.
  - by intros (? & ? & [= <- <-] & ?).
  - done.
  - by intros (? & ? & ? & ?).
Qed.

End Calculus.

Lemma fmem_fupd_eq p l σ : fmem (fupd p l σ) p = l.
Proof. simpl. by rewrite decide_True. Qed.

Lemma fmem_fupd_ne p q l σ : q ≠ p → fmem (fupd p l σ) q = fmem σ q.
Proof. intros. simpl. by rewrite decide_False. Qed.

Lemma bmem_fupd p l σ : bmem (fupd p l σ) = bmem σ.
Proof. done. Qed.

Lemma fmem_bupd p l σ : fmem (bupd p l σ) = fmem σ.
Proof. done. Qed.

Lemma bmem_bupd_eq p l σ : bmem (bupd p l σ) p = l.
Proof. simpl. by rewrite decide_True. Qed.

Lemma bmem_bupd_ne p q l σ : q ≠ p → bmem (bupd p l σ) q = bmem σ q.
Proof. intros. simpl. by rewrite decide_False. Qed.

Lemma wp_load p i v (Q : float → memory → Prop) σ :
  fmem σ p !! i = Some v → Q v σ → wp (load (Some p) i) Q σ.
Proof. unfold wp, load. by intros ->. Qed.

Lemma wp_store p i v (Q : unit → memory → Prop) σ :
  i < length (fmem σ p) →
  Q tt (fupd p (<[i := v]> (fmem σ p)) σ) →
  wp (store (Some p) i v) Q σ.
Proof. unfold wp, store. intros. by rewrite decide_True. Qed.

Lemma wp_load_flag p i v (Q : nat → memory → Prop) σ :
  bmem σ p !! i = Some v → Q v σ → wp (load_flag (Some p) i) Q σ.
Proof. unfold wp, load_flag. by intros ->. Qed.

Lemma wp_store_flag p i v (Q : unit → memory → Prop) σ :
  i < length (bmem σ p) →
  Q tt (bupd p (<[i := v]> (bmem σ p)) σ) →
  wp (store_flag (Some p) i v) Q σ.
Proof. unfold wp, store_flag. intros. by rewrite decide_True. Qed.

Lemma wp_read_block p n (Q : list float → memory → Prop) σ :
  n ≤ length (fmem σ p) →
  Q (take n (fmem σ p)) σ →
  wp (read_block (Some p) n) Q σ.
Proof. unfold wp, read_block. intros. by rewrite decide_True. Qed.

Lemma wp_write_block p l (Q : unit → memory → Prop) σ :
  length l ≤ length (fmem σ p) →
  Q tt (fupd p (l ++ drop (length l) (fmem σ p)) σ) →
  wp (write_block (Some p) l) Q σ.
Proof. unfold wp, write_block. intros. by rewrite decide_True. Qed.

Lemma wp_iter_from (I : nat → memory → Prop) n lo body σ :
  I lo σ →
  (∀ i σ', lo ≤ i < lo + n → I i σ' → wp (body i) (λ _, I (S i)) σ') →
  wp (iter_from n lo body) (λ _, I (lo + n)) σ.
Proof.
  revert lo σ. induction n as [|n IH]; intros lo σ H0 Hstep; simpl.
  - apply wp_ret. by rewrite Nat.add_0_r.
  - apply wp_bind. eapply wp_mono; [|apply Hstep; [lia|done]].
    intros t σ' H1. simpl in H1. replace (lo + S n) with (S lo + n) by lia.
    apply IH; [done|]. intros i σ'' Hi. apply Hstep. lia.
Qed.

(** The invariant rule for [for] loops. *)
Lemma wp_for (I : nat → memory → Prop) lo hi body (Q : unit → memory → Prop) σ :
  lo ≤ hi →
  I lo σ →
  (∀ i σ', lo ≤ i < hi → I i σ' → wp (body i) (λ _, I (S i)) σ') →
  (∀ σ', I hi σ' → Q tt σ') →
  wp (for_ lo hi body) Q σ.
Proof.
  intros Hle H0 Hstep Hpost. unfold for_.
  eapply wp_mono; [|apply (wp_iter_from I); [done|]].
  - intros t σ' HI. destruct t. apply Hpost. by replace hi with (lo + (hi - lo)) by lia.
  - intros i σ' Hi. apply Hstep. lia.
Qed.

(** A loop that completes has completed each of its rounds. *)
Lemma iter_from_done_round n lo body k σ σ' :
  iter_from n lo body σ = Done tt σ' →
  lo ≤ k < lo + n →
  ∃ σ1 σ2, iter_from (k - lo) lo body σ = Done tt σ1 ∧ body k σ1 = Done tt σ2.
Proof.
  revert lo σ. induction n as [|n IH]; intros lo σ Hrun Hk; [lia|].
  simpl in Hrun. apply bind_done in Hrun as (t & σ0 & Hb & Hrest). destruct t.
  destruct (decide (k = lo)) as [->|Hne].
  - exists σ, σ0. by rewrite Nat.sub_diag.
  - destruct (IH (S lo) σ0 Hrest) as (σ1 & σ2 & H1 & H2); [lia|].
    exists σ1, σ2. split; [|done].
    replace (k - lo) with (S (k - S lo)) by lia. simpl.
    apply bind_done. eauto.
Qed.

Lemma for_done_round lo hi body k σ σ' :
  for_ lo hi body σ = Done tt σ' →
  lo ≤ k < hi →
  ∃ σ1 σ2, for_ lo k body σ = Done tt σ1 ∧ body k σ1 = Done tt σ2.
Proof. unfold for_. intros H Hk. eapply iter_from_done_round; [done|lia]. Qed.

(** * The matrix operations touch their destination only *)

Lemma read_block_done v n σ l σ' :
  read_block v n σ = Done l σ' →
  σ' = σ ∧ ∃ p, v = Some p ∧ l = take n (fmem σ p) ∧ n ≤ length (fmem σ p).
Proof.
  unfold read_block. destruct v as [p|]; [|done].
  case_decide; [|done]. intros [= <- <-]. eauto.
Qed.

Lemma write_block_done v l σ t σ' :
  write_block v l σ = Done t σ' →
  ∃ p, v = Some p ∧ length l ≤ length (fmem σ p) ∧
       σ' = fupd p (l ++ drop (length l) (fmem σ p)) σ.
Proof.
  unfold write_block. destruct v as [p|]; [|done].
  case_decide; [|done]. intros [= <-]. eauto.
Qed.

Lemma mtx_chol_lower_frame N m σ r σ' :
  mtx_chol_lower N m σ = Done r σ' →
  bmem σ' = bmem σ ∧ ∀ q, val m ≠ Some q → fmem σ' q = fmem σ q.
Proof.
  unfold mtx_chol_lower. case_decide.
  - intros (a & σ1 & Hr & Hw)%bind_done.
    apply read_block_done in Hr as (-> & _).
    apply bind_done in Hw as (t & σ2 & Hw & [= <- <-]).
    apply write_block_done in Hw as (p & Hp & _ & ->).
    split; [done|]. intros q Hq. apply fmem_fupd_ne. congruence.
  - by intros [= <- <-].
Qed.

(** * Sigma points: a failed factorization *)

(** C7.  When the Cholesky factorization of the previous covariance reports
    a failure, [ukf_sigmapoint] does nothing after the factorization call:
    it ends in the memory that call left, so every buffer other than the
    covariance's own, the sigma-point matrix [X_p] among them, holds what it
    held before the stage. *)
Theorem ukf_sigmapoint_chol_failure N pUkf σ r σ' :
  mtx_chol_lower N (Pxx_p (prev pUkf)) σ = Done r σ' →
  r ≠ MTX_OPERATION_OK →
  ukf_sigmapoint N pUkf σ = Done tt σ' ∧
  ∀ pX, val (X_p (prev pUkf)) = Some pX →
        val (Pxx_p (prev pUkf)) ≠ Some pX →
        fmem σ' pX = fmem σ pX.
Proof.
  intros Hchol Hr. split.
  - unfold ukf_sigmapoint, mbind, M_bind. rewrite Hchol.
    by rewrite decide_False.
  - intros pX _ Hne. by apply (mtx_chol_lower_frame _ _ _ _ _ Hchol).
Qed.

Lemma ukf_sigmapoint_chol_failure_witness :
  let pUkf := ukf_fields Bench.plain (Bench.q 1) (Bench.q 2) (Bench.q 0) in
  let σ := Bench.indefinite_mem in
  let σ' := fupd Bench.aPxx [Bench.q (-4)] σ in
  ukf_sigmapoint Bench.scalar_numerics pUkf σ = Done tt σ' ∧
  ∀ pX, val (X_p (prev pUkf)) = Some pX →
        val (Pxx_p (prev pUkf)) ≠ Some pX →
        fmem σ' pX = fmem σ pX.
Proof.
  intros pUkf σ σ'.
  apply (ukf_sigmapoint_chol_failure Bench.scalar_numerics pUkf σ
           MTX_NOT_POS_DEFINED σ').
  - reflexivity.
  - discriminate.
Defined.

(** * Buffers are never resized *)

Lemma same_sizes_refl σ : same_sizes σ σ.
Proof. by split. Qed.

Lemma same_sizes_trans σ1 σ2 σ3 :
  same_sizes σ1 σ2 → same_sizes σ2 σ3 → same_sizes σ1 σ3.
Proof.
  intros [Hf Hb] [Hf' Hb']. split; intros p.
  - by rewrite Hf', Hf.
  - by rewrite Hb', Hb.
Qed.

Lemma same_sizes_fupd p l σ :
  length l = length (fmem σ p) → same_sizes σ (fupd p l σ).
Proof.
  intros Hl. split; [|done]. intros q. simpl. by case_decide; subst.
Qed.

Lemma same_sizes_bupd p l σ :
  length l = length (bmem σ p) → same_sizes σ (bupd p l σ).
Proof.
  intros Hl. split; [done|]. intros q. simpl. by case_decide; subst.
Qed.

Lemma keeps_ret {A} (a : A) : keeps_sizes (mret a : M A).
Proof. intros σ ? ? [= <- <-]. apply same_sizes_refl. Qed.

Lemma keeps_bind {A B} (m : M A) (f : A → M B) :
  keeps_sizes m → (∀ a, keeps_sizes (f a)) → keeps_sizes (m ≫= f).
Proof.
  intros Hm Hf σ b σ'' (a & σ' & H1 & H2)%bind_done.
  eapply same_sizes_trans; [by eapply Hm|by eapply Hf].
Qed.

Lemma keeps_load v i : keeps_sizes (load v i).
Proof.
  intros σ a σ'. unfold load. destruct v; [|done].
  destruct (_ !! _); [|done]. intros [= <- <-]. apply same_sizes_refl.
Qed.

Lemma keeps_store v i a : keeps_sizes (store v i a).
Proof.
  intros σ t σ'. unfold store. destruct v; [|done].
  case_decide; [|done]. intros [= <- <-].
  apply same_sizes_fupd. by rewrite length_insert.
Qed.

Lemma keeps_load_flag v i : keeps_sizes (load_flag v i).
Proof.
  intros σ a σ'. unfold load_flag. destruct v; [|done].
  destruct (_ !! _); [|done]. intros [= <- <-]. apply same_sizes_refl.
Qed.

Lemma keeps_store_flag v i a : keeps_sizes (store_flag v i a).
Proof.
  intros σ t σ'. unfold store_flag. destruct v; [|done].
  case_decide; [|done]. intros [= <- <-].
  apply same_sizes_bupd. by rewrite length_insert.
Qed.

Lemma keeps_read_block v n : keeps_sizes (read_block v n).
Proof. intros σ l σ' (-> & _)%read_block_done. apply same_sizes_refl. Qed.

Lemma keeps_write_block v l : keeps_sizes (write_block v l).
Proof.
  intros σ t σ' (p & _ & Hl & ->)%write_block_done.
  apply same_sizes_fupd. rewrite length_app, length_drop. lia.
Qed.

Lemma keeps_iter_from n lo body :
  (∀ i, keeps_sizes (body i)) → keeps_sizes (iter_from n lo body).
Proof.
  intros Hb. revert lo. induction n as [|n IH]; intros lo; simpl.
  - apply keeps_ret.
  - apply keeps_bind; [apply Hb|]. intros _. apply IH.
Qed.

Lemma keeps_for lo hi body :
  (∀ i, keeps_sizes (body i)) → keeps_sizes (for_ lo hi body).
Proof. apply keeps_iter_from. Qed.

Lemma keeps_if {A} (b : bool) (m1 m2 : M A) :
  keeps_sizes m1 → keeps_sizes m2 → keeps_sizes (if b then m1 else m2).
Proof. by destruct b. Qed.

Lemma keeps_decide {A} (P : Prop) `{Decision P} (m1 m2 : M A) :
  keeps_sizes m1 → keeps_sizes m2 → keeps_sizes (if decide P then m1 else m2).
Proof. by case_decide. Qed.

Lemma keeps_call_slot {F} (table : list (option F)) i run absent :
  (∀ f, Some f ∈ table → keeps_sizes (run f)) →
  keeps_sizes absent →
  keeps_sizes (call_slot table i run absent).
Proof.
  intros Hrun Habs. unfold call_slot.
  destruct (table !! i) as [[f|]|] eqn:E; [| done |by intros ?].
  apply Hrun. by eapply list_elem_of_lookup_2.
Qed.

Ltac keeps :=
  repeat first
    [ apply keeps_ret | apply keeps_load | apply keeps_store
    | apply keeps_load_flag | apply keeps_store_flag
    | apply keeps_read_block | apply keeps_write_block
    | apply keeps_bind; [|intros ?] | apply keeps_for; intros ?
    | apply keeps_decide | apply keeps_if
    | progress unfold when_ ].

Lemma keeps_mtx_cpy dst src : keeps_sizes (mtx_cpy dst src).
Proof. unfold mtx_cpy. keeps. Qed.

Lemma keeps_mtx_zeros m : keeps_sizes (mtx_zeros m).
Proof. unfold mtx_zeros. keeps. Qed.

Lemma keeps_mtx_identity m : keeps_sizes (mtx_identity m).
Proof. unfold mtx_identity. keeps. Qed.

Lemma keeps_mtx_mul_scalar m s : keeps_sizes (mtx_mul_scalar m s).
Proof. unfold mtx_mul_scalar. keeps. Qed.

Lemma keeps_mtx_add dst src : keeps_sizes (mtx_add dst src).
Proof. unfold mtx_add. keeps. Qed.

Lemma keeps_mtx_sub dst src : keeps_sizes (mtx_sub dst src).
Proof. unfold mtx_sub. keeps. Qed.

Lemma keeps_mtx_mul a b dst : keeps_sizes (mtx_mul a b dst).
Proof. unfold mtx_mul. keeps. Qed.

Lemma keeps_mtx_mul_src2tr a b dst : keeps_sizes (mtx_mul_src2tr a b dst).
Proof. unfold mtx_mul_src2tr. keeps. Qed.

Lemma keeps_mtx_chol_lower N m : keeps_sizes (mtx_chol_lower N m).
Proof. unfold mtx_chol_lower. keeps. Qed.

Lemma keeps_mtx_inv N src dst : keeps_sizes (mtx_inv N src dst).
Proof. unfold mtx_inv. keeps. Qed.

(** * Observation transform: the write for an output without a function *)

Lemma observe_sigma_fault pUkf pY sigmaIdx yIdx σ :
  val (Y_m (predict pUkf)) = Some pY →
  pFcnObserv (predict pUkf) !! yIdx = Some None →
  length (fmem σ pY) ≤ sLen (par pUkf) * sigmaIdx + yIdx →
  observe_sigma pUkf sigmaIdx yIdx σ
  = Fault (OutOfBounds pY (sLen (par pUkf) * sigmaIdx + yIdx)).
Proof.
  intros HY Hslot Hlen. unfold observe_sigma, call_slot.
  rewrite Hslot, HY. unfold store. rewrite decide_False; [done|lia].
Qed.

Lemma keeps_observe_sigma pUkf sigmaIdx yIdx :
  observers_keep_sizes pUkf → keeps_sizes (observe_sigma pUkf sigmaIdx yIdx).
Proof.
  intros Hf. unfold observe_sigma. apply keeps_call_slot; [|keeps].
  intros f Hin. by apply Hf.
Qed.

Lemma keeps_state_limits pUkf xIdx : keeps_sizes (state_limits pUkf xIdx).
Proof. unfold state_limits. keeps. Qed.

Lemma keeps_ukf_sigmapoint N pUkf : keeps_sizes (ukf_sigmapoint N pUkf).
Proof.
  unfold ukf_sigmapoint. apply keeps_bind; [apply keeps_mtx_chol_lower|].
  intros r. apply keeps_decide; [|keeps].
  apply keeps_bind.
  { apply keeps_for. intros i. apply keeps_bind; [apply keeps_state_limits|].
    intros [[??]?]. keeps. }
  intros _. apply keeps_bind; [apply keeps_mtx_mul_scalar|].
  intros _. apply keeps_for. intros s. apply keeps_for. intros i.
  apply keeps_bind; [apply keeps_state_limits|].
  intros [[??]?]. keeps.
Qed.

Lemma keeps_ukf_mean_pred_state pUkf :
  predictors_keep_sizes pUkf → keeps_sizes (ukf_mean_pred_state pUkf).
Proof.
  intros Hf. unfold ukf_mean_pred_state.
  apply keeps_for. intros i. apply keeps_bind; [keeps|]. intros _.
  apply keeps_for. intros s. apply keeps_bind; [|intros _; keeps].
  apply keeps_call_slot; [|keeps]. intros f Hin. by apply Hf.
Qed.

Lemma mean_pred_output_never_completes pUkf pY yIdx σ :
  val (Y_m (predict pUkf)) = Some pY →
  pFcnObserv (predict pUkf) !! yIdx = Some None →
  yIdx < yLen (par pUkf) →
  yLen (par pUkf) < sLen (par pUkf) →
  observers_keep_sizes pUkf →
  length (fmem σ pY) = yLen (par pUkf) * sLen (par pUkf) →
  returned (ukf_mean_pred_output pUkf σ) = None.
Proof.
  intros HY Hslot Hy Hlt Hobs Hlen.
  destruct (ukf_mean_pred_output pUkf σ) as [t σ'|e] eqn:Hrun; [exfalso|done].
  unfold ukf_mean_pred_output in Hrun.
  apply bind_done in Hrun as (r1 & σ1 & H1 & Hrun).
  apply bind_done in Hrun as (r2 & σ2 & H2 & Hrun).
  apply keeps_mtx_zeros in H1. apply keeps_mtx_cpy in H2.
  destruct t.
  apply (for_done_round _ _ _ (sLen (par pUkf) - 1)) in Hrun
    as (σ3 & σ4 & H3 & Hbody); [|lia].
  eapply keeps_for in H3; [|intros s; apply keeps_bind; [keeps|intros _];
    apply keeps_for; intros j; apply keeps_bind;
    [by apply keeps_observe_sigma|intros _; keeps]].
  apply bind_done in Hbody as (r5 & σ5 & H5 & Hinner).
  eapply keeps_for in H5; [|intros i; keeps].
  apply (for_done_round _ _ _ yIdx) in Hinner as (σ6 & σ7 & H6 & Hat); [|lia].
  eapply keeps_for in H6; [|intros j; apply keeps_bind;
    [by apply keeps_observe_sigma|intros _; keeps]].
  apply bind_done in Hat as (r8 & σ8 & Hobserve & _).
  rewrite (observe_sigma_fault _ pY) in Hobserve; [done..|].
  destruct H1 as [H1 _], H2 as [H2 _], H3 as [H3 _], H5 as [H5 _], H6 as [H6 _].
  rewrite H6, H5, H3, H2, H1, Hlen. nia.
Qed.

Lemma step_never_completes N pUkf pY yIdx σ :
  val (Y_m (predict pUkf)) = Some pY →
  pFcnObserv (predict pUkf) !! yIdx = Some None →
  yIdx < yLen (par pUkf) →
  yLen (par pUkf) < sLen (par pUkf) →
  observers_keep_sizes pUkf →
  predictors_keep_sizes pUkf →
  length (fmem σ pY) = yLen (par pUkf) * sLen (par pUkf) →
  returned (ukf_step N pUkf σ) = None.
Proof.
  intros HY Hslot Hy Hlt Hobs Hpred Hlen.
  destruct (ukf_step N pUkf σ) as [t σ'|e] eqn:Hrun; [exfalso|done].
  unfold ukf_step in Hrun.
  apply bind_done in Hrun as (r1 & σ1 & H1 & Hrun).
  apply bind_done in Hrun as (r2 & σ2 & H2 & Hrun).
  apply bind_done in Hrun as (r3 & σ3 & H3 & _).
  apply keeps_ukf_sigmapoint in H1 as [H1 _].
  apply keeps_ukf_mean_pred_state in H2 as [H2 _]; [|done].
  assert (returned (ukf_mean_pred_output pUkf σ2) = None) as Hnone.
  { eapply mean_pred_output_never_completes; [done..|].
    by rewrite H2, H1. }
  by rewrite H3 in Hnone.
Qed.

(** C10.  When the observation function of an output is not assigned and
    there are fewer outputs than sigma points, the write that assigns 0
    addresses cell [sLen*sigmaIdx + yIdx] of the [yLen×sLen] matrix [Y_m];
    at the last sigma column that cell lies outside the matrix, so the
    write faults there, [ukf_step] cannot complete whatever numerical
    routines it is linked with, and the single-state filter of the bench
    runs into exactly that write. *)
Theorem observe_zero_write_out_of_bounds pUkf pY yIdx :
  val (Y_m (predict pUkf)) = Some pY →
  pFcnObserv (predict pUkf) !! yIdx = Some None →
  yIdx < yLen (par pUkf) →
  yLen (par pUkf) < sLen (par pUkf) →
  (∃ sigmaIdx,
      sigmaIdx < sLen (par pUkf) ∧
      yLen (par pUkf) * sLen (par pUkf) ≤ sLen (par pUkf) * sigmaIdx + yIdx ∧
      ∀ σ, length (fmem σ pY) = yLen (par pUkf) * sLen (par pUkf) →
           observe_sigma pUkf sigmaIdx yIdx σ
           = Fault (OutOfBounds pY (sLen (par pUkf) * sigmaIdx + yIdx))) ∧
  (∀ N σ, observers_keep_sizes pUkf → predictors_keep_sizes pUkf →
          length (fmem σ pY) = yLen (par pUkf) * sLen (par pUkf) →
          returned (ukf_step N pUkf σ) = None) ∧
  fault_of (Bench.after_init Bench.plain (ukf_step Bench.scalar_numerics)
              Bench.plain_mem)
  = Some (OutOfBounds Bench.aY 3).
Proof.
  intros HY Hslot Hy Hlt. split; [|split].
  - exists (sLen (par pUkf) - 1). split; [lia|]. split; [nia|].
    intros σ Hlen. apply observe_sigma_fault; [done..|]. rewrite Hlen. nia.
  - intros N σ Hobs Hpred Hlen. by eapply step_never_completes.
  - vm_compute. reflexivity.
Qed.

Lemma observe_zero_write_out_of_bounds_witness :
  let pUkf := ukf_fields Bench.half_observed (Bench.q 1) (Bench.q 2) (Bench.q 0) in
  (∃ sigmaIdx,
      sigmaIdx < 3 ∧ 2 * 3 ≤ 3 * sigmaIdx + 1 ∧
      ∀ σ, length (fmem σ Bench.aY) = 2 * 3 →
           observe_sigma pUkf sigmaIdx 1 σ
           = Fault (OutOfBounds Bench.aY (3 * sigmaIdx + 1))) ∧
  (∀ N σ, length (fmem σ Bench.aY) = 2 * 3 →
          returned (ukf_step N pUkf σ) = None) ∧
  fault_of (Bench.after_init Bench.plain (ukf_step Bench.scalar_numerics)
              Bench.plain_mem)
  = Some (OutOfBounds Bench.aY 3).
Proof.
  intros pUkf.
  destruct (observe_zero_write_out_of_bounds pUkf Bench.aY 1)
    as (Hwrite & Hstep & Hrun);
    [reflexivity | reflexivity | vm_compute; lia | vm_compute; lia |].
  split; [exact Hwrite|]. split; [|exact Hrun].
  intros N σ Hlen. apply Hstep; [| |exact Hlen].
  - intros f Hin a b c s.
    apply list_elem_of_In in Hin. simpl in Hin.
    destruct Hin as [[= <-]|[[=]|[]]]. unfold Bench.observe_state. keeps.
  - intros f Hin a b c s t.
    apply list_elem_of_In in Hin. simpl in Hin.
    destruct Hin as [[= <-]|[]]. unfold Bench.follow_input. keeps.
Defined.

(** * Runs of the bench *)

(** C6.  Next to a well-shaped [Wc], a weight vector [Wm] of any declared
    shape passes the dimension check, and so does an output covariance
    [Pyy] of any declared shape next to a well-shaped scratch copy.  With
    [Wm] declared [1×2] where [sLen = 3], or [Pyy] declared [2×2] where
    [yLen = 1], [ukf_init] returns 0 (OK), as it does for the well-shaped
    configuration. *)
Theorem ukf_init_accepts_lone_misshaped_matrix :
  (∀ r c al be ka,
     ukf_dimension_check
       (ukf_fields (Bench.with_Wm (Bench.at_ Bench.aWm r c) Bench.plain) al be ka)
     = 0) ∧
  (∀ r c al be ka,
     ukf_dimension_check
       (ukf_fields (Bench.with_Pyy (Bench.at_ Bench.aPyy r c) Bench.plain) al be ka)
     = 0) ∧
  fst <$> returned (ukf_init Bench.short_Wm Bench.plain_mem) = Some 0 ∧
  fst <$> returned (ukf_init Bench.wide_Pyy Bench.plain_mem) = Some 0 ∧
  fst <$> returned (ukf_init Bench.plain Bench.plain_mem) = Some 0.
Proof.
  split; [|split].
  - intros r c al be ka.
    destruct r as [|[|r]], c as [|[|[|[|c]]]]; by vm_compute.
  - intros r c al be ka.
    destruct r as [|[|r]], c as [|[|c]]; by vm_compute.
  - by vm_compute.
Qed.

(** C5.  For an output without observation function the transform writes
    the zero to cell [sLen*sigmaIdx + yIdx], whereas entry
    [Y_m[yIdx][sigmaIdx]], the one the mean reads, is cell
    [sLen*yIdx + sigmaIdx].  With no observation function assigned to any of
    four outputs and three sigma points, the stale entries [Y_m[3][1] = 11]
    and [Y_m[3][2] = 12] stay in place, and the predicted mean of output 3
    accumulates the stale values instead of zeros
    ([1/2·10 + 1/4·11 + 1/4·12 = 43/4]). *)
Theorem mean_pred_output_keeps_stale_entries :
  (∀ pUkf sigmaIdx yIdx,
     pFcnObserv (predict pUkf) !! yIdx = Some None →
     observe_sigma pUkf sigmaIdx yIdx
     = store (val (Y_m (predict pUkf))) (sLen (par pUkf) * sigmaIdx + yIdx) 0%Qc) ∧
  let run := Bench.after_init Bench.unobserved ukf_mean_pred_output
               Bench.unobserved_mem in
  peek Bench.aY (3 * 3 + 1) run = Some (Bench.q 11) ∧
  peek Bench.aY (3 * 3 + 2) run = Some (Bench.q 12) ∧
  peek Bench.aym 3 run = Some (Q2Qc (43 # 4)).
Proof.
  split.
  - intros pUkf sigmaIdx yIdx Hslot. unfold observe_sigma, call_slot.
    by rewrite Hslot.
  - intros run. apply (bool_decide_unpack _). by vm_compute.
Qed.

(** C9.  [ukf_init] makes the previous-input descriptor [u_p] a copy of the
    descriptor of the current input, so both name one buffer: in the second
    of two cycles, run with input 10 and then input 20, the prediction
    function is handed 20 as "previous" input for every sigma column, not
    the 10 of the preceding cycle. *)
Theorem prediction_sees_current_input :
  (∀ c a b k, u_p (prev (ukf_fields c a b k)) = u (input (ukf_fields c a b k))) ∧
  peek Bench.aX 0 (Bench.two_cycles Bench.follower_mem) = Some (Bench.q 20) ∧
  peek Bench.aX 1 (Bench.two_cycles Bench.follower_mem) = Some (Bench.q 20) ∧
  peek Bench.aX 2 (Bench.two_cycles Bench.follower_mem) = Some (Bench.q 20).
Proof.
  split; [done|]. apply (bool_decide_unpack _). by vm_compute.
Qed.

(** * Initialization *)

Lemma wp_load_any p i (Q : float → memory → Prop) σ :
  i < length (fmem σ p) → (∀ v, Q v σ) → wp (load (Some p) i) Q σ.
Proof.
  intros Hi HQ. destruct (lookup_lt_is_Some_2 _ _ Hi) as [v Hv].
  by eapply wp_load.
Qed.

Lemma wp_load_flag_any p i (Q : nat → memory → Prop) σ :
  i < length (bmem σ p) → (∀ v, Q v σ) → wp (load_flag (Some p) i) Q σ.
Proof.
  intros Hi HQ. destruct (lookup_lt_is_Some_2 _ _ Hi) as [v Hv].
  by eapply wp_load_flag.
Qed.

Lemma wp_init_limiters xLim xLimEnbl σ :
  limiters_ready σ xLim xLimEnbl →
  wp (init_limiters xLim xLimEnbl)
     (λ _ σ', fmem σ' = fmem σ ∧ same_sizes σ σ') σ.
Proof.
  unfold limiters_ready, init_limiters.
  destruct (bval xLimEnbl) as [pE|], (val xLim) as [pL|]; simpl;
    try (intros _; apply wp_ret; split; [done|apply same_sizes_refl]).
  intros [HL HE].
  apply (wp_for (λ _ σ', fmem σ' = fmem σ ∧ same_sizes σ σ')).
  - lia.
  - split; [done|apply same_sizes_refl].
  - intros i σ' Hi [Hf Hs].
    specialize (HL i ltac:(lia)). unfold xEpsIdx, xMaxIdx, xMinIdx in *.
    apply wp_bind, wp_load_any; [rewrite Hf; lia|intros xMin].
    apply wp_bind, wp_load_any; [rewrite Hf; lia|intros xMax].
    apply wp_bind, wp_load_any; [rewrite Hf; lia|intros xEps].
    apply wp_bind, wp_load_flag_any; [rewrite (proj2 Hs); lia|intros enbl].
    unfold when_. destruct (_ && _).
    + apply wp_store_flag; [rewrite (proj2 Hs); lia|].
      split; [done|]. eapply same_sizes_trans; [done|].
      apply same_sizes_bupd. by rewrite length_insert.
    + by apply wp_ret.
  - done.
Qed.

Lemma wp_mtx_cpy_frame dst src σ :
  copy_ready σ dst src →
  wp (mtx_cpy dst src)
     (λ _ σ', same_sizes σ σ' ∧ ∀ q, val dst ≠ Some q → fmem σ' q = fmem σ q) σ.
Proof.
  intros Hready. unfold mtx_cpy. case_decide as Hshape.
  - destruct (Hready Hshape) as (pd & ps & -> & -> & Hs & Hd).
    apply wp_bind, wp_read_block; [done|].
    apply wp_bind, wp_write_block; [rewrite length_take; lia|].
    apply wp_ret. split.
    + apply same_sizes_fupd. rewrite length_app, length_drop, length_take. lia.
    + intros q Hq. apply fmem_fupd_ne. congruence.
  - apply wp_ret. split; [apply same_sizes_refl|done].
Qed.

Lemma u8_odd_pos n : 1 ≤ u8 (2 * n + 1).
Proof.
  unfold u8. pose proof (Nat.div_mod_eq (2 * n + 1) 256). lia.
Qed.

(** The weight block: what it writes and what it leaves alone. *)
Lemma wp_init_weights wm wc pWm pWc WmLen xLen al be lam σ :
  val wm = Some pWm → val wc = Some pWc → pWm ≠ pWc →
  1 ≤ WmLen →
  WmLen ≤ length (fmem σ pWm) → WmLen ≤ length (fmem σ pWc) →
  wp (init_weights wm wc WmLen WmLen xLen WmLen al be lam)
     (λ _ σ',
        same_sizes σ σ' ∧
        (∀ q, q ≠ pWm → q ≠ pWc → fmem σ' q = fmem σ q) ∧
        fmem σ' pWm !! 0 = Some (lam / (of_nat xLen + lam))%Qc ∧
        fmem σ' pWc !! 0
        = Some (lam / (of_nat xLen + lam) + (1 - al * al + be))%Qc ∧
        ∀ i, 1 ≤ i < WmLen →
             fmem σ' pWm !! i = Some (1 / (2 * (of_nat xLen + lam)))%Qc ∧
             fmem σ' pWc !! i = Some (1 / (2 * (of_nat xLen + lam)))%Qc) σ.
Proof.
  intros HM HC Hne Hpos HlenM HlenC. unfold init_weights. rewrite HM, HC.
  rewrite Nat.eqb_refl. simpl.
  apply wp_bind, wp_store; [lia|].
  apply wp_bind, wp_store; [rewrite fmem_fupd_ne by done; lia|].
  set (σ1 := fupd pWc _ _).
  set (w := (1 / (2 * (of_nat xLen + lam)))%Qc).
  assert (same_sizes σ σ1) as Hs1.
  { eapply same_sizes_trans; apply same_sizes_fupd; rewrite length_insert; [done|].
    by rewrite fmem_fupd_ne. }
  apply (wp_for (λ k σ',
    same_sizes σ σ' ∧
    (∀ q, q ≠ pWm → q ≠ pWc → fmem σ' q = fmem σ q) ∧
    fmem σ' pWm !! 0 = Some (lam / (of_nat xLen + lam))%Qc ∧
    fmem σ' pWc !! 0 = Some (lam / (of_nat xLen + lam) + (1 - al * al + be))%Qc ∧
    ∀ i, 1 ≤ i < k → fmem σ' pWm !! i = Some w ∧ fmem σ' pWc !! i = Some w)).
  - done.
  - split; [done|]. split; [|split; [|split]].
    + intros q H1 H2. subst σ1. by rewrite !fmem_fupd_ne.
    + subst σ1. rewrite fmem_fupd_ne, fmem_fupd_eq by done.
      apply list_lookup_insert_eq. lia.
    + subst σ1. rewrite fmem_fupd_eq.
      apply list_lookup_insert_eq. rewrite fmem_fupd_ne by done. lia.
    + intros i ?. lia.
  - intros k σ' Hk (Hs & Hframe & HM0 & HC0 & Hrest).
    destruct Hs as [Hsf Hsb].
    apply wp_bind, wp_store; [rewrite Hsf; lia|].
    apply wp_bind. eapply wp_load.
    { rewrite fmem_fupd_eq. apply list_lookup_insert_eq. rewrite Hsf. lia. }
    apply wp_store; [rewrite fmem_fupd_ne, Hsf by done; lia|].
    split; [|split; [|split; [|split]]].
    + split; [|done]. intros q. simpl. repeat case_decide; subst;
        rewrite ?length_insert; try done; simpl; rewrite ?decide_False by done;
        by rewrite ?Hsf.
    + intros q H1 H2. rewrite !fmem_fupd_ne by done. by apply Hframe.
    + rewrite fmem_fupd_ne, fmem_fupd_eq by done.
      rewrite list_lookup_insert_ne by lia. done.
    + rewrite fmem_fupd_eq, fmem_fupd_ne by done.
      rewrite list_lookup_insert_ne by lia. done.
    + intros i Hi. rewrite fmem_fupd_ne, !fmem_fupd_eq by done.
      rewrite (fmem_fupd_ne pWm pWc) by done.
      destruct (decide (i = k)) as [->|Hik].
      * rewrite !list_lookup_insert_eq; [done|rewrite Hsf; lia..].
      * rewrite !list_lookup_insert_ne by done. apply Hrest. lia.
  - intros σ' H. exact H.
Qed.

Lemma copy_ready_sizes σ σ' dst src :
  same_sizes σ σ' → copy_ready σ dst src → copy_ready σ' dst src.
Proof.
  intros [Hf _] Hr Hshape. destruct (Hr Hshape) as (pd & ps & ? & ? & ? & ?).
  exists pd, ps. by rewrite !Hf.
Qed.

(** [ukf_init] runs to completion on a prepared configuration; it returns
    the wired structure and leaves the weights of [wp_init_weights]. *)
Lemma ukf_init_total c σ pS pWm pWc al be ka :
  let pUkf := ukf_fields c al be ka in
  let lam := lambda (par pUkf) in
  val (Sc_vector c) = Some pS →
  fmem σ pS !! alphaIdx = Some al →
  fmem σ pS !! bethaIdx = Some be →
  fmem σ pS !! kappaIdx = Some ka →
  val (Wm_weight_vector c) = Some pWm →
  val (Wc_weight_vector c) = Some pWc →
  pWm ≠ pWc →
  val (Pxx_error_covariance c) ≠ Some pWm →
  val (Pxx_error_covariance c) ≠ Some pWc →
  val (x_system_states c) ≠ Some pWm →
  val (x_system_states c) ≠ Some pWc →
  u8 (ncol (Wm_weight_vector c)) = sLen (par pUkf) →
  u8 (ncol (Wc_weight_vector c)) = sLen (par pUkf) →
  sLen (par pUkf) ≤ length (fmem σ pWm) →
  sLen (par pUkf) ≤ length (fmem σ pWc) →
  limiters_ready σ (x_system_states_limits c) (x_system_states_limits_enable c) →
  copy_ready σ (Pxx_error_covariance c) (Pxx0_init_error_covariance c) →
  copy_ready σ (x_system_states c) (x_system_states_ic c) →
  wp (ukf_init c)
     (λ r σ',
        r = (ukf_dimension_check pUkf, pUkf) ∧
        same_sizes σ σ' ∧
        fmem σ' pWm !! 0 = Some (lam / (of_nat (xLen (par pUkf)) + lam))%Qc ∧
        fmem σ' pWc !! 0
        = Some (lam / (of_nat (xLen (par pUkf)) + lam) + (1 - al * al + be))%Qc ∧
        ∀ i, 1 ≤ i < sLen (par pUkf) →
             fmem σ' pWm !! i
             = Some (1 / (2 * (of_nat (xLen (par pUkf)) + lam)))%Qc ∧
             fmem σ' pWc !! i
             = Some (1 / (2 * (of_nat (xLen (par pUkf)) + lam)))%Qc) σ.
Proof.
  intros pUkf lam HS Hal Hbe Hka HM HC Hne HP1 HP2 Hx1 Hx2 HlM HlC HbM HbC
    Hlim Hcp1 Hcp2.
  unfold ukf_init. rewrite HS.
  apply wp_bind. eapply wp_load; [done|].
  apply wp_bind. eapply wp_load; [done|].
  apply wp_bind. eapply wp_load; [done|].
  fold pUkf. rewrite HlM, HlC.
  apply wp_bind. eapply wp_mono; [|by apply wp_init_limiters].
  intros _ σ1 [Hf1 Hs1]. simpl.
  apply wp_bind. eapply wp_mono;
    [|apply (wp_init_weights _ _ pWm pWc); try done;
      [apply u8_odd_pos|rewrite Hf1; done..]].
  intros _ σ2 (Hs2 & Hframe2 & HM0 & HC0 & Hrest). simpl.
  assert (same_sizes σ σ2) as Hs02 by by eapply same_sizes_trans.
  apply wp_bind. eapply wp_mono;
    [|apply wp_mtx_cpy_frame; by eapply copy_ready_sizes].
  intros _ σ3 [Hs3 Hframe3]. simpl.
  assert (same_sizes σ σ3) as Hs03 by by eapply same_sizes_trans.
  apply wp_bind. eapply wp_mono;
    [|apply wp_mtx_cpy_frame; by eapply copy_ready_sizes].
  intros _ σ4 [Hs4 Hframe4]. simpl.
  apply wp_ret. split; [done|]. split; [by eapply same_sizes_trans|].
  simpl in Hframe3, Hframe4.
  rewrite (Hframe4 pWm), (Hframe4 pWc), (Hframe3 pWm), (Hframe3 pWc) by done.
  split; [done|]. split; [done|].
  intros i Hi. by apply Hrest.
Qed.

(** C3.  Given weight vectors whose lengths both equal [sLen], and a
    configuration on which initialization can run (scaling vector, weight
    buffers of at least [sLen] cells kept apart from each other and from the
    state and covariance buffers, limiter arrays and initial values in
    place), [ukf_init] completes and leaves
    [Wm[0] = lambda/(xLen+lambda)], [Wc[0] = Wm[0] + (1 - alpha² + beta)] and
    [Wm[i] = Wc[i] = 1/(2(xLen+lambda))] for [1 ≤ i < sLen], with
    [lambda = alpha²(xLen+kappa) - xLen]. *)
Theorem ukf_init_weights c σ pS pWm pWc al be ka :
  let nx := u8 (nrow (x_system_states c)) in
  let ns := u8 (2 * nx + 1) in
  let lam := (al * al * (of_nat nx + ka) - of_nat nx)%Qc in
  val (Sc_vector c) = Some pS →
  fmem σ pS !! alphaIdx = Some al →
  fmem σ pS !! bethaIdx = Some be →
  fmem σ pS !! kappaIdx = Some ka →
  val (Wm_weight_vector c) = Some pWm →
  val (Wc_weight_vector c) = Some pWc →
  pWm ≠ pWc →
  val (Pxx_error_covariance c) ≠ Some pWm →
  val (Pxx_error_covariance c) ≠ Some pWc →
  val (x_system_states c) ≠ Some pWm →
  val (x_system_states c) ≠ Some pWc →
  u8 (ncol (Wm_weight_vector c)) = ns →
  u8 (ncol (Wc_weight_vector c)) = ns →
  ns ≤ length (fmem σ pWm) →
  ns ≤ length (fmem σ pWc) →
  limiters_ready σ (x_system_states_limits c) (x_system_states_limits_enable c) →
  copy_ready σ (Pxx_error_covariance c) (Pxx0_init_error_covariance c) →
  copy_ready σ (x_system_states c) (x_system_states_ic c) →
  ∃ st pUkf σ',
    ukf_init c σ = Done (st, pUkf) σ' ∧
    xLen (par pUkf) = nx ∧ sLen (par pUkf) = ns ∧ lambda (par pUkf) = lam ∧
    fmem σ' pWm !! 0 = Some (lam / (of_nat nx + lam))%Qc ∧
    fmem σ' pWc !! 0 = Some (lam / (of_nat nx + lam) + (1 - al * al + be))%Qc ∧
    ∀ i, 1 ≤ i < ns →
         fmem σ' pWm !! i = Some (1 / (2 * (of_nat nx + lam)))%Qc ∧
         fmem σ' pWc !! i = Some (1 / (2 * (of_nat nx + lam)))%Qc.
Proof.
  intros nx ns lam HS Hal Hbe Hka HM HC Hne HP1 HP2 Hx1 Hx2 HlM HlC HbM HbC
    Hlim Hcp1 Hcp2.
  pose proof (ukf_init_total c σ pS pWm pWc al be ka HS Hal Hbe Hka HM HC Hne
                HP1 HP2 Hx1 Hx2 HlM HlC HbM HbC Hlim Hcp1 Hcp2) as Hwp.
  apply wp_done in Hwp as ([st pUkf] & σ' & Hrun & [= -> ->] & _ & H0 & H1 & Hi).
  eexists _, _, σ'. split; [done|]. repeat split; try done; by apply Hi.
Qed.

Lemma ukf_init_weights_witness :
  let c := Bench.plain in
  let σ := Bench.plain_mem in
  let al := Bench.q 1 in
  let be := Bench.q 2 in
  let ka := Bench.q 0 in
  let lam := (al * al * (of_nat 1 + ka) - of_nat 1)%Qc in
  ∃ st pUkf σ',
    ukf_init c σ = Done (st, pUkf) σ' ∧
    xLen (par pUkf) = 1 ∧ sLen (par pUkf) = 3 ∧ lambda (par pUkf) = lam ∧
    fmem σ' Bench.aWm !! 0 = Some (lam / (of_nat 1 + lam))%Qc ∧
    fmem σ' Bench.aWc !! 0
    = Some (lam / (of_nat 1 + lam) + (1 - al * al + be))%Qc ∧
    ∀ i, 1 ≤ i < 3 →
         fmem σ' Bench.aWm !! i = Some (1 / (2 * (of_nat 1 + lam)))%Qc ∧
         fmem σ' Bench.aWc !! i = Some (1 / (2 * (of_nat 1 + lam)))%Qc.
Proof.
  intros c σ al be ka lam.
  apply (ukf_init_weights c σ Bench.aSc Bench.aWm Bench.aWc al be ka);
    try reflexivity; try discriminate; try (vm_compute; lia).
  - intros _. exists Bench.aPxx, Bench.aPxx0.
    repeat split; vm_compute; lia.
  - intros _. exists Bench.ax, Bench.ax0.
    repeat split; vm_compute; lia.
Defined.

(** * The mean weights sum to one *)

Lemma of_nat_add n m : of_nat (n + m) = (of_nat n + of_nat m)%Qc.
Proof. unfold of_nat. by rewrite Nat2Z.inj_add, Z2Qc_inj_add. Qed.

Lemma of_nat_double n : of_nat (2 * n) = (2 * of_nat n)%Qc.
Proof.
  unfold of_nat. by rewrite Nat2Z.inj_mul, Z2Qc_inj_mul, <-Z2Qc_inj_2.
Qed.

Lemma fsum_replicate n w : fsum (replicate n w) = (of_nat n * w)%Qc.
Proof.
  induction n as [|n IH]; simpl.
  - change (of_nat 0) with (Qc_of_Z 0). rewrite Z2Qc_inj_0. ring.
  - rewrite IH. replace (S n) with (n + 1) by lia.
    rewrite of_nat_add. change (of_nat 1) with (Qc_of_Z 1).
    rewrite Z2Qc_inj_1. ring.
Qed.

Lemma take_head_and_rest (l : list float) n a w :
  1 ≤ n → n ≤ length l →
  l !! 0 = Some a →
  (∀ i, 1 ≤ i < n → l !! i = Some w) →
  take n l = a :: replicate (n - 1) w.
Proof.
  intros Hn Hl H0 Hrest. apply list_eq. intros i.
  destruct (decide (i < n)) as [Hi|Hi].
  - rewrite lookup_take_lt by done. destruct i as [|i]; [done|].
    simpl. rewrite lookup_replicate_2 by lia. apply Hrest. lia.
  - rewrite lookup_take_ge by lia. symmetry. destruct i as [|i]; [lia|].
    simpl. apply lookup_replicate_None. lia.
Qed.

Lemma weights_total nx lam :
  (of_nat nx + lam ≠ 0)%Qc →
  (lam / (of_nat nx + lam)
   + of_nat (2 * nx) * (1 / (2 * (of_nat nx + lam))))%Qc = 1%Qc.
Proof. intros Hne. rewrite of_nat_double. field. done. Qed.

Lemma spread_nonzero al ka nx :
  (0 < al)%Qc → (of_nat nx + ka ≠ 0)%Qc →
  (of_nat nx + init_lambda al ka nx ≠ 0)%Qc.
Proof.
  intros Hal Hka. unfold init_lambda.
  replace (of_nat nx + (al * al * (of_nat nx + ka) - of_nat nx))%Qc
    with (al * al * (of_nat nx + ka))%Qc by ring.
  assert (al ≠ 0)%Qc as Hal0.
  { intros ->. by apply Qclt_not_eq in Hal. }
  intros [[?|?]%Qcmult_integral|?]%Qcmult_integral; done.
Qed.

(** C4, as the code has it.  For [1 ≤ xLen ≤ 127], [alpha] in (0,1] and
    [kappa ≠ -xLen], on a configuration on which initialization can run with
    weight vectors of [sLen] entries, [ukf_init] completes with
    [sLen = 2·xLen + 1] and the [sLen] mean weights sum to exactly 1. *)
Theorem ukf_init_weights_sum c σ pS pWm pWc al be ka nx :
  nrow (x_system_states c) = nx →
  1 ≤ nx ≤ 127 →
  (0 < al)%Qc → (al ≤ 1)%Qc →
  (of_nat nx + ka ≠ 0)%Qc →
  val (Sc_vector c) = Some pS →
  fmem σ pS !! alphaIdx = Some al →
  fmem σ pS !! bethaIdx = Some be →
  fmem σ pS !! kappaIdx = Some ka →
  val (Wm_weight_vector c) = Some pWm →
  val (Wc_weight_vector c) = Some pWc →
  pWm ≠ pWc →
  val (Pxx_error_covariance c) ≠ Some pWm →
  val (Pxx_error_covariance c) ≠ Some pWc →
  val (x_system_states c) ≠ Some pWm →
  val (x_system_states c) ≠ Some pWc →
  ncol (Wm_weight_vector c) = 2 * nx + 1 →
  ncol (Wc_weight_vector c) = 2 * nx + 1 →
  2 * nx + 1 ≤ length (fmem σ pWm) →
  2 * nx + 1 ≤ length (fmem σ pWc) →
  limiters_ready σ (x_system_states_limits c) (x_system_states_limits_enable c) →
  copy_ready σ (Pxx_error_covariance c) (Pxx0_init_error_covariance c) →
  copy_ready σ (x_system_states c) (x_system_states_ic c) →
  sigma_count (ukf_init c σ) = Some (2 * nx + 1) ∧
  weight_sum (ukf_init c σ) = Some 1%Qc.
Proof.
  intros Hnx Hrange Hal _ Hka HS Hal' Hbe' Hka' HM HC Hne HP1 HP2 Hx1 Hx2
    HlM HlC HbM HbC Hlim Hcp1 Hcp2.
  assert (u8 nx = nx) as Hu1 by (unfold u8; apply Nat.mod_small; lia).
  assert (u8 (2 * nx + 1) = 2 * nx + 1) as Hu2
    by (unfold u8; apply Nat.mod_small; lia).
  assert (sLen (par (ukf_fields c al be ka)) = 2 * nx + 1) as Hs.
  { change (sLen (par (ukf_fields c al be ka)))
      with (u8 (2 * u8 (nrow (x_system_states c)) + 1)).
    by rewrite Hnx, Hu1, Hu2. }
  assert (xLen (par (ukf_fields c al be ka)) = nx) as Hx.
  { change (xLen (par (ukf_fields c al be ka)))
      with (u8 (nrow (x_system_states c))).
    by rewrite Hnx, Hu1. }
  pose proof (ukf_init_total c σ pS pWm pWc al be ka HS Hal' Hbe' Hka' HM HC Hne
                HP1 HP2 Hx1 Hx2) as Hwp.
  rewrite Hs, HlM, HlC, Hu2 in Hwp.
  specialize (Hwp eq_refl eq_refl HbM HbC Hlim Hcp1 Hcp2).
  apply wp_done in Hwp as (r & σ' & Hrun & -> & [Hsz _] & H0 & _ & Hi).
  rewrite Hrun. unfold sigma_count, weight_sum. simpl snd.
  rewrite Hs. split; [done|].
  change (val (Wm (par (ukf_fields c al be ka)))) with (val (Wm_weight_vector c)).
  rewrite HM. simpl. f_equal.
  erewrite take_head_and_rest; [|lia|rewrite Hsz; lia|exact H0|intros i ?; by apply Hi].
  simpl. rewrite fsum_replicate, Hnx, Hu1.
  replace (nx + (nx + 0) + 1 - 1) with (2 * nx) by lia.
  apply weights_total. by apply spread_nonzero.
Qed.

Lemma ukf_init_weights_sum_witness :
  sigma_count (ukf_init Bench.plain Bench.plain_mem) = Some (2 * 1 + 1) ∧
  weight_sum (ukf_init Bench.plain Bench.plain_mem) = Some 1%Qc.
Proof.
  apply (ukf_init_weights_sum Bench.plain Bench.plain_mem
           Bench.aSc Bench.aWm Bench.aWc (Bench.q 1) (Bench.q 2) (Bench.q 0) 1);
    try reflexivity; try discriminate; try (vm_compute; lia).
  - intros _. exists Bench.aPxx, Bench.aPxx0.
    repeat split; vm_compute; lia.
  - intros _. exists Bench.ax, Bench.ax0.
    repeat split; vm_compute; lia.
Defined.

(** C4 as stated fails twice.  With 128 states [2·xLen + 1 = 257] does not
    fit the [uint8_t] field: [sLen] is 1 and the single mean weight is 0.
    With one state and [kappa = -1] the spread [xLen + lambda] is 0:
    [sLen] is 3 and the three mean weights sum to 0. *)
Lemma ukf_init_weights_sum_fails :
  (sigma_count (ukf_init Bench.many_states Bench.many_states_mem) = Some 1 ∧
   weight_sum (ukf_init Bench.many_states Bench.many_states_mem) = Some 0%Qc) ∧
  (sigma_count (ukf_init Bench.plain Bench.degenerate_mem) = Some 3 ∧
   weight_sum (ukf_init Bench.plain Bench.degenerate_mem) = Some 0%Qc) ∧
  Some 0%Qc ≠ Some 1%Qc ∧ 1 ≠ 2 * 128 + 1.
Proof.
  split; [|split; [|split]].
  - split; [by vm_compute|]. apply (bool_decide_unpack _). by vm_compute.
  - split; [by vm_compute|]. apply (bool_decide_unpack _). by vm_compute.
  - discriminate.
  - lia.
Qed.

(** * Measurement update *)

Lemma length_mat_build r c f : length (mat_build r c f) = r * c.
Proof.
  unfold mat_build. transitivity (length (seq 0 r) * c); [|by rewrite length_seq].
  induction (seq 0 r) as [|i l IH]; csimpl; [done|].
  by rewrite length_app, IH, length_fmap, length_seq.
Qed.

Lemma length_mat_mul r k c a b : length (mat_mul r k c a b) = r * c.
Proof. apply length_mat_build. Qed.

Lemma length_mat_mul_tr r k c a b : length (mat_mul_tr r k c a b) = r * c.
Proof. apply length_mat_build. Qed.

Lemma length_mat_identity n : length (mat_identity n) = n * n.
Proof. apply length_mat_build. Qed.

Lemma length_vec_add a b :
  length a = length b → length (vec_add a b) = length a.
Proof. intros H. unfold vec_add. rewrite length_zip_with. lia. Qed.

Lemma length_vec_sub a b :
  length a = length b → length (vec_sub a b) = length a.
Proof. intros H. unfold vec_sub. rewrite length_zip_with. lia. Qed.

Lemma length_vec_scale s a : length (vec_scale s a) = length a.
Proof. apply length_fmap. Qed.

Lemma wp_read_exact p n (Q : list float → memory → Prop) σ :
  length (fmem σ p) = n → Q (fmem σ p) σ → wp (read_block (Some p) n) Q σ.
Proof.
  intros Hn HQ. apply wp_read_block; [lia|]. by rewrite take_ge by lia.
Qed.

Lemma wp_write_exact p l (Q : unit → memory → Prop) σ :
  length l = length (fmem σ p) →
  (∀ σ', same_sizes σ σ' → fmem σ' p = l →
         (∀ q, q ≠ p → fmem σ' q = fmem σ q) → bmem σ' = bmem σ → Q tt σ') →
  wp (write_block (Some p) l) Q σ.
Proof.
  intros Hl HQ. apply wp_write_block; [lia|].
  rewrite Hl, drop_all, app_nil_r. apply HQ.
  - by apply same_sizes_fupd.
  - apply fmem_fupd_eq.
  - intros q Hq. by apply fmem_fupd_ne.
  - done.
Qed.

Lemma laid_out_length σ0 σ m p r c :
  same_sizes σ0 σ → laid_out σ0 m p r c → length (fmem σ p) = r * c.
Proof. intros [Hf _] (_ & _ & _ & Hl). by rewrite Hf. Qed.

(** The operations on matrices laid out in an initial memory [σ0], run in a
    later memory [σ] of the same sizes. *)
Section Operations.
Variables (σ0 σ : memory).
Hypothesis Hsizes : same_sizes σ0 σ.

Lemma wp_mtx_identity m p n (Q : mtxResultInfo → memory → Prop) :
  laid_out σ0 m p n n →
  after_write σ0 σ p (mat_identity n) Q →
  wp (mtx_identity m) Q σ.
Proof.
  intros Hm HQ. pose proof (laid_out_length _ _ _ _ _ _ Hsizes Hm) as Hl.
  destruct Hm as (Hv & Hr & Hc & _).
  unfold mtx_identity. rewrite decide_True by congruence. rewrite Hv, Hr.
  apply wp_bind, wp_write_exact; [by rewrite length_mat_identity|].
  intros σ' Hs Hval Hframe Hbm. apply wp_ret, HQ; [|done..].
  by eapply same_sizes_trans.
Qed.

Lemma wp_mtx_cpy dst src pd ps r c (Q : mtxResultInfo → memory → Prop) :
  laid_out σ0 dst pd r c → laid_out σ0 src ps r c →
  after_write σ0 σ pd (fmem σ ps) Q →
  wp (mtx_cpy dst src) Q σ.
Proof.
  intros Hd Hs HQ.
  pose proof (laid_out_length _ _ _ _ _ _ Hsizes Hd) as Hld.
  pose proof (laid_out_length _ _ _ _ _ _ Hsizes Hs) as Hls.
  destruct Hd as (Hvd & Hrd & Hcd & _), Hs as (Hvs & Hrs & Hcs & _).
  unfold mtx_cpy, nelem. rewrite decide_True by (split; congruence).
  rewrite Hvd, Hvs, Hrs, Hcs.
  apply wp_bind, wp_read_exact; [done|].
  apply wp_bind, wp_write_exact; [congruence|].
  intros σ' Hs' Hval Hframe Hbm. apply wp_ret, HQ; [|done..].
  by eapply same_sizes_trans.
Qed.

Lemma wp_mtx_add dst src pd ps r c (Q : mtxResultInfo → memory → Prop) :
  laid_out σ0 dst pd r c → laid_out σ0 src ps r c →
  after_write σ0 σ pd (vec_add (fmem σ pd) (fmem σ ps)) Q →
  wp (mtx_add dst src) Q σ.
Proof.
  intros Hd Hs HQ.
  pose proof (laid_out_length _ _ _ _ _ _ Hsizes Hd) as Hld.
  pose proof (laid_out_length _ _ _ _ _ _ Hsizes Hs) as Hls.
  destruct Hd as (Hvd & Hrd & Hcd & _), Hs as (Hvs & Hrs & Hcs & _).
  unfold mtx_add, nelem. rewrite decide_True by (split; congruence).
  rewrite Hvd, Hvs, Hrs, Hcs, Hrd, Hcd.
  apply wp_bind, wp_read_exact; [done|].
  apply wp_bind, wp_read_exact; [done|].
  apply wp_bind, wp_write_exact; [apply length_vec_add; congruence|].
  intros σ' Hs' Hval Hframe Hbm. apply wp_ret, HQ; [|done..].
  by eapply same_sizes_trans.
Qed.

Lemma wp_mtx_sub dst src pd ps r c (Q : mtxResultInfo → memory → Prop) :
  laid_out σ0 dst pd r c → laid_out σ0 src ps r c →
  after_write σ0 σ pd (vec_sub (fmem σ pd) (fmem σ ps)) Q →
  wp (mtx_sub dst src) Q σ.
Proof.
  intros Hd Hs HQ.
  pose proof (laid_out_length _ _ _ _ _ _ Hsizes Hd) as Hld.
  pose proof (laid_out_length _ _ _ _ _ _ Hsizes Hs) as Hls.
  destruct Hd as (Hvd & Hrd & Hcd & _), Hs as (Hvs & Hrs & Hcs & _).
  unfold mtx_sub, nelem. rewrite decide_True by (split; congruence).
  rewrite Hvd, Hvs, Hrs, Hcs, Hrd, Hcd.
  apply wp_bind, wp_read_exact; [done|].
  apply wp_bind, wp_read_exact; [done|].
  apply wp_bind, wp_write_exact; [apply length_vec_sub; congruence|].
  intros σ' Hs' Hval Hframe Hbm. apply wp_ret, HQ; [|done..].
  by eapply same_sizes_trans.
Qed.

Lemma wp_mtx_mul_scalar m p r c s (Q : mtxResultInfo → memory → Prop) :
  laid_out σ0 m p r c →
  after_write σ0 σ p (vec_scale s (fmem σ p)) Q →
  wp (mtx_mul_scalar m s) Q σ.
Proof.
  intros Hm HQ. pose proof (laid_out_length _ _ _ _ _ _ Hsizes Hm) as Hl.
  destruct Hm as (Hv & Hr & Hc & _).
  unfold mtx_mul_scalar, nelem. rewrite Hv, Hr, Hc.
  apply wp_bind, wp_read_exact; [done|].
  apply wp_bind, wp_write_exact; [apply length_vec_scale|].
  intros σ' Hs' Hval Hframe Hbm. apply wp_ret, HQ; [|done..].
  by eapply same_sizes_trans.
Qed.

Lemma wp_mtx_mul a b d pa pb pd r k c (Q : mtxResultInfo → memory → Prop) :
  laid_out σ0 a pa r k → laid_out σ0 b pb k c → laid_out σ0 d pd r c →
  after_write σ0 σ pd (mat_mul r k c (fmem σ pa) (fmem σ pb)) Q →
  wp (mtx_mul a b d) Q σ.
Proof.
  intros Ha Hb Hd HQ.
  pose proof (laid_out_length _ _ _ _ _ _ Hsizes Ha) as Hla.
  pose proof (laid_out_length _ _ _ _ _ _ Hsizes Hb) as Hlb.
  pose proof (laid_out_length _ _ _ _ _ _ Hsizes Hd) as Hld.
  destruct Ha as (Hva & Hra & Hca & _), Hb as (Hvb & Hrb & Hcb & _),
    Hd as (Hvd & Hrd & Hcd & _).
  unfold mtx_mul, nelem. rewrite decide_True by (repeat split; congruence).
  rewrite Hva, Hvb, Hvd, Hra, Hca, Hrb, Hcb.
  apply wp_bind, wp_read_exact; [done|].
  apply wp_bind, wp_read_exact; [done|].
  apply wp_bind, wp_write_exact; [by rewrite length_mat_mul|].
  intros σ' Hs' Hval Hframe Hbm. apply wp_ret, HQ; [|done..].
  by eapply same_sizes_trans.
Qed.

Lemma wp_mtx_mul_src2tr a b d pa pb pd r k c (Q : mtxResultInfo → memory → Prop) :
  laid_out σ0 a pa r k → laid_out σ0 b pb c k → laid_out σ0 d pd r c →
  after_write σ0 σ pd (mat_mul_tr r k c (fmem σ pa) (fmem σ pb)) Q →
  wp (mtx_mul_src2tr a b d) Q σ.
Proof.
  intros Ha Hb Hd HQ.
  pose proof (laid_out_length _ _ _ _ _ _ Hsizes Ha) as Hla.
  pose proof (laid_out_length _ _ _ _ _ _ Hsizes Hb) as Hlb.
  pose proof (laid_out_length _ _ _ _ _ _ Hsizes Hd) as Hld.
  destruct Ha as (Hva & Hra & Hca & _), Hb as (Hvb & Hrb & Hcb & _),
    Hd as (Hvd & Hrd & Hcd & _).
  unfold mtx_mul_src2tr, nelem. rewrite decide_True by (repeat split; congruence).
  rewrite Hva, Hvb, Hvd, Hra, Hca, Hrb, Hcb.
  apply wp_bind, wp_read_exact; [done|].
  apply wp_bind, wp_read_exact; [done|].
  apply wp_bind, wp_write_exact; [by rewrite length_mat_mul_tr|].
  intros σ' Hs' Hval Hframe Hbm. apply wp_ret, HQ; [|done..].
  by eapply same_sizes_trans.
Qed.

Lemma wp_mtx_inv N src dst ps pd n (Q : mtxResultInfo → memory → Prop) :
  laid_out σ0 src ps n n → laid_out σ0 dst pd n n → ps ≠ pd →
  (∀ σ', same_sizes σ0 σ' →
         fmem σ' ps
         = resize (n * n) 0%Qc (gauss_jordan N n (fmem σ ps) (fmem σ pd)).2.1 →
         fmem σ' pd
         = resize (n * n) 0%Qc (gauss_jordan N n (fmem σ ps) (fmem σ pd)).2.2 →
         (∀ q, q ≠ ps → q ≠ pd → fmem σ' q = fmem σ q) →
         Q (gauss_jordan N n (fmem σ ps) (fmem σ pd)).1 σ') →
  wp (mtx_inv N src dst) Q σ.
Proof.
  intros Hs Hd Hne HQ.
  pose proof (laid_out_length _ _ _ _ _ _ Hsizes Hs) as Hls.
  pose proof (laid_out_length _ _ _ _ _ _ Hsizes Hd) as Hld.
  destruct Hs as (Hvs & Hrs & Hcs & _), Hd as (Hvd & Hrd & Hcd & _).
  unfold mtx_inv, nelem. rewrite decide_True by (repeat split; congruence).
  rewrite Hvs, Hvd, Hrs, Hcs, Hrd, Hcd.
  apply wp_bind, wp_read_exact; [done|].
  apply wp_bind, wp_read_exact; [done|].
  apply wp_bind, wp_write_exact; [by rewrite length_resize|].
  intros σ1 Hs1 Hval1 Hframe1 _.
  apply wp_bind, wp_write_exact.
  { rewrite length_resize, Hframe1 by done. done. }
  intros σ2 Hs2 Hval2 Hframe2 _. apply wp_ret, HQ.
  - eapply same_sizes_trans; [done|]. by eapply same_sizes_trans.
  - by rewrite Hframe2, Hval1.
  - done.
  - intros q H1 H2. by rewrite Hframe2, Hframe1.
Qed.

Lemma wp_mtx_chol_lower N m p n (Q : mtxResultInfo → memory → Prop) :
  laid_out σ0 m p n n →
  (∀ σ', same_sizes σ0 σ' →
         fmem σ' p = resize (n * n) 0%Qc (chol_factor N n (fmem σ p)).2 →
         (∀ q, q ≠ p → fmem σ' q = fmem σ q) →
         bmem σ' = bmem σ →
         Q (chol_factor N n (fmem σ p)).1 σ') →
  wp (mtx_chol_lower N m) Q σ.
Proof.
  intros Hm HQ.
  pose proof (laid_out_length _ _ _ _ _ _ Hsizes Hm) as Hl.
  destruct Hm as (Hv & Hr & Hc & _).
  unfold mtx_chol_lower, nelem. rewrite decide_True by congruence.
  rewrite Hv, Hr, Hc.
  apply wp_bind, wp_read_exact; [done|].
  apply wp_bind, wp_write_exact; [by rewrite length_resize|].
  intros σ1 Hs1 Hval1 Hframe1 Hb1. apply wp_ret, HQ; [|done..].
  by eapply same_sizes_trans.
Qed.

End Operations.

(** Rewrite the contents of buffers in later memories to what is known
    about them. *)
Ltac mem_norm :=
  repeat match goal with
  | H : fmem ?s ?p = _ |- context [fmem ?s ?p] => rewrite H
  | H : ∀ q, q ≠ ?d → fmem ?s q = fmem _ q |- context [fmem ?s ?p] =>
      rewrite (H p) by congruence
  | H : ∀ q, q ≠ ?d → q ≠ ?e → fmem ?s q = fmem _ q |- context [fmem ?s ?p] =>
      rewrite (H p) by congruence
  end.

(** Split [NoDup] of a list of addresses into the inequalities it stands for. *)
Ltac split_distinct H :=
  repeat (let H1 := fresh in
          pose proof (NoDup_cons_1_1 _ _ H) as H1; apply NoDup_cons_1_2 in H);
  repeat match goal with
  | H' : _ ∉ _ :: _ |- _ => apply not_elem_of_cons in H'; destruct H'
  end.

(** Rows and columns of zeros. *)
Lemma mat_build_ext r c f g :
  (∀ i j, f i j = g i j) → mat_build r c f = mat_build r c g.
Proof.
  intros Hfg. unfold mat_build. f_equal. apply list_fmap_ext.
  intros _ i _. apply list_fmap_ext. intros _ j _. apply Hfg.
Qed.

Lemma fmap_const_replicate (l : list nat) (v : float) :
  (λ _, v) <$> l = replicate (length l) v.
Proof. induction l as [|t l IH]; csimpl; [done|]. by rewrite IH. Qed.

Lemma mat_build_zero r c : mat_build r c (λ _ _, 0%Qc) = replicate (r * c) 0%Qc.
Proof.
  unfold mat_build. rewrite fmap_const_replicate, length_seq.
  transitivity (replicate (length (seq 0 r) * c) 0%Qc); [|by rewrite length_seq].
  induction (seq 0 r) as [|i l IH]; csimpl; [done|].
  by rewrite IH, replicate_add.
Qed.

Lemma mat_at_zeros c n i j : mat_at c (replicate n 0%Qc) i j = 0%Qc.
Proof.
  unfold mat_at. destruct (replicate n 0%Qc !! (c * i + j)) as [v|] eqn:E; [|done].
  by apply lookup_replicate_1 in E as [-> _].
Qed.

Lemma fsum_zeros (l : list nat) (f : nat → float) :
  (∀ t, f t = 0%Qc) → fsum (f <$> l) = 0%Qc.
Proof.
  intros Hf. unfold fsum. induction l as [|t l IH]; csimpl; [done|].
  rewrite Hf, IH. ring.
Qed.

Lemma mat_mul_zeros_r r k c a n :
  mat_mul r k c a (replicate n 0%Qc) = replicate (r * c) 0%Qc.
Proof.
  unfold mat_mul. rewrite <-mat_build_zero. apply mat_build_ext.
  intros i j. apply fsum_zeros. intros t. rewrite mat_at_zeros. ring.
Qed.

Lemma vec_sub_diag a : vec_sub a a = replicate (length a) 0%Qc.
Proof.
  unfold vec_sub. induction a as [|v a IH]; simpl; [done|].
  rewrite IH. f_equal. ring.
Qed.

Lemma vec_add_zeros a : vec_add a (replicate (length a) 0%Qc) = a.
Proof.
  unfold vec_add. induction a as [|v a IH]; simpl; [done|].
  rewrite IH. f_equal. ring.
Qed.

Section MeasurementUpdate.
Variables (N : numerics) (pUkf : tUKF) (σ : memory) (nx ny : nat).
Variables (pI pPyyc pPyy pPxy pK py pym pxc pxm pPc pPm : ptr).

(** The eleven matrices of the measurement update, each in a buffer of its
    own of the size the state and measurement counts imply. *)
Hypothesis HIyy : laid_out σ (Iyy (update pUkf)) pI ny ny.
Hypothesis HPyy_cpy : laid_out σ (Pyy_cpy (update pUkf)) pPyyc ny ny.
Hypothesis HPyy : laid_out σ (Pyy (update pUkf)) pPyy ny ny.
Hypothesis HPxy : laid_out σ (Pxy (update pUkf)) pPxy nx ny.
Hypothesis HK : laid_out σ (K (update pUkf)) pK nx ny.
Hypothesis Hy : laid_out σ (y (input pUkf)) py ny 1.
Hypothesis Hy_m : laid_out σ (y_m (predict pUkf)) pym ny 1.
Hypothesis Hx_corr : laid_out σ (x_corr (update pUkf)) pxc nx 1.
Hypothesis Hx_m : laid_out σ (x_m (predict pUkf)) pxm nx 1.
Hypothesis HPxx_corr : laid_out σ (Pxx_corr (update pUkf)) pPc nx nx.
Hypothesis HP_m : laid_out σ (P_m (predict pUkf)) pPm nx nx.
Hypothesis Hdistinct :
  NoDup [pI; pPyyc; pPyy; pPxy; pK; py; pym; pxc; pxm; pPc; pPm].

Lemma ukf_meas_update_total :
  wp (ukf_meas_update N pUkf)
     (λ _ σ',
        let Kv := mat_mul nx ny ny (fmem σ pPxy) (inverse N ny (fmem σ pPyy)) in
        let innov := vec_sub (fmem σ py) (fmem σ pym) in
        let corr := mat_mul nx ny 1 Kv innov in
        let KP := mat_mul nx ny ny Kv (fmem σ pPyy) in
        same_sizes σ σ' ∧
        fmem σ' pK = Kv ∧
        fmem σ' py = innov ∧
        fmem σ' pxc = corr ∧
        fmem σ' pxm = vec_add (fmem σ pxm) corr ∧
        fmem σ' pPxy = KP ∧
        fmem σ' pPc = mat_mul_tr nx ny nx KP Kv ∧
        fmem σ' pPm = vec_sub (fmem σ pPm) (mat_mul_tr nx ny nx KP Kv) ∧
        fmem σ' pPyy = fmem σ pPyy ∧
        fmem σ' pym = fmem σ pym) σ.
Proof.
  pose proof Hdistinct as Hd. split_distinct Hd.
  unfold ukf_meas_update.
  apply wp_bind. eapply (wp_mtx_identity σ σ); [apply same_sizes_refl|done|].
  intros σ1 Hs1 Hv1 Hf1 _.
  apply wp_bind. eapply (wp_mtx_cpy σ σ1); [done..|].
  intros σ2 Hs2 Hv2 Hf2 _.
  apply wp_bind. eapply (wp_mtx_inv σ σ2); [done || congruence..|].
  intros σ3 Hs3 Hv3c Hv3 Hf3.
  apply wp_bind. eapply (wp_mtx_mul σ σ3); [done..|].
  intros σ4 Hs4 Hv4 Hf4 _.
  apply wp_bind. eapply (wp_mtx_sub σ σ4); [done..|].
  intros σ5 Hs5 Hv5 Hf5 _.
  apply wp_bind. eapply (wp_mtx_mul σ σ5); [done..|].
  intros σ6 Hs6 Hv6 Hf6 _.
  apply wp_bind. eapply (wp_mtx_add σ σ6); [done..|].
  intros σ7 Hs7 Hv7 Hf7 _.
  apply wp_bind. eapply (wp_mtx_mul σ σ7); [done..|].
  intros σ8 Hs8 Hv8 Hf8 _.
  apply wp_bind. eapply (wp_mtx_mul_src2tr σ σ8); [done..|].
  intros σ9 Hs9 Hv9 Hf9 _.
  apply wp_bind. eapply (wp_mtx_sub σ σ9); [done..|].
  intros σ10 Hs10 Hv10 Hf10 _.
  apply wp_ret. unfold inverse.
  split; [done|]. repeat split; mem_norm; reflexivity.
Qed.

(** C2.  On eleven separately stored matrices of the right shapes, the
    measurement update completes and leaves: the gain [K = Pxy·inv(Pyy)],
    where the inverse is what the library's inversion of a copy of [Pyy]
    leaves in an identity matrix ([Pyy] itself is intact); the innovation
    [y - y_m] in the measurement vector; the state [x_m + K·(y - y_m)] in
    the buffer of the predicted mean, which is the posterior's; the product
    [K·Pyy] in the cross-covariance buffer; and [P_m - (K·Pyy)·Kᵗ] in the
    buffer of the predicted covariance, which is the posterior's. *)
Theorem ukf_meas_update_computes :
  ∃ σ',
    ukf_meas_update N pUkf σ = Done tt σ' ∧
    let Kv := mat_mul nx ny ny (fmem σ pPxy) (inverse N ny (fmem σ pPyy)) in
    let innov := vec_sub (fmem σ py) (fmem σ pym) in
    let KP := mat_mul nx ny ny Kv (fmem σ pPyy) in
    fmem σ' pPyy = fmem σ pPyy ∧
    fmem σ' pK = Kv ∧
    fmem σ' py = innov ∧
    fmem σ' pxm = vec_add (fmem σ pxm) (mat_mul nx ny 1 Kv innov) ∧
    fmem σ' pPxy = KP ∧
    fmem σ' pPm = vec_sub (fmem σ pPm) (mat_mul_tr nx ny nx KP Kv).
Proof.
  pose proof ukf_meas_update_total as Hwp.
  apply wp_done in Hwp as ([] & σ' & Hrun & H).
  exists σ'. split; [done|]. simpl in *.
  destruct H as (_ & HKv & Hyv & _ & Hxv & HPxyv & _ & HPmv & HPyyv & _).
  by repeat split.
Qed.

(** C8, as the code has it.  When the measurement equals the predicted
    measurement mean, the correction [K·(y - y_m)] left in [x_corr] is zero
    and the posterior state is the predicted mean; the posterior covariance
    is [P_m - (K·Pyy)·Kᵗ] as in every cycle. *)
Theorem ukf_meas_update_without_innovation :
  fmem σ py = fmem σ pym →
  ∃ σ',
    ukf_meas_update N pUkf σ = Done tt σ' ∧
    let Kv := mat_mul nx ny ny (fmem σ pPxy) (inverse N ny (fmem σ pPyy)) in
    let KP := mat_mul nx ny ny Kv (fmem σ pPyy) in
    fmem σ' pxc = replicate nx 0%Qc ∧
    fmem σ' pxm = fmem σ pxm ∧
    fmem σ' pPm = vec_sub (fmem σ pPm) (mat_mul_tr nx ny nx KP Kv).
Proof.
  intros Hsame.
  pose proof ukf_meas_update_total as Hwp.
  apply wp_done in Hwp as ([] & σ' & Hrun & H).
  exists σ'. split; [done|]. simpl in *.
  destruct H as (_ & _ & _ & Hc & Hx & _ & _ & HP & _).
  rewrite Hsame, vec_sub_diag, mat_mul_zeros_r, Nat.mul_1_r in Hc, Hx.
  split; [done|]. split; [|done].
  rewrite Hx. destruct Hx_m as (_ & _ & _ & Hl).
  rewrite <-(Nat.mul_1_r nx), <-Hl. apply vec_add_zeros.
Qed.

End MeasurementUpdate.

(** The posterior state and covariance of [ukf_init]'s wiring live in the
    buffers of the predicted mean and covariance. *)
Lemma posterior_shares_storage c al be ka :
  x (update (ukf_fields c al be ka)) = x_m (predict (ukf_fields c al be ka)) ∧
  Pxx (update (ukf_fields c al be ka)) = P_m (predict (ukf_fields c al be ka)).
Proof. done. Qed.

Ltac bench_layout :=
  first
    [ apply (bool_decide_unpack _); vm_compute; exact I
    | repeat split; vm_compute; reflexivity ].

Lemma ukf_meas_update_computes_witness :
  let pUkf := ukf_fields Bench.plain (Bench.q 1) (Bench.q 2) (Bench.q 0) in
  let σ := Bench.settled_mem in
  let N := Bench.scalar_numerics in
  ∃ σ',
    ukf_meas_update N pUkf σ = Done tt σ' ∧
    let Kv := mat_mul 1 1 1 (fmem σ Bench.aPxy) (inverse N 1 (fmem σ Bench.aPyy)) in
    let innov := vec_sub (fmem σ Bench.ay) (fmem σ Bench.aym) in
    let KP := mat_mul 1 1 1 Kv (fmem σ Bench.aPyy) in
    fmem σ' Bench.aPyy = fmem σ Bench.aPyy ∧
    fmem σ' Bench.aK = Kv ∧
    fmem σ' Bench.ay = innov ∧
    fmem σ' Bench.ax = vec_add (fmem σ Bench.ax) (mat_mul 1 1 1 Kv innov) ∧
    fmem σ' Bench.aPxy = KP ∧
    fmem σ' Bench.aPxx = vec_sub (fmem σ Bench.aPxx) (mat_mul_tr 1 1 1 KP Kv).
Proof.
  intros pUkf σ N.
  apply (ukf_meas_update_computes N pUkf σ 1 1
           Bench.aI Bench.aPyycpy Bench.aPyy Bench.aPxy Bench.aK Bench.ay
           Bench.aym Bench.axcorr Bench.ax Bench.aPxxcorr Bench.aPxx);
    bench_layout.
Defined.

Lemma ukf_meas_update_without_innovation_witness :
  let pUkf := ukf_fields Bench.plain (Bench.q 1) (Bench.q 2) (Bench.q 0) in
  let σ := Bench.settled_mem in
  let N := Bench.scalar_numerics in
  ∃ σ',
    ukf_meas_update N pUkf σ = Done tt σ' ∧
    let Kv := mat_mul 1 1 1 (fmem σ Bench.aPxy) (inverse N 1 (fmem σ Bench.aPyy)) in
    let KP := mat_mul 1 1 1 Kv (fmem σ Bench.aPyy) in
    fmem σ' Bench.axcorr = replicate 1 0%Qc ∧
    fmem σ' Bench.ax = fmem σ Bench.ax ∧
    fmem σ' Bench.aPxx = vec_sub (fmem σ Bench.aPxx) (mat_mul_tr 1 1 1 KP Kv).
Proof.
  intros pUkf σ N.
  apply (ukf_meas_update_without_innovation N pUkf σ 1 1
           Bench.aI Bench.aPyycpy Bench.aPyy Bench.aPxy Bench.aK Bench.ay
           Bench.aym Bench.axcorr Bench.ax Bench.aPxxcorr Bench.aPxx);
    bench_layout.
Defined.

(** C8 as stated fails on its covariance clause.  With [y = y_m = 5],
    [P_m = 1], [Pxy = 1] and [Pyy = 2] the gain is 1/2: the state stays at
    [x_m = 3], but the posterior covariance is [1 - (1/2·2)·1/2 = 1/2], not
    the predicted covariance 1. *)
Lemma covariance_corrected_without_innovation :
  let pUkf := ukf_fields Bench.plain (Bench.q 1) (Bench.q 2) (Bench.q 0) in
  let run := ukf_meas_update Bench.scalar_numerics pUkf Bench.settled_mem in
  fmem Bench.settled_mem Bench.ay = fmem Bench.settled_mem Bench.aym ∧
  val (Pxx (update pUkf)) = Some Bench.aPxx ∧
  fmem Bench.settled_mem Bench.aPxx !! 0 = Some (Bench.q 1) ∧
  peek Bench.ax 0 run = Some (Bench.q 3) ∧
  peek Bench.aPxx 0 run = Some (Q2Qc (1 # 2)) ∧
  peek Bench.aPxx 0 run ≠ Some (Bench.q 1).
Proof.
  intros pUkf run. repeat split; try reflexivity;
    apply (bool_decide_unpack _); by vm_compute.
Qed.

(** * Sigma points: a successful factorization *)

Lemma lookup_mat_at c (a : list float) i j :
  c * i + j < length a → a !! (c * i + j) = Some (mat_at c a i j).
Proof.
  intros Hlt. unfold mat_at.
  by destruct (lookup_lt_is_Some_2 _ _ Hlt) as [v ->].
Qed.

Lemma cell_inj n i j i' j' :
  j < n → j' < n → n * i + j = n * i' + j' → i = i' ∧ j = j'.
Proof.
  intros Hj Hj' Heq. destruct (decide (i = i')) as [->|Hne]; [lia|exfalso].
  destruct (decide (i < i')).
  - assert (n * (i + 1) ≤ n * i') by (apply Nat.mul_le_mono_l; lia). lia.
  - assert (n * (i' + 1) ≤ n * i) by (apply Nat.mul_le_mono_l; lia). lia.
Qed.

(** The limiter block reads what [limits_of] says, from any memory that
    agrees with [σ0] on the limiter arrays. *)
Lemma wp_state_limits pUkf σ0 σ nx pX pP xIdx (Q : float * float * nat → memory → Prop) :
  sigma_limits_ready pUkf σ0 nx pX pP →
  xIdx < nx →
  (∀ q, q ≠ pX → q ≠ pP → fmem σ q = fmem σ0 q) →
  bmem σ = bmem σ0 →
  Q (limits_of pUkf σ0 xIdx) σ →
  wp (state_limits pUkf xIdx) Q σ.
Proof.
  unfold sigma_limits_ready, state_limits, limits_of.
  intros Hready Hi Hf Hb HQ.
  destruct (bval (xLimEnbl (par pUkf))) as [pE|],
    (val (xLim (par pUkf))) as [pL|]; simpl; try by apply wp_ret.
  destruct Hready as (HneX & HneP & Hlen & HlenE).
  specialize (Hlen xIdx Hi). unfold xMaxIdx, xMinIdx in *.
  apply wp_bind. eapply wp_load.
  { rewrite Hf by done. apply lookup_mat_at. lia. }
  apply wp_bind. eapply wp_load.
  { rewrite Hf by done. by apply lookup_mat_at. }
  destruct (lookup_lt_is_Some_2 (bmem σ0 pE) xIdx) as [v Hv]; [lia|].
  apply wp_bind. eapply wp_load_flag; [by rewrite Hb|].
  apply wp_ret. by rewrite Hv in HQ.
Qed.

Lemma same_sizes_store σ σ' p i v :
  same_sizes σ σ' → same_sizes σ (fupd p (<[i := v]> (fmem σ' p)) σ').
Proof.
  intros Hs. eapply same_sizes_trans; [done|].
  apply same_sizes_fupd. by rewrite length_insert.
Qed.

Lemma fltb_lt a b : fltb a b = true ↔ (a < b)%Qc.
Proof.
  unfold fltb. change (a < b)%Qc with ((a ?= b)%Qc = Lt).
  by destruct (a ?= b)%Qc.
Qed.

Lemma fltb_ge a b : fltb a b = false ↔ (b ≤ a)%Qc.
Proof.
  rewrite <-not_true_iff_false, fltb_lt. split.
  - apply Qcnot_lt_le.
  - apply Qcle_not_lt.
Qed.

(** An enabled limiter: below the minimum it gives the minimum, above the
    maximum the maximum, in between its argument. *)
Lemma limiter_cases state min max enbl :
  enbl ≠ 0 →
  ((state < min)%Qc → ukf_state_limiter state min max enbl = min) ∧
  ((min ≤ state)%Qc → (max < state)%Qc →
   ukf_state_limiter state min max enbl = max) ∧
  ((min ≤ state)%Qc → (state ≤ max)%Qc →
   ukf_state_limiter state min max enbl = state).
Proof.
  intros Hen. unfold ukf_state_limiter.
  apply Nat.eqb_neq in Hen. rewrite Hen. simpl.
  split; [|split].
  - intros Hlt. apply fltb_lt in Hlt. by rewrite Hlt.
  - intros Hge Hgt. apply fltb_ge in Hge. apply fltb_lt in Hgt.
    by rewrite Hge, Hgt.
  - intros Hge Hle. apply fltb_ge in Hge. apply fltb_ge in Hle.
    by rewrite Hge, Hle.
Qed.

(** Where the limits of a state come from: row [i] of [xLim] and entry [i]
    of the enable flags when both arrays are configured, a disabled limiter
    otherwise. *)
Lemma limits_of_configured pUkf σ pL pE i :
  val (xLim (par pUkf)) = Some pL →
  bval (xLimEnbl (par pUkf)) = Some pE →
  limits_of pUkf σ i
  = (mat_at (ncol (xLim (par pUkf))) (fmem σ pL) i xMinIdx,
     mat_at (ncol (xLim (par pUkf))) (fmem σ pL) i xMaxIdx,
     default 0 (bmem σ pE !! i)).
Proof. intros HL HE. unfold limits_of. by rewrite HL, HE. Qed.

Lemma limits_of_absent pUkf σ i :
  val (xLim (par pUkf)) = None ∨ bval (xLimEnbl (par pUkf)) = None →
  limits_of pUkf σ i = (0%Qc, 0%Qc, 0).
Proof.
  unfold limits_of. intros [H|H]; rewrite H; [|done].
  by destruct (bval (xLimEnbl (par pUkf))).
Qed.

Section SigmaPoints.
Variables (N : numerics) (pUkf : tUKF) (σ : memory) (nx : nat).
Variables (pP pX px : ptr).

(** The previous covariance, sigma points and mean, each in a buffer of its
    own of the size [xLen] implies, with [sLen = 2·xLen + 1]. *)
Hypothesis HxLen : xLen (par pUkf) = nx.
Hypothesis HsLen : sLen (par pUkf) = 2 * nx + 1.
Hypothesis HPxx_p : laid_out σ (Pxx_p (prev pUkf)) pP nx nx.
Hypothesis HX_p : laid_out σ (X_p (prev pUkf)) pX nx (2 * nx + 1).
Hypothesis Hx_p : laid_out σ (x_p (prev pUkf)) px nx 1.
Hypothesis HXP : pX ≠ pP.
Hypothesis HXx : pX ≠ px.
Hypothesis HxP : px ≠ pP.
Hypothesis Hlimits : sigma_limits_ready pUkf σ nx pX pP.

Let ns := 2 * nx + 1.
Let cell := sigma_point N pUkf σ nx px pP.

Lemma sigma_point_limited i j v :
  limits_of pUkf σ i = (v.1.1, v.1.2, v.2) →
  cell i j
  = ukf_state_limiter
      (if decide (j = 0) then mat_at 1 (fmem σ px) i 0
       else if decide (j ≤ nx)
            then (mat_at 1 (fmem σ px) i 0
                  + mat_at nx (scaled_factor N nx (lambda (par pUkf)) (fmem σ pP))
                           i (j - 1))%Qc
            else (mat_at 1 (fmem σ px) i 0
                  - mat_at nx (scaled_factor N nx (lambda (par pUkf)) (fmem σ pP))
                           i (j - nx - 1))%Qc)
      v.1.1 v.1.2 v.2.
Proof. intros E. unfold cell, sigma_point, clamp. by rewrite E. Qed.

Lemma ukf_sigmapoint_total :
  (chol_factor N nx (fmem σ pP)).1 = MTX_OPERATION_OK →
  wp (ukf_sigmapoint N pUkf)
     (λ _ σ', same_sizes σ σ' ∧
              ∀ i j, i < nx → j < ns → fmem σ' pX !! (ns * i + j) = Some (cell i j)) σ.
Proof.
  intros Hchol.
  pose proof (laid_out_length σ σ _ _ _ _ (same_sizes_refl σ) HX_p) as HlX.
  pose proof (laid_out_length σ σ _ _ _ _ (same_sizes_refl σ) Hx_p) as Hlx.
  pose proof (laid_out_length σ σ _ _ _ _ (same_sizes_refl σ) HPxx_p) as HlP.
  assert (val (X_p (prev pUkf)) = Some pX) as HvX by apply HX_p.
  assert (val (x_p (prev pUkf)) = Some px) as Hvx by apply Hx_p.
  assert (val (Pxx_p (prev pUkf)) = Some pP) as HvP by apply HPxx_p.
  unfold ukf_sigmapoint. rewrite HxLen, HsLen, HvX, Hvx, HvP. fold ns.
  (* factorization *)
  apply wp_bind. eapply (wp_mtx_chol_lower σ σ); [apply same_sizes_refl|done|].
  intros σ1 Hs1 Hv1 Hf1 Hb1. rewrite Hchol. rewrite decide_True by done.
  (* column 0 *)
  apply wp_bind.
  apply (wp_for (λ k σ',
    same_sizes σ σ' ∧ bmem σ' = bmem σ ∧
    (∀ q, q ≠ pX → fmem σ' q = fmem σ1 q) ∧
    ∀ i, i < k → fmem σ' pX !! (ns * i + 0) = Some (cell i 0))).
  { lia. }
  { split; [done|]. split; [done|]. split; [done|]. intros i ?. lia. }
  { intros k σ' Hk (Hs & Hb & Hf & Hcells).
    apply wp_bind. eapply (wp_state_limits pUkf σ σ' nx pX pP); [done|lia| |done|].
    { intros q ? ?. by rewrite Hf, Hf1. }
    destruct (limits_of pUkf σ k) as [[xMin xMax] xLimEnbl] eqn:Elim.
    apply wp_bind. eapply wp_load.
    { rewrite Hf, Hf1 by done. rewrite <-(Nat.add_0_r k) at 1.
      rewrite <-(Nat.mul_1_l k) at 1. apply lookup_mat_at. lia. }
    apply wp_store.
    { rewrite (proj1 Hs), HlX. unfold ns. nia. }
    split; [by apply same_sizes_store|]. split; [done|]. split.
    - intros q Hq. rewrite fmem_fupd_ne by done. by apply Hf.
    - intros i Hi. rewrite fmem_fupd_eq.
      destruct (decide (i = k)) as [->|Hne].
      + rewrite list_lookup_insert_eq by (rewrite (proj1 Hs), HlX; unfold ns; nia).
        f_equal. symmetry.
        by rewrite (sigma_point_limited k 0 (xMin, xMax, xLimEnbl)).
      + rewrite list_lookup_insert_ne by (unfold ns; nia). apply Hcells. lia. }
  intros σ2 (Hs2 & Hb2 & Hf2 & Hcol0).
  (* scaling *)
  apply wp_bind. eapply (wp_mtx_mul_scalar σ σ2); [done..|].
  intros σ3 Hs3 Hv3 Hf3 Hb3.
  assert (fmem σ3 pP = scaled_factor N nx (lambda (par pUkf)) (fmem σ pP)) as HS.
  { rewrite Hv3, Hf2, Hv1 by done. done. }
  assert (length (fmem σ3 pP) = nx * nx) as HlS.
  { by rewrite (proj1 Hs3). }
  (* columns 1 .. 2 xLen *)
  apply (wp_for (λ s σ',
    same_sizes σ σ' ∧ bmem σ' = bmem σ ∧
    (∀ q, q ≠ pX → fmem σ' q = fmem σ3 q) ∧
    ∀ i j, i < nx → j < s → fmem σ' pX !! (ns * i + j) = Some (cell i j))).
  { unfold ns. lia. }
  { split; [done|]. split; [congruence|]. split; [done|].
    intros i j Hi Hj. replace j with 0 by lia.
    rewrite Hf3 by done. by apply Hcol0. }
  2: { intros σ' (Hs & _ & _ & Hcells). by split. }
  intros s σ4 Hsr (Hs4 & Hb4 & Hf4 & Hdone).
  apply (wp_for (λ k σ',
    same_sizes σ σ' ∧ bmem σ' = bmem σ ∧
    (∀ q, q ≠ pX → fmem σ' q = fmem σ3 q) ∧
    ∀ i j, i < nx → j < s ∨ (j = s ∧ i < k) →
           fmem σ' pX !! (ns * i + j) = Some (cell i j))).
  { lia. }
  { split; [done|]. split; [done|]. split; [done|].
    intros i j Hi [Hj|[_ ?]]; [by apply Hdone|lia]. }
  2: { intros σ' (Hs & Hb & Hf & Hcells).
       split; [done|]. split; [done|]. split; [done|].
       intros i j Hi Hj. apply Hcells; [done|]. lia. }
  intros k σ' Hk (Hs & Hb & Hf & Hcells).
  apply wp_bind. eapply (wp_state_limits pUkf σ σ' nx pX pP); [done|lia| |done|].
  { intros q ? ?. by rewrite Hf, Hf3, Hf2, Hf1. }
  destruct (limits_of pUkf σ k) as [[xMin xMax] xLimEnbl] eqn:Elim.
  assert (fmem σ' px !! k = Some (mat_at 1 (fmem σ px) k 0)) as Hxp.
  { rewrite Hf, Hf3, Hf2, Hf1 by done. rewrite <-(Nat.add_0_r k) at 1.
    rewrite <-(Nat.mul_1_l k) at 1. apply lookup_mat_at. lia. }
  assert (ns * k + s < length (fmem σ' pX)) as Hbound.
  { rewrite (proj1 Hs), HlX. unfold ns in *. nia. }
  assert (∀ v, cell k s = v →
    same_sizes σ (fupd pX (<[ns * k + s := v]> (fmem σ' pX)) σ') ∧
    bmem (fupd pX (<[ns * k + s := v]> (fmem σ' pX)) σ') = bmem σ ∧
    (∀ q, q ≠ pX →
          fmem (fupd pX (<[ns * k + s := v]> (fmem σ' pX)) σ') q = fmem σ3 q) ∧
    ∀ i j, i < nx → j < s ∨ (j = s ∧ i < S k) →
           fmem (fupd pX (<[ns * k + s := v]> (fmem σ' pX)) σ') pX
             !! (ns * i + j) = Some (cell i j)) as Hstep.
  { intros v Hv. split; [by apply same_sizes_store|]. split; [done|]. split.
    - intros q Hq. rewrite fmem_fupd_ne by done. by apply Hf.
    - intros i j Hi Hj. rewrite fmem_fupd_eq.
      destruct (decide (i = k ∧ j = s)) as [[-> ->]|Hne].
      + rewrite list_lookup_insert_eq by done. by rewrite Hv.
      + rewrite list_lookup_insert_ne.
        * apply Hcells; [done|]. lia.
        * intros Heq. apply cell_inj in Heq; [lia|unfold ns in *; lia..]. }
  case_decide as Hcase.
  - apply wp_bind. eapply wp_load; [exact Hxp|].
    apply wp_bind. eapply wp_load.
    { rewrite Hf, HS by done. apply lookup_mat_at.
      rewrite <-HS, HlS. nia. }
    apply wp_store; [done|]. apply Hstep.
    rewrite (sigma_point_limited k s (xMin, xMax, xLimEnbl)) by done.
    rewrite decide_False by lia. by rewrite decide_True by done.
  - apply wp_bind. eapply wp_load; [exact Hxp|].
    apply wp_bind. eapply wp_load.
    { rewrite Hf, HS by done. apply lookup_mat_at.
      rewrite <-HS, HlS. unfold ns in *. nia. }
    apply wp_store; [done|]. apply Hstep.
    rewrite (sigma_point_limited k s (xMin, xMax, xLimEnbl)) by done.
    rewrite decide_False by lia. by rewrite decide_False by done.
Qed.

(** C1.  When the Cholesky factorization of the previous covariance
    succeeds, [ukf_sigmapoint] completes and, for every state [i], leaves in
    the sigma-point matrix the clamped previous mean in column 0,
    [clamp (x_p[i] + S[i][j-1])] in column [j] and
    [clamp (x_p[i] - S[i][j-1])] in column [xLen + j] for [j] in [1..xLen],
    where [S] is the factor scaled by [sqrt (xLen + lambda)].  The clamp of
    state [i] is the identity when the enable flag of the state is 0; when
    the flag is set it gives the state's minimum for a value below it, the
    maximum for a value above it, and the value itself in between.  Minimum,
    maximum and flag are row [i] of [xLim] and entry [i] of the enable
    array; a filter without these arrays clamps nothing. *)
Theorem ukf_sigmapoint_columns :
  (chol_factor N nx (fmem σ pP)).1 = MTX_OPERATION_OK →
  ∃ σ',
    ukf_sigmapoint N pUkf σ = Done tt σ' ∧
    let S := scaled_factor N nx (lambda (par pUkf)) (fmem σ pP) in
    let x_prev i := mat_at 1 (fmem σ px) i 0 in
    (∀ i v, (limits_of pUkf σ i).2 = 0 → clamp pUkf σ i v = v) ∧
    (∀ i v xMin xMax enbl,
       limits_of pUkf σ i = (xMin, xMax, enbl) → enbl ≠ 0 →
       ((v < xMin)%Qc → clamp pUkf σ i v = xMin) ∧
       ((xMin ≤ v)%Qc → (xMax < v)%Qc → clamp pUkf σ i v = xMax) ∧
       ((xMin ≤ v)%Qc → (v ≤ xMax)%Qc → clamp pUkf σ i v = v)) ∧
    (∀ i pL pE,
       val (xLim (par pUkf)) = Some pL →
       bval (xLimEnbl (par pUkf)) = Some pE →
       limits_of pUkf σ i
       = (mat_at (ncol (xLim (par pUkf))) (fmem σ pL) i xMinIdx,
          mat_at (ncol (xLim (par pUkf))) (fmem σ pL) i xMaxIdx,
          default 0 (bmem σ pE !! i))) ∧
    (val (xLim (par pUkf)) = None ∨ bval (xLimEnbl (par pUkf)) = None →
     ∀ i, limits_of pUkf σ i = (0%Qc, 0%Qc, 0)) ∧
    ∀ i, i < nx →
      fmem σ' pX !! (sLen (par pUkf) * i + 0)
      = Some (clamp pUkf σ i (x_prev i)) ∧
      ∀ j, 1 ≤ j ≤ nx →
        fmem σ' pX !! (sLen (par pUkf) * i + j)
        = Some (clamp pUkf σ i (x_prev i + mat_at nx S i (j - 1))%Qc) ∧
        fmem σ' pX !! (sLen (par pUkf) * i + (nx + j))
        = Some (clamp pUkf σ i (x_prev i - mat_at nx S i (j - 1))%Qc).
Proof.
  intros Hchol.
  pose proof (ukf_sigmapoint_total Hchol) as Hwp.
  apply wp_done in Hwp as ([] & σ' & Hrun & _ & Hcells).
  exists σ'. split; [done|]. simpl. split.
  { intros i v Hoff. unfold clamp, ukf_state_limiter. by rewrite Hoff. }
  split.
  { intros i v xMin xMax enbl Hlim Hen. unfold clamp. rewrite Hlim. simpl.
    by apply limiter_cases. }
  split.
  { intros i pL pE HL HE. by apply limits_of_configured. }
  split.
  { intros Habsent i. by apply limits_of_absent. }
  intros i Hi. rewrite HsLen. fold ns. split.
  - rewrite (Hcells i 0) by (unfold ns; lia). done.
  - intros j Hj. split.
    + rewrite (Hcells i j) by (unfold ns; lia).
      unfold cell, sigma_point. rewrite decide_False by lia.
      by rewrite decide_True by lia.
    + rewrite (Hcells i (nx + j)) by (unfold ns; lia).
      unfold cell, sigma_point. rewrite decide_False by lia.
      rewrite decide_False by lia. by replace (nx + j - nx - 1) with (j - 1) by lia.
Qed.

End SigmaPoints.

Lemma ukf_sigmapoint_columns_witness :
  let pUkf := ukf_fields Bench.limited (Bench.q 1) (Bench.q 2) (Bench.q 0) in
  let σ := Bench.limited_mem in
  let N := Bench.scalar_numerics in
  ∃ σ',
    ukf_sigmapoint N pUkf σ = Done tt σ' ∧
    let S := scaled_factor N 1 (lambda (par pUkf)) (fmem σ Bench.aPxx) in
    let x_prev i := mat_at 1 (fmem σ Bench.ax) i 0 in
    (∀ i v, (limits_of pUkf σ i).2 = 0 → clamp pUkf σ i v = v) ∧
    (∀ i v xMin xMax enbl,
       limits_of pUkf σ i = (xMin, xMax, enbl) → enbl ≠ 0 →
       ((v < xMin)%Qc → clamp pUkf σ i v = xMin) ∧
       ((xMin ≤ v)%Qc → (xMax < v)%Qc → clamp pUkf σ i v = xMax) ∧
       ((xMin ≤ v)%Qc → (v ≤ xMax)%Qc → clamp pUkf σ i v = v)) ∧
    (∀ i pL pE,
       val (xLim (par pUkf)) = Some pL →
       bval (xLimEnbl (par pUkf)) = Some pE →
       limits_of pUkf σ i
       = (mat_at (ncol (xLim (par pUkf))) (fmem σ pL) i xMinIdx,
          mat_at (ncol (xLim (par pUkf))) (fmem σ pL) i xMaxIdx,
          default 0 (bmem σ pE !! i))) ∧
    (val (xLim (par pUkf)) = None ∨ bval (xLimEnbl (par pUkf)) = None →
     ∀ i, limits_of pUkf σ i = (0%Qc, 0%Qc, 0)) ∧
    ∀ i, i < 1 →
      fmem σ' Bench.aX !! (sLen (par pUkf) * i + 0)
      = Some (clamp pUkf σ i (x_prev i)) ∧
      ∀ j, 1 ≤ j ≤ 1 →
        fmem σ' Bench.aX !! (sLen (par pUkf) * i + j)
        = Some (clamp pUkf σ i (x_prev i + mat_at 1 S i (j - 1))%Qc) ∧
        fmem σ' Bench.aX !! (sLen (par pUkf) * i + (1 + j))
        = Some (clamp pUkf σ i (x_prev i - mat_at 1 S i (j - 1))%Qc).
Proof.
  intros pUkf σ N.
  apply (ukf_sigmapoint_columns N pUkf σ 1 Bench.aPxx Bench.aX Bench.ax);
    try reflexivity; try discriminate.
  - repeat split; vm_compute; reflexivity.
  - repeat split; vm_compute; reflexivity.
  - repeat split; vm_compute; reflexivity.
  - split; [discriminate|]. split; [discriminate|]. split.
    + intros i Hi. replace i with 0 by lia. vm_compute. lia.
    + vm_compute. lia.
Defined.

(** The single-state filter with mean 3 and covariance 4: the factor is 2,
    the scale [sqrt (1 + 0)] is 1, and the sigma points are 3, 5 and 1;
    limited to [2, 4] they are 3, 4 and 2. *)
Example sigma_points_of_primed_filter :
  let plain := ukf_fields Bench.plain (Bench.q 1) (Bench.q 2) (Bench.q 0) in
  let limited := ukf_fields Bench.limited (Bench.q 1) (Bench.q 2) (Bench.q 0) in
  let run := ukf_sigmapoint Bench.scalar_numerics plain Bench.primed_mem in
  let run' := ukf_sigmapoint Bench.scalar_numerics limited Bench.limited_mem in
  (peek Bench.aX 0 run = Some (Bench.q 3) ∧
   peek Bench.aX 1 run = Some (Bench.q 5) ∧
   peek Bench.aX 2 run = Some (Bench.q 1)) ∧
  (peek Bench.aX 0 run' = Some (Bench.q 3) ∧
   peek Bench.aX 1 run' = Some (Bench.q 4) ∧
   peek Bench.aX 2 run' = Some (Bench.q 2)).
Proof. intros plain limited run run'. apply (bool_decide_unpack _). by vm_compute. Qed.

(** * The state limiter *)

Lemma limiter_disabled state min max :
  ukf_state_limiter state min max 0 = state.
Proof. done. Qed.

Lemma limiter_enabled state min max enbl :
  (min ≤ max)%Qc → enbl ≠ 0 →
  (min ≤ ukf_state_limiter state min max enbl)%Qc ∧
  (ukf_state_limiter state min max enbl ≤ max)%Qc ∧
  ((min ≤ state)%Qc → (state ≤ max)%Qc →
   ukf_state_limiter state min max enbl = state).
Proof.
  intros Hmm Hen. unfold ukf_state_limiter.
  apply Nat.eqb_neq in Hen. rewrite Hen. simpl.
  destruct (fltb state min) eqn:E1; [|destruct (fltb max state) eqn:E2].
  - apply fltb_lt in E1. split; [apply Qcle_refl|]. split; [done|].
    intros H1 _. by apply Qcle_not_lt in H1.
  - apply fltb_ge in E1. apply fltb_lt in E2.
    split; [done|]. split; [apply Qcle_refl|].
    intros _ H2. by apply Qcle_not_lt in H2.
  - apply fltb_ge in E1. apply fltb_ge in E2. by repeat split.
Qed.

(** X1.  A disabled limiter returns its argument whatever the limits
    are; an enabled limiter with [min ≤ max] returns a value within
    [[min, max]], and returns its argument when that already lies within. *)
Theorem ukf_state_limiter_range state min max enbl :
  (enbl = 0 → ukf_state_limiter state min max enbl = state) ∧
  (enbl ≠ 0 → (min ≤ max)%Qc →
     (min ≤ ukf_state_limiter state min max enbl)%Qc ∧
     (ukf_state_limiter state min max enbl ≤ max)%Qc ∧
     ((min ≤ state)%Qc → (state ≤ max)%Qc →
      ukf_state_limiter state min max enbl = state)).
Proof.
  split.
  - intros ->. apply limiter_disabled.
  - intros Hen Hmm. by apply limiter_enabled.
Qed.

Lemma ukf_state_limiter_range_witness :
  let r := ukf_state_limiter (Bench.q 5) (Bench.q 2) (Bench.q 4) 1 in
  (1 = 0 → r = Bench.q 5) ∧
  (1 ≠ 0 → (Bench.q 2 ≤ Bench.q 4)%Qc →
     (Bench.q 2 ≤ r)%Qc ∧ (r ≤ Bench.q 4)%Qc ∧
     ((Bench.q 2 ≤ Bench.q 5)%Qc → (Bench.q 5 ≤ Bench.q 4)%Qc → r = Bench.q 5)).
Proof.
  intros r.
  exact (ukf_state_limiter_range (Bench.q 5) (Bench.q 2) (Bench.q 4) 1).
Defined.

(** * What a computation may write *)

Section Frames.
Context {A B : Type} (W : ptr → Prop).

Lemma writes_only_ret (a : A) : writes_only W (mret a : M A).
Proof. by intros σ ? ? [= <- <-]. Qed.

Lemma writes_only_bind (m : M A) (f : A → M B) :
  writes_only W m → (∀ a, writes_only W (f a)) → writes_only W (m ≫= f).
Proof.
  intros Hm Hf σ b σ'' (a & σ' & H1 & H2)%bind_done q Hq.
  by rewrite (Hf _ _ _ _ H2), (Hm _ _ _ H1).
Qed.

Lemma writes_only_if (b : bool) (m1 m2 : M A) :
  writes_only W m1 → writes_only W m2 → writes_only W (if b then m1 else m2).
Proof. by destruct b. Qed.

Lemma writes_only_decide (P : Prop) `{Decision P} (m1 m2 : M A) :
  writes_only W m1 → writes_only W m2 →
  writes_only W (if decide P then m1 else m2).
Proof. by case_decide. Qed.

Lemma keeps_flags_ret (a : A) : keeps_flags (mret a : M A).
Proof. by intros σ ? ? [= <- <-]. Qed.

Lemma keeps_flags_bind (m : M A) (f : A → M B) :
  keeps_flags m → (∀ a, keeps_flags (f a)) → keeps_flags (m ≫= f).
Proof.
  intros Hm Hf σ b σ'' (a & σ' & H1 & H2)%bind_done.
  by rewrite (Hf _ _ _ _ H2), (Hm _ _ _ H1).
Qed.

Lemma keeps_flags_if (b : bool) (m1 m2 : M A) :
  keeps_flags m1 → keeps_flags m2 → keeps_flags (if b then m1 else m2).
Proof. by destruct b. Qed.

Lemma keeps_flags_decide (P : Prop) `{Decision P} (m1 m2 : M A) :
  keeps_flags m1 → keeps_flags m2 → keeps_flags (if decide P then m1 else m2).
Proof. by case_decide. Qed.

End Frames.

Lemma writes_only_mono {A} (W W' : ptr → Prop) (m : M A) :
  (∀ q, W q → W' q) → writes_only W m → writes_only W' m.
Proof. intros HW Hm σ a σ' Hrun q Hq. apply (Hm _ _ _ Hrun). naive_solver. Qed.

Section FramesOfAccesses.
Context (W : ptr → Prop).

Lemma writes_only_load v i : writes_only W (load v i).
Proof.
  intros σ a σ'. unfold load. destruct v; [|done].
  destruct (_ !! _); [|done]. by intros [= <- <-].
Qed.

Lemma writes_only_store v i a :
  (∀ p, v = Some p → W p) → writes_only W (store v i a).
Proof.
  intros HW σ t σ'. unfold store. destruct v as [p|]; [|done].
  case_decide; [|done]. intros [= <- <-] q Hq.
  apply fmem_fupd_ne. intros ->. apply Hq. by apply HW.
Qed.

Lemma writes_only_load_flag v i : writes_only W (load_flag v i).
Proof.
  intros σ a σ'. unfold load_flag. destruct v; [|done].
  destruct (_ !! _); [|done]. by intros [= <- <-].
Qed.

Lemma writes_only_store_flag v i a : writes_only W (store_flag v i a).
Proof.
  intros σ t σ'. unfold store_flag. destruct v as [p|]; [|done].
  case_decide; [|done]. by intros [= <- <-].
Qed.

Lemma writes_only_read_block v n : writes_only W (read_block v n).
Proof. by intros σ l σ' (-> & _)%read_block_done. Qed.

Lemma writes_only_write_block v l :
  (∀ p, v = Some p → W p) → writes_only W (write_block v l).
Proof.
  intros HW σ t σ' (p & -> & _ & ->)%write_block_done q Hq.
  apply fmem_fupd_ne. intros ->. apply Hq. by apply HW.
Qed.

Lemma writes_only_iter_from n lo body :
  (∀ i, writes_only W (body i)) → writes_only W (iter_from n lo body).
Proof.
  intros Hb. revert lo. induction n as [|n IH]; intros lo; simpl.
  - apply writes_only_ret.
  - apply writes_only_bind; [apply Hb|]. intros _. apply IH.
Qed.

Lemma writes_only_for lo hi body :
  (∀ i, writes_only W (body i)) → writes_only W (for_ lo hi body).
Proof. apply writes_only_iter_from. Qed.

Lemma writes_only_call_slot {F} (table : list (option F)) i run absent :
  (∀ f, Some f ∈ table → writes_only W (run f)) →
  writes_only W absent →
  writes_only W (call_slot table i run absent).
Proof.
  intros Hrun Habs. unfold call_slot.
  destruct (table !! i) as [[f|]|] eqn:E; [| done |by intros ?].
  apply Hrun. by eapply list_elem_of_lookup_2.
Qed.

End FramesOfAccesses.

Lemma keeps_flags_load v i : keeps_flags (load v i).
Proof.
  intros σ a σ'. unfold load. destruct v; [|done].
  destruct (_ !! _); [|done]. by intros [= <- <-].
Qed.

Lemma keeps_flags_store v i a : keeps_flags (store v i a).
Proof.
  intros σ t σ'. unfold store. destruct v as [p|]; [|done].
  case_decide; [|done]. by intros [= <- <-].
Qed.

Lemma keeps_flags_load_flag v i : keeps_flags (load_flag v i).
Proof.
  intros σ a σ'. unfold load_flag. destruct v; [|done].
  destruct (_ !! _); [|done]. by intros [= <- <-].
Qed.

Lemma keeps_flags_read_block v n : keeps_flags (read_block v n).
Proof. by intros σ l σ' (-> & _)%read_block_done. Qed.

Lemma keeps_flags_write_block v l : keeps_flags (write_block v l).
Proof. by intros σ t σ' (p & -> & _ & ->)%write_block_done. Qed.

Lemma keeps_flags_iter_from n lo body :
  (∀ i, keeps_flags (body i)) → keeps_flags (iter_from n lo body).
Proof.
  intros Hb. revert lo. induction n as [|n IH]; intros lo; simpl.
  - apply keeps_flags_ret.
  - apply keeps_flags_bind; [apply Hb|]. intros _. apply IH.
Qed.

Lemma keeps_flags_for lo hi body :
  (∀ i, keeps_flags (body i)) → keeps_flags (for_ lo hi body).
Proof. apply keeps_flags_iter_from. Qed.

Lemma keeps_flags_call_slot {F} (table : list (option F)) i run absent :
  (∀ f, Some f ∈ table → keeps_flags (run f)) →
  keeps_flags absent →
  keeps_flags (call_slot table i run absent).
Proof.
  intros Hrun Habs. unfold call_slot.
  destruct (table !! i) as [[f|]|] eqn:E; [| done |by intros ?].
  apply Hrun. by eapply list_elem_of_lookup_2.
Qed.

(** Break a computation down to its accesses; stores and block writes leave
    the obligation that their address is in the permitted set. *)
Ltac frames :=
  repeat first
    [ apply writes_only_ret | apply writes_only_load
    | apply writes_only_load_flag | apply writes_only_store_flag
    | apply writes_only_read_block
    | apply writes_only_bind; [|intros ?] | apply writes_only_for; intros ?
    | apply writes_only_decide | apply writes_only_if
    | apply writes_only_store | apply writes_only_write_block
    | progress unfold when_ ].

Ltac flags :=
  repeat first
    [ apply keeps_flags_ret | apply keeps_flags_load | apply keeps_flags_store
    | apply keeps_flags_load_flag
    | apply keeps_flags_read_block | apply keeps_flags_write_block
    | apply keeps_flags_bind; [|intros ?] | apply keeps_flags_for; intros ?
    | apply keeps_flags_decide | apply keeps_flags_if
    | progress unfold when_ ].

(** An address of one of the listed matrices. *)
Ltac stored :=
  let Hp := fresh "Hstored" in
  intros ? Hp; unfold stored_in; rewrite <-Hp; simpl;
  rewrite ?elem_of_cons; auto 20.

(** * What the matrix operations write *)

Section FramesOfOperations.
Context (W : ptr → Prop).
Implicit Types (m dst src : tMatrix).

Lemma writes_only_mtx_cpy dst src :
  (∀ p, val dst = Some p → W p) → writes_only W (mtx_cpy dst src).
Proof. intros. unfold mtx_cpy. by frames. Qed.

Lemma writes_only_mtx_zeros m :
  (∀ p, val m = Some p → W p) → writes_only W (mtx_zeros m).
Proof. intros. unfold mtx_zeros. by frames. Qed.

Lemma writes_only_mtx_identity m :
  (∀ p, val m = Some p → W p) → writes_only W (mtx_identity m).
Proof. intros. unfold mtx_identity. by frames. Qed.

Lemma writes_only_mtx_mul_scalar m s :
  (∀ p, val m = Some p → W p) → writes_only W (mtx_mul_scalar m s).
Proof. intros. unfold mtx_mul_scalar. by frames. Qed.

Lemma writes_only_mtx_add dst src :
  (∀ p, val dst = Some p → W p) → writes_only W (mtx_add dst src).
Proof. intros. unfold mtx_add. by frames. Qed.

Lemma writes_only_mtx_sub dst src :
  (∀ p, val dst = Some p → W p) → writes_only W (mtx_sub dst src).
Proof. intros. unfold mtx_sub. by frames. Qed.

Lemma writes_only_mtx_mul src1 src2 dst :
  (∀ p, val dst = Some p → W p) → writes_only W (mtx_mul src1 src2 dst).
Proof. intros. unfold mtx_mul. by frames. Qed.

Lemma writes_only_mtx_mul_src2tr src1 src2 dst :
  (∀ p, val dst = Some p → W p) → writes_only W (mtx_mul_src2tr src1 src2 dst).
Proof. intros. unfold mtx_mul_src2tr. by frames. Qed.

Lemma writes_only_mtx_chol_lower N m :
  (∀ p, val m = Some p → W p) → writes_only W (mtx_chol_lower N m).
Proof. intros. unfold mtx_chol_lower. by frames. Qed.

Lemma writes_only_mtx_inv N src dst :
  (∀ p, val src = Some p → W p) → (∀ p, val dst = Some p → W p) →
  writes_only W (mtx_inv N src dst).
Proof. intros. unfold mtx_inv. by frames. Qed.

End FramesOfOperations.

Lemma keeps_flags_mtx_cpy dst src : keeps_flags (mtx_cpy dst src).
Proof. unfold mtx_cpy. flags. Qed.

Lemma keeps_flags_mtx_zeros m : keeps_flags (mtx_zeros m).
Proof. unfold mtx_zeros. flags. Qed.

Lemma keeps_flags_mtx_identity m : keeps_flags (mtx_identity m).
Proof. unfold mtx_identity. flags. Qed.

Lemma keeps_flags_mtx_mul_scalar m s : keeps_flags (mtx_mul_scalar m s).
Proof. unfold mtx_mul_scalar. flags. Qed.

Lemma keeps_flags_mtx_add dst src : keeps_flags (mtx_add dst src).
Proof. unfold mtx_add. flags. Qed.

Lemma keeps_flags_mtx_sub dst src : keeps_flags (mtx_sub dst src).
Proof. unfold mtx_sub. flags. Qed.

Lemma keeps_flags_mtx_mul a b dst : keeps_flags (mtx_mul a b dst).
Proof. unfold mtx_mul. flags. Qed.

Lemma keeps_flags_mtx_mul_src2tr a b dst : keeps_flags (mtx_mul_src2tr a b dst).
Proof. unfold mtx_mul_src2tr. flags. Qed.

Lemma keeps_flags_mtx_chol_lower N m : keeps_flags (mtx_chol_lower N m).
Proof. unfold mtx_chol_lower. flags. Qed.

Lemma keeps_flags_mtx_inv N src dst : keeps_flags (mtx_inv N src dst).
Proof. unfold mtx_inv. flags. Qed.

(** * What the stages of a step write *)

Section StepFrames.
Variables (N : numerics) (pUkf : tUKF).
#[local] Abbreviation W := (stored_in (step_targets pUkf)).

Lemma writes_only_state_limits W' xIdx : writes_only W' (state_limits pUkf xIdx).
Proof. unfold state_limits. frames. Qed.

Lemma keeps_flags_state_limits xIdx : keeps_flags (state_limits pUkf xIdx).
Proof. unfold state_limits. flags. Qed.

Lemma writes_only_ukf_sigmapoint : writes_only W (ukf_sigmapoint N pUkf).
Proof.
  unfold ukf_sigmapoint.
  apply writes_only_bind; [apply writes_only_mtx_chol_lower; stored|].
  intros r. apply writes_only_decide; [|frames].
  apply writes_only_bind.
  { apply writes_only_for. intros i.
    apply writes_only_bind; [apply writes_only_state_limits|].
    intros [[??]?]. frames. stored. }
  intros _. apply writes_only_bind; [apply writes_only_mtx_mul_scalar; stored|].
  intros _. apply writes_only_for. intros s. apply writes_only_for. intros i.
  apply writes_only_bind; [apply writes_only_state_limits|].
  intros [[??]?]. frames; stored.
Qed.

Lemma keeps_flags_ukf_sigmapoint : keeps_flags (ukf_sigmapoint N pUkf).
Proof.
  unfold ukf_sigmapoint.
  apply keeps_flags_bind; [apply keeps_flags_mtx_chol_lower|].
  intros r. apply keeps_flags_decide; [|flags].
  apply keeps_flags_bind.
  { apply keeps_flags_for. intros i.
    apply keeps_flags_bind; [apply keeps_flags_state_limits|].
    intros [[??]?]. flags. }
  intros _. apply keeps_flags_bind; [apply keeps_flags_mtx_mul_scalar|].
  intros _. apply keeps_flags_for. intros s. apply keeps_flags_for. intros i.
  apply keeps_flags_bind; [apply keeps_flags_state_limits|].
  intros [[??]?]. flags.
Qed.

Hypothesis Hpredict : predictors_write_only W pUkf.
Hypothesis Hobserve : observers_write_only W pUkf.

Lemma writes_only_ukf_mean_pred_state : writes_only W (ukf_mean_pred_state pUkf).
Proof.
  unfold ukf_mean_pred_state.
  apply writes_only_for. intros i. apply writes_only_bind; [frames; stored|].
  intros _. apply writes_only_for. intros s.
  apply writes_only_bind; [|intros _; frames; stored].
  apply writes_only_call_slot; [|frames]. intros f Hin. by apply (Hpredict f Hin).
Qed.

Lemma keeps_flags_ukf_mean_pred_state : keeps_flags (ukf_mean_pred_state pUkf).
Proof.
  unfold ukf_mean_pred_state.
  apply keeps_flags_for. intros i. apply keeps_flags_bind; [flags|].
  intros _. apply keeps_flags_for. intros s.
  apply keeps_flags_bind; [|intros _; flags].
  apply keeps_flags_call_slot; [|flags]. intros f Hin. by apply (Hpredict f Hin).
Qed.

Lemma writes_only_ukf_mean_pred_output : writes_only W (ukf_mean_pred_output pUkf).
Proof.
  unfold ukf_mean_pred_output.
  apply writes_only_bind; [apply writes_only_mtx_zeros; stored|]. intros _.
  apply writes_only_bind; [apply writes_only_mtx_cpy; stored|]. intros _.
  apply writes_only_for. intros s. apply writes_only_bind; [frames; stored|].
  intros _. apply writes_only_for. intros j.
  apply writes_only_bind; [|intros _; frames; stored].
  unfold observe_sigma. apply writes_only_call_slot; [|frames; stored].
  intros f Hin. by apply (Hobserve f Hin).
Qed.

Lemma keeps_flags_ukf_mean_pred_output : keeps_flags (ukf_mean_pred_output pUkf).
Proof.
  unfold ukf_mean_pred_output.
  apply keeps_flags_bind; [apply keeps_flags_mtx_zeros|]. intros _.
  apply keeps_flags_bind; [apply keeps_flags_mtx_cpy|]. intros _.
  apply keeps_flags_for. intros s. apply keeps_flags_bind; [flags|].
  intros _. apply keeps_flags_for. intros j.
  apply keeps_flags_bind; [|intros _; flags].
  unfold observe_sigma. apply keeps_flags_call_slot; [|flags].
  intros f Hin. by apply (Hobserve f Hin).
Qed.

Lemma writes_only_ukf_calc_covariances : writes_only W (ukf_calc_covariances pUkf).
Proof.
  unfold ukf_calc_covariances.
  apply writes_only_bind; [apply writes_only_mtx_cpy; stored|]. intros _.
  apply writes_only_bind; [apply writes_only_mtx_zeros; stored|]. intros _.
  frames; stored.
Qed.

Lemma keeps_flags_ukf_calc_covariances : keeps_flags (ukf_calc_covariances pUkf).
Proof.
  unfold ukf_calc_covariances.
  apply keeps_flags_bind; [apply keeps_flags_mtx_cpy|]. intros _.
  apply keeps_flags_bind; [apply keeps_flags_mtx_zeros|]. intros _.
  flags.
Qed.

Lemma writes_only_ukf_meas_update : writes_only W (ukf_meas_update N pUkf).
Proof.
  unfold ukf_meas_update.
  repeat (apply writes_only_bind; [|intros _]); try apply writes_only_ret;
    first [ apply writes_only_mtx_identity | apply writes_only_mtx_cpy
          | apply writes_only_mtx_inv | apply writes_only_mtx_mul
          | apply writes_only_mtx_sub | apply writes_only_mtx_add
          | apply writes_only_mtx_mul_src2tr ]; stored.
Qed.

Lemma keeps_flags_ukf_meas_update : keeps_flags (ukf_meas_update N pUkf).
Proof.
  unfold ukf_meas_update.
  repeat (apply keeps_flags_bind; [|intros _]); try apply keeps_flags_ret;
    first [ apply keeps_flags_mtx_identity | apply keeps_flags_mtx_cpy
          | apply keeps_flags_mtx_inv | apply keeps_flags_mtx_mul
          | apply keeps_flags_mtx_sub | apply keeps_flags_mtx_add
          | apply keeps_flags_mtx_mul_src2tr ].
Qed.

Lemma writes_only_store_prev_inputs : writes_only W (store_prev_inputs pUkf).
Proof. unfold store_prev_inputs. frames. stored. Qed.

Lemma keeps_flags_store_prev_inputs : keeps_flags (store_prev_inputs pUkf).
Proof. unfold store_prev_inputs. flags. Qed.

Lemma writes_only_ukf_step : writes_only W (ukf_step N pUkf).
Proof.
  unfold ukf_step.
  apply writes_only_bind; [apply writes_only_ukf_sigmapoint|]. intros _.
  apply writes_only_bind; [apply writes_only_ukf_mean_pred_state|]. intros _.
  apply writes_only_bind; [apply writes_only_ukf_mean_pred_output|]. intros _.
  apply writes_only_bind; [apply writes_only_ukf_calc_covariances|]. intros _.
  apply writes_only_bind; [apply writes_only_ukf_meas_update|]. intros _.
  apply writes_only_store_prev_inputs.
Qed.

Lemma keeps_flags_ukf_step : keeps_flags (ukf_step N pUkf).
Proof.
  unfold ukf_step.
  apply keeps_flags_bind; [apply keeps_flags_ukf_sigmapoint|]. intros _.
  apply keeps_flags_bind; [apply keeps_flags_ukf_mean_pred_state|]. intros _.
  apply keeps_flags_bind; [apply keeps_flags_ukf_mean_pred_output|]. intros _.
  apply keeps_flags_bind; [apply keeps_flags_ukf_calc_covariances|]. intros _.
  apply keeps_flags_bind; [apply keeps_flags_ukf_meas_update|]. intros _.
  apply keeps_flags_store_prev_inputs.
Qed.

(** X2.  A step whose callbacks write nowhere but into the matrices the
    step itself stores into changes no other buffer and no limiter flag: the
    weights, the noise covariances, the limiter table and the initial values
    come out of [ukf_step] as they went in. *)
Theorem ukf_step_writes_within σ σ' :
  ukf_step N pUkf σ = Done tt σ' →
  bmem σ' = bmem σ ∧
  ∀ q, ¬ stored_in (step_targets pUkf) q → fmem σ' q = fmem σ q.
Proof.
  intros Hrun. split.
  - by apply (keeps_flags_ukf_step _ _ _ Hrun).
  - by apply (writes_only_ukf_step _ _ _ Hrun).
Qed.

End StepFrames.

Lemma bench_callbacks_write_within :
  predictors_write_only (stored_in (step_targets (Cases.filter_of Bench.follower)))
                        (Cases.filter_of Bench.follower) ∧
  observers_write_only (stored_in (step_targets (Cases.filter_of Bench.follower)))
                       (Cases.filter_of Bench.follower).
Proof.
  split.
  - intros f Hin s. apply list_elem_of_In in Hin. simpl in Hin.
    destruct Hin as [[= <-]|[]].
    unfold predict_call, Bench.follow_input. split; [frames; stored|flags].
  - intros f Hin s. apply list_elem_of_In in Hin. simpl in Hin.
    destruct Hin as [[= <-]|[]].
    unfold observe_call, Bench.observe_state. split; [frames; stored|flags].
Qed.

Lemma ukf_step_writes_within_witness :
  let pUkf := Cases.filter_of Bench.follower in
  let σ := Cases.follower_ready in
  let σ' := memory_after (ukf_step Bench.scalar_numerics pUkf) σ in
  bmem σ' = bmem σ ∧
  ∀ q, ¬ stored_in (step_targets pUkf) q → fmem σ' q = fmem σ q.
Proof.
  intros pUkf σ σ'.
  apply (ukf_step_writes_within Bench.scalar_numerics pUkf
           (proj1 bench_callbacks_write_within)
           (proj2 bench_callbacks_write_within) σ σ').
  vm_compute. reflexivity.
Defined.

(** * The dimension check *)

Lemma status_single (a d : bool) r l :
  r = status_of l →
  check_single a d r = status_of ((a || d) :: l).
Proof. intros ->. unfold check_single, status_of. simpl. by destruct a, d, (existsb id l). Qed.

Lemma status_pair (a b d e : bool) r l :
  r = status_of l →
  check_pair a b d e r = status_of ((a || b || (d && e)) :: l).
Proof.
  intros ->. unfold check_pair, status_of. simpl.
  by destruct a, b, d, e, (existsb id l).
Qed.

Lemma status_optional (a b d e : bool) r l :
  r = status_of l →
  check_optional a b d e r
  = status_of ((negb a && negb b && (d && e)) :: l).
Proof.
  intros ->. unfold check_optional, status_of. simpl.
  by destruct a, b, d, e, (existsb id l).
Qed.

Lemma status_of_rev l : status_of (rev l) = status_of l.
Proof.
  unfold status_of. induction l as [|b l IH]; [done|]. simpl.
  rewrite existsb_app. simpl. destruct (existsb id (rev l)), (existsb id l), b;
    simpl in *; congruence.
Qed.

(** The source text of [ukf_dimension_check] is the composition of its
    blocks. *)
Lemma dimension_check_unfolds pUkf :
  ukf_dimension_check pUkf = dimension_check_blocks pUkf.
Proof. reflexivity. Qed.

Lemma dimension_check_status pUkf :
  ukf_dimension_check pUkf = status_of (dimension_faults pUkf).
Proof.
  rewrite dimension_check_unfolds, <-status_of_rev.
  unfold dimension_check_blocks. cbv zeta.
  repeat first [ apply status_single | apply status_pair
               | apply status_optional ].
  done.
Qed.

Lemma missing_present m : missing m = false ↔ present m.
Proof. unfold missing, present. by destruct (val m). Qed.

Lemma shape_differs_shaped m r c : shape_differs m r c = false ↔ shaped m r c.
Proof.
  unfold shape_differs, shaped.
  rewrite orb_false_iff, !negb_false_iff, !Nat.eqb_eq. done.
Qed.

Lemma single_accepted m r c :
  missing m || shape_differs m r c = false ↔ present m ∧ shaped m r c.
Proof. by rewrite orb_false_iff, missing_present, shape_differs_shaped. Qed.

Lemma pair_accepted a b r c :
  missing a || missing b || (shape_differs a r c && shape_differs b r c) = false
  ↔ present a ∧ present b ∧ (shaped a r c ∨ shaped b r c).
Proof.
  rewrite !orb_false_iff, andb_false_iff, !missing_present,
    !shape_differs_shaped. tauto.
Qed.

Lemma optional_accepted a b r c :
  negb (missing a) && negb (missing b)
  && (shape_differs a r c && shape_differs b r c) = false
  ↔ (present a → present b → shaped a r c ∨ shaped b r c).
Proof.
  rewrite <-!shape_differs_shaped, <-!missing_present.
  destruct (missing a), (missing b), (shape_differs a r c),
    (shape_differs b r c); simpl; intuition congruence.
Qed.

Lemma accepted_no_fault pUkf :
  accepted pUkf ↔ existsb id (dimension_faults pUkf) = false.
Proof.
  unfold accepted, dimension_faults. cbv zeta.
  rewrite <-!single_accepted, <-!pair_accepted, <-optional_accepted.
  cbn [existsb id]. rewrite !orb_false_iff. tauto.
Qed.

Lemma accepted_status pUkf :
  accepted pUkf → ukf_dimension_check pUkf = 0.
Proof.
  rewrite dimension_check_status, accepted_no_fault. unfold status_of.
  by intros ->.
Qed.

Lemma rejected_status pUkf :
  ¬ accepted pUkf → ukf_dimension_check pUkf = 1.
Proof.
  rewrite dimension_check_status, accepted_no_fault. unfold status_of.
  by destruct (existsb id (dimension_faults pUkf)).
Qed.

(** X3.  [ukf_dimension_check] returns 0 exactly for the filter structures
    in which every mandatory matrix is present with the declared shape, both
    matrices of the pairs [Wm]/[Wc] and [Pyy]/[Pyy_cpy] are present and at
    least one of each pair has the declared shape, and the inputs [u] and
    [u_p], when both present, are not both mis-shaped; for every other
    structure it returns 1. *)
Theorem ukf_dimension_check_accepts pUkf :
  (accepted pUkf ↔ ukf_dimension_check pUkf = 0) ∧
  (¬ accepted pUkf ↔ ukf_dimension_check pUkf = 1).
Proof.
  pose proof (accepted_status pUkf).
  pose proof (rejected_status pUkf).
  destruct (decide (existsb id (dimension_faults pUkf) = false)) as [H1|H1];
    apply accepted_no_fault in H1 || rewrite <-accepted_no_fault in H1.
  - split; [naive_solver|]. split; [done|]. intros H2.
    rewrite accepted_status in H2 by done. done.
  - split; [|naive_solver]. split; [done|]. intros H2.
    rewrite rejected_status in H2 by done. done.
Qed.

(** X4.  The check reads the three lengths and sixteen matrices only: two
    structures that agree on those get the same status, whatever their
    state vectors [x_p], [x_m], [x], [x_corr], [x0], their [y_m], [X_p],
    [Pxx_p], [Pxx], [Iyy], limiter arrays and callbacks are. *)
Theorem ukf_dimension_check_reads a b :
  checked_alike a b → ukf_dimension_check a = ukf_dimension_check b.
Proof.
  intros (Hx & Hs & Hy & Hm). rewrite !dimension_check_status.
  unfold dimension_faults. rewrite Hx, Hs, Hy.
  injection Hm as -> -> -> -> -> -> -> -> -> -> -> -> -> -> -> ->. done.
Qed.

Lemma ukf_dimension_check_reads_witness :
  checked_alike (Cases.filter_of Bench.plain) (Cases.filter_of Bench.limited) ∧
  ukf_dimension_check (Cases.filter_of Bench.plain)
  = ukf_dimension_check (Cases.filter_of Bench.limited).
Proof.
  assert (checked_alike (Cases.filter_of Bench.plain)
                        (Cases.filter_of Bench.limited)) as H.
  { by repeat split. }
  split; [exact H|].
  exact (ukf_dimension_check_reads _ _ H).
Defined.

(** * Sigma points: symmetry and limits *)

Lemma wp_run {A} (m : M A) (Q : A → memory → Prop) σ a σ' :
  m σ = Done a σ' → wp m Q σ → Q a σ'.
Proof. unfold wp. by intros ->. Qed.

Section SigmaPointShape.
Variables (N : numerics) (pUkf : tUKF) (σ : memory) (nx : nat).
Variables (pP pX px : ptr).

Hypothesis HxLen : xLen (par pUkf) = nx.
Hypothesis HsLen : sLen (par pUkf) = 2 * nx + 1.
Hypothesis HPxx_p : laid_out σ (Pxx_p (prev pUkf)) pP nx nx.
Hypothesis HX_p : laid_out σ (X_p (prev pUkf)) pX nx (2 * nx + 1).
Hypothesis Hx_p : laid_out σ (x_p (prev pUkf)) px nx 1.
Hypothesis HXP : pX ≠ pP.
Hypothesis HXx : pX ≠ px.
Hypothesis HxP : px ≠ pP.
Hypothesis Hlimits : sigma_limits_ready pUkf σ nx pX pP.
Hypothesis Hchol : (chol_factor N nx (fmem σ pP)).1 = MTX_OPERATION_OK.

Lemma sigma_points_stored :
  ∃ σ', ukf_sigmapoint N pUkf σ = Done tt σ' ∧
        ∀ i j, i < nx → j < 2 * nx + 1 →
               fmem σ' pX !! ((2 * nx + 1) * i + j)
               = Some (sigma_point N pUkf σ nx px pP i j).
Proof.
  pose proof (ukf_sigmapoint_total N pUkf σ nx pP pX px HxLen HsLen HPxx_p
                HX_p Hx_p HXP HXx HxP Hlimits Hchol) as Hwp.
  apply wp_done in Hwp as ([] & σ' & Hrun & _ & Hcells).
  by exists σ'.
Qed.

(** X5.  In exact arithmetic, without a limiter on state [i], the sigma
    points of that state are symmetric about the previous mean: column 0
    holds the mean, and columns [j] and [xLen + j] add up to twice the
    mean. *)
Theorem ukf_sigmapoint_symmetric :
  ∃ σ', ukf_sigmapoint N pUkf σ = Done tt σ' ∧
        ∀ i j, i < nx → 1 ≤ j ≤ nx → (limits_of pUkf σ i).2 = 0 →
          ∃ m a b,
            fmem σ px !! i = Some m ∧
            fmem σ' pX !! (sLen (par pUkf) * i + 0) = Some m ∧
            fmem σ' pX !! (sLen (par pUkf) * i + j) = Some a ∧
            fmem σ' pX !! (sLen (par pUkf) * i + (nx + j)) = Some b ∧
            (a + b = 2 * m)%Qc.
Proof.
  destruct sigma_points_stored as (σ' & Hrun & Hcells).
  exists σ'. split; [done|]. intros i j Hi Hj Hoff. rewrite HsLen.
  assert (length (fmem σ px) = nx) as Hlen.
  { destruct Hx_p as (_ & _ & _ & ->). lia. }
  destruct (lookup_lt_is_Some_2 (fmem σ px) i) as [m Hm]; [lia|].
  assert (mat_at 1 (fmem σ px) i 0 = m) as Hat.
  { unfold mat_at. replace (1 * i + 0) with i by lia. by rewrite Hm. }
  set (S := scaled_factor N nx (lambda (par pUkf)) (fmem σ pP)).
  exists m, (m + mat_at nx S i (j - 1))%Qc, (m - mat_at nx S i (j - 1))%Qc.
  split; [done|].
  rewrite !Hcells by lia. unfold sigma_point, clamp. rewrite Hoff, Hat.
  rewrite !limiter_disabled. fold S.
  rewrite decide_True by done.
  rewrite (decide_False (P := j = 0)) by lia.
  rewrite (decide_False (P := nx + j = 0)) by lia.
  rewrite decide_True by lia. rewrite decide_False by lia.
  replace (nx + j - nx - 1) with (j - 1) by lia.
  repeat split. ring.
Qed.

(** X6.  With the limiter of state [i] enabled and [min ≤ max], every sigma
    point of that state lies within [[min, max]]. *)
Theorem ukf_sigmapoint_within_limits :
  ∃ σ', ukf_sigmapoint N pUkf σ = Done tt σ' ∧
        ∀ i j xMin xMax enbl,
          i < nx → j < sLen (par pUkf) →
          limits_of pUkf σ i = (xMin, xMax, enbl) →
          enbl ≠ 0 → (xMin ≤ xMax)%Qc →
          ∃ v, fmem σ' pX !! (sLen (par pUkf) * i + j) = Some v ∧
               (xMin ≤ v)%Qc ∧ (v ≤ xMax)%Qc.
Proof.
  destruct sigma_points_stored as (σ' & Hrun & Hcells).
  exists σ'. split; [done|]. intros i j xMin xMax enbl Hi Hj Hlim Hen Hmm.
  rewrite HsLen in *. rewrite Hcells by done.
  eexists. split; [done|]. unfold sigma_point, clamp. rewrite Hlim. simpl.
  split; by apply limiter_enabled.
Qed.

(** X17.  After a successful factorization the buffer of the previous
    covariance no longer holds a covariance: [ukf_sigmapoint] leaves there
    the lower Cholesky factor scaled by [sqrt (xLen + lambda)]. *)
Theorem ukf_sigmapoint_overwrites_covariance :
  ∃ σ', ukf_sigmapoint N pUkf σ = Done tt σ' ∧
        fmem σ' pP = scaled_factor N nx (lambda (par pUkf)) (fmem σ pP).
Proof.
  destruct sigma_points_stored as (σ' & Hrun & _).
  exists σ'. split; [done|].
  assert (val (X_p (prev pUkf)) = Some pX) as HvX by apply HX_p.
  unfold ukf_sigmapoint in Hrun. cbv zeta in Hrun. rewrite HvX, HxLen in Hrun.
  apply bind_done in Hrun as (r & σ1 & Hfact & Hrun).
  assert (r = MTX_OPERATION_OK ∧ same_sizes σ σ1 ∧
          fmem σ1 pP = resize (nx * nx) 0%Qc (chol_factor N nx (fmem σ pP)).2)
    as (-> & Hs1 & Hv1).
  { apply (wp_run _ (λ r σ1,
      r = MTX_OPERATION_OK ∧ same_sizes σ σ1 ∧
      fmem σ1 pP = resize (nx * nx) 0%Qc (chol_factor N nx (fmem σ pP)).2)
      _ _ _ Hfact).
    eapply (wp_mtx_chol_lower σ σ); [apply same_sizes_refl|done|].
    intros σ0 Hs0 Hv0 _ _. by rewrite Hchol. }
  rewrite decide_True in Hrun by done.
  apply bind_done in Hrun as ([] & σ2 & Hfirst & Hrun).
  apply bind_done in Hrun as (r2 & σ3 & Hscale & Hrest).
  assert (∀ i v, writes_only (λ q, q = pX) (store (Some pX) i v)) as Hstore.
  { intros i v. apply writes_only_store. by intros p [= <-]. }
  assert (∀ x, writes_only (λ q, q = pX) (state_limits pUkf x)) as Hlimit.
  { intros x. unfold state_limits. frames. }
  assert (fmem σ2 pP = fmem σ1 pP) as Hv2.
  { eapply (writes_only_for (λ q, q = pX)); [|exact Hfirst|congruence].
    intros i. apply writes_only_bind; [apply Hlimit|].
    intros [[??]?]. apply writes_only_bind; [apply writes_only_load|].
    intros ?. apply Hstore. }
  assert (fmem σ3 pP = vec_scale (sqrtf N (of_nat nx + lambda (par pUkf))%Qc)
                                 (fmem σ2 pP)) as Hv3.
  { apply (wp_run _ (λ _ σ3,
      fmem σ3 pP = vec_scale (sqrtf N (of_nat nx + lambda (par pUkf))%Qc)
                             (fmem σ2 pP)) _ _ _ Hscale).
    eapply (wp_mtx_mul_scalar σ2 σ2 (same_sizes_refl σ2) _ pP nx nx).
    - destruct HPxx_p as (? & ? & ? & Hl). repeat split; try done.
      by rewrite Hv2, (proj1 Hs1).
    - by intros σ0 _ Hv0 _ _. }
  assert (fmem σ' pP = fmem σ3 pP) as Hv4.
  { eapply (writes_only_for (λ q, q = pX)); [|exact Hrest|congruence].
    intros s. apply writes_only_for. intros i.
    apply writes_only_bind; [apply Hlimit|].
    intros [[??]?]. apply writes_only_decide;
      (apply writes_only_bind; [apply writes_only_load|]; intros ?;
       apply writes_only_bind; [apply writes_only_load|]; intros ?;
       apply Hstore). }
  by rewrite Hv4, Hv3, Hv2, Hv1.
Qed.

End SigmaPointShape.

Lemma ukf_sigmapoint_symmetric_witness :
  let pUkf := Cases.filter_of Bench.plain in
  let σ := Bench.primed_mem in
  ∃ σ', ukf_sigmapoint Bench.scalar_numerics pUkf σ = Done tt σ' ∧
        ∀ i j, i < 1 → 1 ≤ j ≤ 1 → (limits_of pUkf σ i).2 = 0 →
          ∃ m a b,
            fmem σ Bench.ax !! i = Some m ∧
            fmem σ' Bench.aX !! (sLen (par pUkf) * i + 0) = Some m ∧
            fmem σ' Bench.aX !! (sLen (par pUkf) * i + j) = Some a ∧
            fmem σ' Bench.aX !! (sLen (par pUkf) * i + (1 + j)) = Some b ∧
            (a + b = 2 * m)%Qc.
Proof.
  intros pUkf σ.
  apply (ukf_sigmapoint_symmetric Bench.scalar_numerics pUkf σ 1
           Bench.aPxx Bench.aX Bench.ax);
    try reflexivity; try discriminate.
  - repeat split; vm_compute; reflexivity.
  - repeat split; vm_compute; reflexivity.
  - repeat split; vm_compute; reflexivity.
Defined.

Lemma ukf_sigmapoint_within_limits_witness :
  let pUkf := Cases.filter_of Bench.limited in
  let σ := Bench.limited_mem in
  ∃ σ', ukf_sigmapoint Bench.scalar_numerics pUkf σ = Done tt σ' ∧
        ∀ i j xMin xMax enbl,
          i < 1 → j < sLen (par pUkf) →
          limits_of pUkf σ i = (xMin, xMax, enbl) →
          enbl ≠ 0 → (xMin ≤ xMax)%Qc →
          ∃ v, fmem σ' Bench.aX !! (sLen (par pUkf) * i + j) = Some v ∧
               (xMin ≤ v)%Qc ∧ (v ≤ xMax)%Qc.
Proof.
  intros pUkf σ.
  apply (ukf_sigmapoint_within_limits Bench.scalar_numerics pUkf σ 1
           Bench.aPxx Bench.aX Bench.ax);
    try reflexivity; try discriminate.
  - repeat split; vm_compute; reflexivity.
  - repeat split; vm_compute; reflexivity.
  - repeat split; vm_compute; reflexivity.
  - split; [discriminate|]. split; [discriminate|]. split.
    + intros i Hi. replace i with 0 by lia. vm_compute. lia.
    + vm_compute. lia.
Defined.

Lemma ukf_sigmapoint_overwrites_covariance_witness :
  let pUkf := Cases.filter_of Bench.plain in
  let σ := Bench.primed_mem in
  ∃ σ', ukf_sigmapoint Bench.scalar_numerics pUkf σ = Done tt σ' ∧
        fmem σ' Bench.aPxx
        = scaled_factor Bench.scalar_numerics 1 (lambda (par pUkf))
                        (fmem σ Bench.aPxx).
Proof.
  intros pUkf σ.
  apply (ukf_sigmapoint_overwrites_covariance Bench.scalar_numerics pUkf σ 1
           Bench.aPxx Bench.aX Bench.ax);
    try reflexivity; try discriminate.
  - repeat split; vm_compute; reflexivity.
  - repeat split; vm_compute; reflexivity.
  - repeat split; vm_compute; reflexivity.
Defined.

(** * Initialization: limiters, copies and faults *)

Section InitLimiters.
Variables (xLim : tMatrix) (xLimEnbl : tMatrixBool) (pL pE : ptr) (σ : memory).
Hypothesis HL : val xLim = Some pL.
Hypothesis HE : bval xLimEnbl = Some pE.
Hypothesis Hready : limiters_ready σ xLim xLimEnbl.

Lemma wp_init_limiters_flags :
  wp (init_limiters xLim xLimEnbl)
     (λ _ σ',
        fmem σ' = fmem σ ∧
        (∀ q, q ≠ pE → bmem σ' q = bmem σ q) ∧
        length (bmem σ' pE) = length (bmem σ pE) ∧
        ∀ i e, bmem σ pE !! i = Some e →
          bmem σ' pE !! i
          = Some (if decide (i < nrow xLim)
                  then limiter_flag (ncol xLim) (fmem σ pL) i e else e)) σ.
Proof.
  unfold limiters_ready in Hready. unfold init_limiters.
  rewrite HL, HE in *. simpl. destruct Hready as [HlenL HlenE].
  apply (wp_for (λ k σ',
    fmem σ' = fmem σ ∧
    (∀ q, q ≠ pE → bmem σ' q = bmem σ q) ∧
    length (bmem σ' pE) = length (bmem σ pE) ∧
    ∀ i e, bmem σ pE !! i = Some e →
      bmem σ' pE !! i
      = Some (if decide (i < k)
              then limiter_flag (ncol xLim) (fmem σ pL) i e else e))).
  - lia.
  - by repeat split.
  - intros k σ' Hk (Hf & Hb & Hlen & Hflags).
    specialize (HlenL k ltac:(lia)). unfold xEpsIdx, xMaxIdx, xMinIdx in *.
    apply wp_bind. eapply wp_load.
    { rewrite Hf. apply lookup_mat_at. lia. }
    apply wp_bind. eapply wp_load.
    { rewrite Hf. apply lookup_mat_at. lia. }
    apply wp_bind. eapply wp_load.
    { rewrite Hf. by apply lookup_mat_at. }
    destruct (lookup_lt_is_Some_2 (bmem σ pE) k) as [e He]; [lia|].
    pose proof (Hflags k e He) as Hk'. rewrite decide_False in Hk' by lia.
    apply wp_bind. eapply wp_load_flag; [done|].
    assert (∀ v l, length l = length (bmem σ' pE) →
      l !! k = Some v →
      (∀ i, i ≠ k → l !! i = bmem σ' pE !! i) →
      v = limiter_flag (ncol xLim) (fmem σ pL) k e →
      ∀ i e0, bmem σ pE !! i = Some e0 →
        l !! i = Some (if decide (i < S k)
                       then limiter_flag (ncol xLim) (fmem σ pL) i e0 else e0))
      as Hnext.
    { intros v l Hl Hv Hother Hval i e0 He0.
      destruct (decide (i = k)) as [->|Hne].
      - rewrite decide_True by lia. rewrite Hv, Hval. congruence.
      - rewrite Hother, (Hflags i e0) by done.
        destruct (decide (i < k)); [by rewrite decide_True by lia|].
        by rewrite decide_False by lia. }
    unfold when_.
    destruct (negb (e =? 0) && fltb _ _) eqn:Hnarrow.
    + apply wp_store_flag; [lia|].
      split; [done|]. split; [intros q Hq; by rewrite bmem_bupd_ne, Hb|].
      rewrite bmem_bupd_eq. split; [by rewrite length_insert|].
      apply (Hnext 0).
      * by rewrite length_insert.
      * apply list_lookup_insert_eq. lia.
      * intros i Hi. by apply list_lookup_insert_ne.
      * unfold limiter_flag, xMaxIdx, xMinIdx, xEpsIdx. by rewrite Hnarrow.
    + apply wp_ret. split; [done|]. split; [done|]. split; [done|].
      apply (Hnext e); try done.
      unfold limiter_flag, xMaxIdx, xMinIdx, xEpsIdx. by rewrite Hnarrow.
  - done.
Qed.

(** X7.  The limiter block of [ukf_init] completes, leaves every float
    buffer and every other flag buffer alone, and clears exactly the enable
    flags of the states whose limiter was enabled with [max < min + eps];
    a limiter that is still enabled afterwards has [min + eps ≤ max]. *)
Theorem init_limiters_clears_narrow :
  ∃ σ', init_limiters xLim xLimEnbl σ = Done tt σ' ∧
        fmem σ' = fmem σ ∧
        (∀ q, q ≠ pE → bmem σ' q = bmem σ q) ∧
        (∀ i e, bmem σ pE !! i = Some e →
           bmem σ' pE !! i
           = Some (if decide (i < nrow xLim)
                   then limiter_flag (ncol xLim) (fmem σ pL) i e else e)) ∧
        ∀ i e', i < nrow xLim → bmem σ' pE !! i = Some e' → e' ≠ 0 →
          (mat_at (ncol xLim) (fmem σ pL) i xMinIdx
           + mat_at (ncol xLim) (fmem σ pL) i xEpsIdx
           ≤ mat_at (ncol xLim) (fmem σ pL) i xMaxIdx)%Qc.
Proof.
  pose proof wp_init_limiters_flags as Hwp.
  apply wp_done in Hwp as ([] & σ' & Hrun & Hf & Hb & Hlen & Hflags).
  exists σ'. repeat split; try done.
  intros i e' Hi He' Hen.
  destruct (lookup_lt_is_Some_2 (bmem σ pE) i) as [e He].
  { rewrite <-Hlen. by apply lookup_lt_is_Some_1. }
  rewrite (Hflags i e He), decide_True in He' by done.
  injection He' as <-. unfold limiter_flag in Hen.
  destruct (e =? 0) eqn:E0; simpl in Hen; [by apply Nat.eqb_eq in E0|].
  destruct (fltb _ _) eqn:E; [done|]. by apply fltb_ge in E.
Qed.

End InitLimiters.

Lemma init_limiters_clears_narrow_witness :
  let xLim := Bench.at_ Bench.aLim 1 3 in
  let xLimEnbl := MatrixBool (Some Bench.aEnbl) 1 1 in
  let σ := Bench.limited_mem in
  ∃ σ', init_limiters xLim xLimEnbl σ = Done tt σ' ∧
        fmem σ' = fmem σ ∧
        (∀ q, q ≠ Bench.aEnbl → bmem σ' q = bmem σ q) ∧
        (∀ i e, bmem σ Bench.aEnbl !! i = Some e →
           bmem σ' Bench.aEnbl !! i
           = Some (if decide (i < nrow xLim)
                   then limiter_flag (ncol xLim) (fmem σ Bench.aLim) i e
                   else e)) ∧
        ∀ i e', i < nrow xLim → bmem σ' Bench.aEnbl !! i = Some e' → e' ≠ 0 →
          (mat_at (ncol xLim) (fmem σ Bench.aLim) i xMinIdx
           + mat_at (ncol xLim) (fmem σ Bench.aLim) i xEpsIdx
           ≤ mat_at (ncol xLim) (fmem σ Bench.aLim) i xMaxIdx)%Qc.
Proof.
  intros xLim xLimEnbl σ.
  apply (init_limiters_clears_narrow xLim xLimEnbl Bench.aLim Bench.aEnbl σ);
    [reflexivity|reflexivity|].
  split.
  - intros i Hi. simpl in Hi. replace i with 0 by lia. vm_compute. lia.
  - vm_compute. lia.
Defined.

Section InitCopies.
Variables (c : tUkfMatrix) (σ : memory) (al be ka : float) (n : nat).
Variables (pS pWm pWc pP pP0 px px0 : ptr).

Let pUkf := ukf_fields c al be ka.

Hypothesis HS : val (Sc_vector c) = Some pS.
Hypothesis Hal : fmem σ pS !! alphaIdx = Some al.
Hypothesis Hbe : fmem σ pS !! bethaIdx = Some be.
Hypothesis Hka : fmem σ pS !! kappaIdx = Some ka.
Hypothesis HWm : val (Wm_weight_vector c) = Some pWm.
Hypothesis HWc : val (Wc_weight_vector c) = Some pWc.
Hypothesis HlWm : u8 (ncol (Wm_weight_vector c)) = sLen (par pUkf).
Hypothesis HlWc : u8 (ncol (Wc_weight_vector c)) = sLen (par pUkf).
Hypothesis HbWm : sLen (par pUkf) ≤ length (fmem σ pWm).
Hypothesis HbWc : sLen (par pUkf) ≤ length (fmem σ pWc).
Hypothesis Hlim :
  limiters_ready σ (x_system_states_limits c) (x_system_states_limits_enable c).
Hypothesis HP : laid_out σ (Pxx_error_covariance c) pP n n.
Hypothesis HP0 : laid_out σ (Pxx0_init_error_covariance c) pP0 n n.
Hypothesis Hx : laid_out σ (x_system_states c) px n 1.
Hypothesis Hx0 : laid_out σ (x_system_states_ic c) px0 n 1.
Hypothesis Hdistinct : NoDup [pWm; pWc; pP; pP0; px; px0].

Lemma ukf_init_copies :
  wp (ukf_init c)
     (λ r σ', r = (ukf_dimension_check pUkf, pUkf) ∧
              fmem σ' pP = fmem σ pP0 ∧ fmem σ' px = fmem σ px0 ∧
              fmem σ' pP0 = fmem σ pP0 ∧ fmem σ' px0 = fmem σ px0) σ.
Proof.
  split_distinct Hdistinct.
  unfold ukf_init. rewrite HS.
  apply wp_bind. eapply wp_load; [done|].
  apply wp_bind. eapply wp_load; [done|].
  apply wp_bind. eapply wp_load; [done|].
  fold pUkf. rewrite HlWm, HlWc.
  apply wp_bind. eapply wp_mono; [|by apply wp_init_limiters].
  intros _ σ1 [Hf1 Hs1]. simpl.
  apply wp_bind. eapply wp_mono;
    [|apply (wp_init_weights _ _ pWm pWc); try done;
      [apply u8_odd_pos|rewrite Hf1; done..]].
  intros _ σ2 (Hs2 & Hframe2 & _). simpl.
  assert (same_sizes σ σ2) as Hs02 by by eapply same_sizes_trans.
  apply wp_bind. eapply (wp_mtx_cpy σ σ2); [done..|].
  intros σ3 Hs3 Hv3 Hframe3 Hb3.
  apply wp_bind. eapply (wp_mtx_cpy σ σ3); [done..|].
  intros σ4 Hs4 Hv4 Hframe4 Hb4.
  apply wp_ret. split; [done|].
  rewrite Hv4, (Hframe4 pP), (Hframe4 pP0), (Hframe4 px0) by done.
  rewrite Hv3, !(Hframe3 px0), !(Hframe3 pP0) by done.
  rewrite !(Hframe2 pP0), !(Hframe2 px0) by done.
  by rewrite Hf1.
Qed.

(** X8.  On a prepared configuration [ukf_init] completes and leaves the
    initial state [x0] in the state vector and the initial covariance
    [Pxx0] in the error covariance: the buffers the returned structure
    names as previous state and previous covariance of the first step. *)
Theorem ukf_init_loads_initial_values :
  ∃ st r σ',
    ukf_init c σ = Done (st, r) σ' ∧
    val (x_p (prev r)) = Some px ∧ val (Pxx_p (prev r)) = Some pP ∧
    fmem σ' px = fmem σ px0 ∧ fmem σ' pP = fmem σ pP0.
Proof.
  pose proof ukf_init_copies as Hwp.
  apply wp_done in Hwp as ([st r] & σ' & Hrun & [= -> ->] & HfP & Hfx & _).
  exists (ukf_dimension_check pUkf), pUkf, σ'.
  split; [done|]. split; [apply Hx|]. split; [apply HP|]. done.
Qed.

End InitCopies.

Lemma ukf_init_loads_initial_values_witness :
  let c := Bench.plain in
  let σ := Bench.plain_mem in
  ∃ st r σ',
    ukf_init c σ = Done (st, r) σ' ∧
    val (x_p (prev r)) = Some Bench.ax ∧
    val (Pxx_p (prev r)) = Some Bench.aPxx ∧
    fmem σ' Bench.ax = fmem σ Bench.ax0 ∧
    fmem σ' Bench.aPxx = fmem σ Bench.aPxx0.
Proof.
  intros c σ.
  apply (ukf_init_loads_initial_values c σ (Bench.q 1) (Bench.q 2) (Bench.q 0)
           1 Bench.aSc Bench.aWm Bench.aWc Bench.aPxx Bench.aPxx0
           Bench.ax Bench.ax0);
    first [ reflexivity | vm_compute; lia | bench_layout ].
Defined.

Lemma bind_run {A B} (m : M A) (f : A → M B) σ a σ' :
  m σ = Done a σ' → (m ≫= f) σ = f a σ'.
Proof. unfold mbind, M_bind. by intros ->. Qed.

Lemma load_run p i v σ : fmem σ p !! i = Some v → load (Some p) i σ = Done v σ.
Proof. unfold load. by intros ->. Qed.

(** X9.  [ukf_init] writes the weights before it validates anything: when
    the declared weight lengths fit but [Wm] has no storage, initialization
    faults on the NULL pointer, although the dimension check would have
    reported the structure as not OK. *)
Theorem ukf_init_null_weights c σ pS al be ka :
  let pUkf := ukf_fields c al be ka in
  val (Sc_vector c) = Some pS →
  fmem σ pS !! alphaIdx = Some al →
  fmem σ pS !! bethaIdx = Some be →
  fmem σ pS !! kappaIdx = Some ka →
  limiters_ready σ (x_system_states_limits c) (x_system_states_limits_enable c) →
  u8 (ncol (Wm_weight_vector c)) = sLen (par pUkf) →
  u8 (ncol (Wc_weight_vector c)) = sLen (par pUkf) →
  val (Wm_weight_vector c) = None →
  ukf_init c σ = Fault NullPointer ∧ ukf_dimension_check pUkf = 1.
Proof.
  intros pUkf HS Hal Hbe Hka Hlim HlM HlC HM. split.
  - unfold ukf_init. rewrite HS.
    rewrite (bind_run _ _ σ al σ) by by apply load_run.
    rewrite (bind_run _ _ σ be σ) by by apply load_run.
    rewrite (bind_run _ _ σ ka σ) by by apply load_run.
    fold pUkf.
    pose proof (wp_init_limiters _ _ _ Hlim) as Hwp.
    apply wp_done in Hwp as ([] & σ1 & Hrun & _).
    rewrite (bind_run _ _ σ tt σ1) by exact Hrun.
    unfold init_weights. rewrite HlM, HlC, Nat.eqb_refl. simpl. by rewrite HM.
  - apply rejected_status. unfold accepted, present.
    intros (_ & _ & (Hpresent & _) & _). by apply Hpresent.
Qed.

Lemma ukf_init_null_weights_witness :
  let c := Bench.with_Wm (Matrix None 1 3) Bench.plain in
  ukf_init c Bench.plain_mem = Fault NullPointer ∧
  ukf_dimension_check (ukf_fields c (Bench.q 1) (Bench.q 2) (Bench.q 0)) = 1.
Proof.
  intros c.
  apply (ukf_init_null_weights c Bench.plain_mem Bench.aSc);
    first [ reflexivity | vm_compute; lia | bench_layout ].
Defined.

(** * What initialization writes *)

Lemma writes_only_init_limiters W xLim xLimEnbl :
  writes_only W (init_limiters xLim xLimEnbl).
Proof. unfold init_limiters. frames. Qed.

Lemma writes_only_init_weights W wm wc WmLen WcLen xLen sLen al be lam :
  (∀ p, val wm = Some p → W p) → (∀ p, val wc = Some p → W p) →
  writes_only W (init_weights wm wc WmLen WcLen xLen sLen al be lam).
Proof. intros. unfold init_weights. frames; done. Qed.

Lemma writes_only_ukf_init c :
  writes_only (stored_in (init_targets c)) (ukf_init c).
Proof.
  unfold ukf_init. cbv zeta.
  apply writes_only_bind; [apply writes_only_load|]. intros al.
  apply writes_only_bind; [apply writes_only_load|]. intros be.
  apply writes_only_bind; [apply writes_only_load|]. intros ka.
  apply writes_only_bind; [apply writes_only_init_limiters|]. intros _.
  apply writes_only_bind; [apply writes_only_init_weights; stored|]. intros _.
  apply writes_only_bind; [apply writes_only_mtx_cpy; stored|]. intros _.
  apply writes_only_bind; [apply writes_only_mtx_cpy; stored|]. intros _.
  apply writes_only_ret.
Qed.

Lemma writes_only_ukf_init_unfit c :
  ¬ weights_fit c →
  writes_only (stored_in [Pxx_error_covariance c; x_system_states c])
              (ukf_init c).
Proof.
  intros Hunfit. unfold ukf_init. cbv zeta.
  apply writes_only_bind; [apply writes_only_load|]. intros al.
  apply writes_only_bind; [apply writes_only_load|]. intros be.
  apply writes_only_bind; [apply writes_only_load|]. intros ka.
  apply writes_only_bind; [apply writes_only_init_limiters|]. intros _.
  apply writes_only_bind.
  { unfold init_weights.
    change (sLen (par (ukf_fields c al be ka)))
      with (u8 (2 * u8 (nrow (x_system_states c)) + 1)).
    destruct (_ && _) eqn:Hfit; [|apply writes_only_ret].
    apply andb_true_iff in Hfit as [H1%Nat.eqb_eq H2%Nat.eqb_eq].
    by destruct Hunfit. }
  intros _.
  apply writes_only_bind; [apply writes_only_mtx_cpy; stored|]. intros _.
  apply writes_only_bind; [apply writes_only_mtx_cpy; stored|]. intros _.
  apply writes_only_ret.
Qed.

(** X18.  A completed [ukf_init] changes no float buffer other than those
    of [Wm], [Wc], the error covariance and the state vector; and when the
    declared weight lengths do not both equal [sLen] it does not write the
    weights either: they stay as the caller left them. *)
Theorem ukf_init_writes_within c σ r σ' :
  ukf_init c σ = Done r σ' →
  (∀ q, ¬ stored_in (init_targets c) q → fmem σ' q = fmem σ q) ∧
  (¬ weights_fit c →
   ∀ q, ¬ stored_in [Pxx_error_covariance c; x_system_states c] q →
        fmem σ' q = fmem σ q).
Proof.
  intros Hrun. split.
  - by apply (writes_only_ukf_init c _ _ _ Hrun).
  - intros Hunfit. by apply (writes_only_ukf_init_unfit c Hunfit _ _ _ Hrun).
Qed.

Lemma ukf_init_writes_within_witness :
  let c := Bench.short_Wm in
  let σ := Bench.plain_mem in
  let σ' := memory_after (ukf_init c) σ in
  (∀ q, ¬ stored_in (init_targets c) q → fmem σ' q = fmem σ q) ∧
  (¬ weights_fit c →
   ∀ q, ¬ stored_in [Pxx_error_covariance c; x_system_states c] q →
        fmem σ' q = fmem σ q).
Proof.
  intros c σ σ'.
  apply (ukf_init_writes_within c σ (0, Cases.filter_of c) σ').
  vm_compute. reflexivity.
Defined.

(** * Remembering the inputs *)

Lemma insert_take_drop_step (a b : list float) k v :
  a !! k = Some v → k < length b →
  <[k := v]> (take k a ++ drop k b) = take (S k) a ++ drop (S k) b.
Proof.
  intros Ha Hb.
  assert (k < length a) as Hk by (by eapply lookup_lt_Some).
  destruct (lookup_lt_is_Some_2 b k Hb) as [w Hw].
  rewrite (drop_S b w k), (take_S_r a k v) by done.
  rewrite insert_app_r_alt by (rewrite length_take; lia).
  rewrite length_take, Nat.min_l, Nat.sub_diag by lia.
  simpl. by rewrite <-app_assoc.
Qed.

Section PreviousInputs.
Variables (pUkf : tUKF) (σ : memory) (pu pup : ptr).
Hypothesis Hu : val (u (input pUkf)) = Some pu.
Hypothesis Hup : val (u_p (prev pUkf)) = Some pup.
Hypothesis Hlu : u8 (nrow (u_p (prev pUkf))) ≤ length (fmem σ pu).
Hypothesis Hlup : u8 (nrow (u_p (prev pUkf))) ≤ length (fmem σ pup).

Let uLen := u8 (nrow (u_p (prev pUkf))).

(** X10.  With both input vectors present, the tail of [ukf_step] copies
    the first [uLen] inputs into the previous-input buffer and touches
    nothing else; when both descriptors name the same buffer, as after
    [ukf_init], that buffer is left as it was. *)
Theorem store_prev_inputs_copies :
  ∃ σ', store_prev_inputs pUkf σ = Done tt σ' ∧
        fmem σ' pup = take uLen (fmem σ pu) ++ drop uLen (fmem σ pup) ∧
        (∀ q, q ≠ pup → fmem σ' q = fmem σ q) ∧
        bmem σ' = bmem σ ∧
        (pu = pup → fmem σ' pup = fmem σ pup).
Proof.
  cut (wp (store_prev_inputs pUkf)
         (λ _ σ', fmem σ' pup = take uLen (fmem σ pu) ++ drop uLen (fmem σ pup) ∧
                  (∀ q, q ≠ pup → fmem σ' q = fmem σ q) ∧ bmem σ' = bmem σ) σ).
  { intros Hwp. apply wp_done in Hwp as ([] & σ' & Hrun & Hv & Hf & Hb).
    exists σ'. repeat split; try done.
    intros ->. by rewrite Hv, take_drop. }
  unfold store_prev_inputs. rewrite Hu, Hup. simpl. fold uLen.
  apply (wp_for (λ k σ',
    fmem σ' pup = take k (fmem σ pu) ++ drop k (fmem σ pup) ∧
    (∀ q, q ≠ pup → fmem σ' q = fmem σ q) ∧ bmem σ' = bmem σ)).
  - lia.
  - by rewrite take_0, drop_0.
  - intros k σ' Hk (Hv & Hf & Hb).
    destruct (lookup_lt_is_Some_2 (fmem σ pu) k) as [v Hvk]; [unfold uLen in *; lia|].
    assert (fmem σ' pu !! k = Some v) as Hload.
    { destruct (decide (pu = pup)) as [E|E].
      - rewrite E in *. by rewrite Hv, take_drop.
      - by rewrite Hf. }
    apply wp_bind. eapply wp_load; [done|].
    apply wp_store.
    { rewrite Hv, length_app, length_take, length_drop. unfold uLen in *. lia. }
    rewrite fmem_fupd_eq. split; [|split; [|done]].
    + rewrite Hv. apply insert_take_drop_step; [done|]. unfold uLen in *. lia.
    + intros q Hq. rewrite fmem_fupd_ne by done. by apply Hf.
  - done.
Qed.

End PreviousInputs.

Lemma store_prev_inputs_copies_witness :
  let pUkf := Cases.filter_of Bench.follower in
  let σ := Cases.follower_ready in
  ∃ σ', store_prev_inputs pUkf σ = Done tt σ' ∧
        fmem σ' Bench.au
        = take (u8 (nrow (u_p (prev pUkf)))) (fmem σ Bench.au)
          ++ drop (u8 (nrow (u_p (prev pUkf)))) (fmem σ Bench.au) ∧
        (∀ q, q ≠ Bench.au → fmem σ' q = fmem σ q) ∧
        bmem σ' = bmem σ ∧
        (Bench.au = Bench.au → fmem σ' Bench.au = fmem σ Bench.au).
Proof.
  intros pUkf σ.
  apply (store_prev_inputs_copies pUkf σ Bench.au Bench.au);
    first [ reflexivity | vm_compute; lia ].
Defined.

(** * Covariances *)

Lemma cell_lt n i j r : i < r → j < n → n * i + j < r * n.
Proof.
  intros Hi Hj.
  assert (n * (i + 1) ≤ n * r) by (apply Nat.mul_le_mono_l; lia). lia.
Qed.

Lemma fsum_app l1 l2 : fsum (l1 ++ l2) = (fsum l1 + fsum l2)%Qc.
Proof.
  unfold fsum. induction l1 as [|x l1 IH]; simpl; [ring|].
  rewrite IH. ring.
Qed.

Lemma fsum_seq_S (f : nat → float) k :
  fsum (f <$> seq 0 (S k)) = (fsum (f <$> seq 0 k) + f k)%Qc.
Proof.
  rewrite seq_S, fmap_app, fsum_app.
  change (fsum (f <$> [0 + k])) with (f k + 0)%Qc. ring.
Qed.

Lemma weighted_products_S k ns W A a B b i j :
  weighted_products (S k) ns W A a B b i j
  = (weighted_products k ns W A a B b i j
     + weight W k * deviation ns A a i k * deviation ns B b j k)%Qc.
Proof. unfold weighted_products. by rewrite fsum_seq_S. Qed.

Lemma lookup_weight (W : list float) s :
  s < length W → W !! s = Some (weight W s).
Proof.
  intros Hs. unfold weight. by destruct (lookup_lt_is_Some_2 _ _ Hs) as [v ->].
Qed.

(** Two nested loops over the cells of an [r×c] matrix at [p], whose body
    replaces cell [(i, j)] by [upd i j] and keeps [F]. *)
Section Cells.
Variables (p : ptr) (r c : nat) (old upd : nat → nat → float).
Variable F : memory → Prop.
Variable body : nat → nat → M unit.

Hypothesis Hbody : ∀ i j σ', i < r → j < c → F σ' →
  fmem σ' p !! (c * i + j) = Some (old i j) →
  wp (body i j)
     (λ _ σ'', F σ'' ∧ fmem σ'' p = <[c * i + j := upd i j]> (fmem σ' p)) σ'.

Lemma wp_for_cells σ (Q : unit → memory → Prop) :
  F σ →
  (∀ i j, i < r → j < c → fmem σ p !! (c * i + j) = Some (old i j)) →
  (∀ σ', F σ' →
         (∀ i j, i < r → j < c → fmem σ' p !! (c * i + j) = Some (upd i j)) →
         Q tt σ') →
  wp (for_ 0 r (λ i, for_ 0 c (λ j, body i j))) Q σ.
Proof.
  intros HF Hold HQ.
  apply (wp_for (λ k σ',
    F σ' ∧ ∀ i j, i < r → j < c →
      fmem σ' p !! (c * i + j)
      = Some (if decide (i < k) then upd i j else old i j))).
  - lia.
  - split; [done|]. intros i j Hi Hj. rewrite decide_False by lia. by apply Hold.
  - intros k σ1 Hk [HF1 Hcells1].
    apply (wp_for (λ m σ',
      F σ' ∧ ∀ i j, i < r → j < c →
        fmem σ' p !! (c * i + j)
        = Some (if decide (i < k ∨ (i = k ∧ j < m)) then upd i j else old i j))).
    + lia.
    + split; [done|]. intros i j Hi Hj. rewrite (Hcells1 i j) by done.
      destruct (decide (i < k)).
      * by rewrite decide_True by lia.
      * by rewrite decide_False by lia.
    + intros m σ2 Hm [HF2 Hcells2].
      pose proof (Hcells2 k m ltac:(lia) ltac:(lia)) as Hkm.
      rewrite decide_False in Hkm by lia.
      eapply wp_mono; [|apply Hbody; [lia|lia|done|done]].
      intros _ σ3 [HF3 Hv3]. split; [done|]. intros i j Hi Hj. rewrite Hv3.
      destruct (decide (i = k ∧ j = m)) as [[-> ->]|Hne].
      * rewrite list_lookup_insert_eq by (by eapply lookup_lt_Some).
        by rewrite decide_True by lia.
      * rewrite list_lookup_insert_ne.
        2:{ intros Heq. apply cell_inj in Heq; [lia|lia..]. }
        rewrite (Hcells2 i j) by done.
        destruct (decide (i < k ∨ i = k ∧ j < m)).
        -- by rewrite decide_True by lia.
        -- by rewrite decide_False by lia.
    + intros σ2 [HF2 Hcells2]. split; [done|]. intros i j Hi Hj.
      rewrite (Hcells2 i j) by done.
      destruct (decide (i < S k)).
      * by rewrite decide_True by lia.
      * by rewrite decide_False by lia.
  - intros σ' [HF' Hcells]. apply HQ; [done|]. intros i j Hi Hj.
    rewrite (Hcells i j) by done. by rewrite decide_True by lia.
Qed.

End Cells.

Lemma lookup_default (l : list float) i :
  i < length l → l !! i = Some (default 0%Qc (l !! i)).
Proof. intros Hi. by destruct (lookup_lt_is_Some_2 _ _ Hi) as [v ->]. Qed.

Lemma wp_mtx_zeros σ0 σ m p r c (Q : mtxResultInfo → memory → Prop) :
  same_sizes σ0 σ →
  laid_out σ0 m p r c →
  after_write σ0 σ p (replicate (r * c) 0%Qc) Q →
  wp (mtx_zeros m) Q σ.
Proof.
  intros Hsizes Hm HQ.
  pose proof (laid_out_length _ _ _ _ _ _ Hsizes Hm) as Hl.
  destruct Hm as (Hv & Hr & Hc & _).
  unfold mtx_zeros, nelem. rewrite Hv, Hr, Hc.
  apply wp_bind, wp_write_exact; [by rewrite length_replicate|].
  intros σ' Hs Hval Hframe Hbm. apply wp_ret, HQ; [|done..].
  by eapply same_sizes_trans.
Qed.

(** One term of a covariance sum: the block the three covariance loops of
    the filter share. *)
Lemma wp_product_term pA pa pB pb pW pD iA ia iB ib iW iD
    vA va vB vb w acc σ (Q : unit → memory → Prop) :
  fmem σ pA !! iA = Some vA → fmem σ pa !! ia = Some va →
  fmem σ pB !! iB = Some vB → fmem σ pb !! ib = Some vb →
  fmem σ pW !! iW = Some w → fmem σ pD !! iD = Some acc →
  Q tt (fupd pD (<[iD := (acc + w * (vA - va) * (vB - vb))%Qc]> (fmem σ pD)) σ) →
  wp (a1 ← load (Some pA) iA;
      b1 ← load (Some pa) ia;
      a2 ← load (Some pB) iB;
      b2 ← load (Some pb) ib;
      w ← load (Some pW) iW;
      acc ← load (Some pD) iD;
      store (Some pD) iD (acc + w * (a1 - b1) * (a2 - b2))%Qc) Q σ.
Proof.
  intros HA Ha HB Hb HW HD HQ.
  apply wp_bind. eapply wp_load; [done|].
  apply wp_bind. eapply wp_load; [done|].
  apply wp_bind. eapply wp_load; [done|].
  apply wp_bind. eapply wp_load; [done|].
  apply wp_bind. eapply wp_load; [done|].
  apply wp_bind. eapply wp_load; [done|].
  apply wp_store; [by eapply lookup_lt_Some|done].
Qed.

Section CalcCovariances.
Variables (pUkf : tUKF) (σ : memory) (nx ny ns : nat).
Variables (pWc pX pY pxm pym pR pPyy pPxy : ptr).

Hypothesis HxLen : xLen (par pUkf) = nx.
Hypothesis HyLen : yLen (par pUkf) = ny.
Hypothesis HsLen : sLen (par pUkf) = ns.
Hypothesis HWc : val (Wc (par pUkf)) = Some pWc.
Hypothesis HlWc : ns ≤ length (fmem σ pWc).
Hypothesis HX : laid_out σ (X_m (predict pUkf)) pX nx ns.
Hypothesis HY : laid_out σ (Y_m (predict pUkf)) pY ny ns.
Hypothesis Hxm : laid_out σ (x_m (predict pUkf)) pxm nx 1.
Hypothesis Hym : laid_out σ (y_m (predict pUkf)) pym ny 1.
Hypothesis HR : laid_out σ (Ryy0 (par pUkf)) pR ny ny.
Hypothesis HPyy : laid_out σ (Pyy (update pUkf)) pPyy ny ny.
Hypothesis HPxy : laid_out σ (Pxy (update pUkf)) pPxy nx ny.
Hypothesis Hout : pPyy ≠ pPxy.
Hypothesis Hin : ∀ q, q ∈ [pWc; pX; pY; pxm; pym] → q ≠ pPyy ∧ q ≠ pPxy.

Let cov_yy (k i j : nat) : float :=
  (mat_at ny (fmem σ pR) i j
   + weighted_products k ns (fmem σ pWc) (fmem σ pY) (fmem σ pym)
       (fmem σ pY) (fmem σ pym) i j)%Qc.

Let cov_xy (k i j : nat) : float :=
  weighted_products k ns (fmem σ pWc) (fmem σ pX) (fmem σ pxm)
    (fmem σ pY) (fmem σ pym) i j.

Let frame (σ' : memory) : Prop :=
  same_sizes σ σ' ∧ bmem σ' = bmem σ ∧
  ∀ q, q ≠ pPyy → q ≠ pPxy → fmem σ' q = fmem σ q.

Let cells_yy (k : nat) (σ' : memory) : Prop :=
  ∀ i j, i < ny → j < ny → fmem σ' pPyy !! (ny * i + j) = Some (cov_yy k i j).

Let cells_xy (k : nat) (σ' : memory) : Prop :=
  ∀ i j, i < nx → j < ny → fmem σ' pPxy !! (ny * i + j) = Some (cov_xy k i j).

Lemma calc_inputs σ' :
  frame σ' →
  fmem σ' pWc = fmem σ pWc ∧ fmem σ' pX = fmem σ pX ∧
  fmem σ' pY = fmem σ pY ∧ fmem σ' pxm = fmem σ pxm ∧
  fmem σ' pym = fmem σ pym.
Proof.
  intros (_ & _ & Hf).
  repeat split; apply Hf; apply Hin; repeat constructor.
Qed.

Lemma frame_store σ' p i v :
  p = pPyy ∨ p = pPxy →
  frame σ' → frame (fupd p (<[i := v]> (fmem σ' p)) σ').
Proof.
  intros Hp (Hs & Hb & Hf). split; [by apply same_sizes_store|].
  split; [done|]. intros q H1 H2. rewrite fmem_fupd_ne; [by apply Hf|].
  destruct Hp; congruence.
Qed.

Lemma ukf_calc_covariances_total :
  wp (ukf_calc_covariances pUkf)
     (λ _ σ', frame σ' ∧ cells_yy ns σ' ∧ cells_xy ns σ') σ.
Proof.
  pose proof (laid_out_length σ σ _ _ _ _ (same_sizes_refl σ) HX) as HlX.
  pose proof (laid_out_length σ σ _ _ _ _ (same_sizes_refl σ) HY) as HlY.
  pose proof (laid_out_length σ σ _ _ _ _ (same_sizes_refl σ) Hxm) as Hlxm.
  pose proof (laid_out_length σ σ _ _ _ _ (same_sizes_refl σ) Hym) as Hlym.
  pose proof (laid_out_length σ σ _ _ _ _ (same_sizes_refl σ) HR) as HlR.
  assert (val (X_m (predict pUkf)) = Some pX) as HvX by apply HX.
  assert (val (Y_m (predict pUkf)) = Some pY) as HvY by apply HY.
  assert (val (x_m (predict pUkf)) = Some pxm) as Hvxm by apply Hxm.
  assert (val (y_m (predict pUkf)) = Some pym) as Hvym by apply Hym.
  assert (val (Pyy (update pUkf)) = Some pPyy) as HvPyy by apply HPyy.
  assert (val (Pxy (update pUkf)) = Some pPxy) as HvPxy by apply HPxy.
  unfold ukf_calc_covariances.
  rewrite HxLen, HyLen, HsLen, HWc, HvX, HvY, Hvxm, Hvym, HvPyy, HvPxy.
  apply wp_bind. eapply (wp_mtx_cpy σ σ); [apply same_sizes_refl|done..|].
  intros σ1 Hs1 Hv1 Hf1 Hb1.
  apply wp_bind. eapply (wp_mtx_zeros σ σ1); [done..|].
  intros σ2 Hs2 Hv2 Hf2 Hb2.
  (* the sums over the sigma points *)
  apply (wp_for (λ k σ', frame σ' ∧ cells_yy k σ' ∧ cells_xy k σ')).
  { lia. }
  { split; [|split].
    - split; [done|]. split; [congruence|].
      intros q H1 H2. rewrite Hf2, Hf1 by done. done.
    - intros i j Hi Hj. rewrite Hf2, Hv1 by done.
      rewrite lookup_mat_at by (rewrite HlR; by apply cell_lt).
      f_equal. unfold cov_yy, weighted_products. simpl.
      change (fsum []) with 0%Qc. ring.
    - intros i j Hi Hj. rewrite Hv2.
      rewrite lookup_replicate_2 by (by apply cell_lt).
      done. }
  2:{ done. }
  intros s σ3 Hs (HF3 & Hyy3 & Hxy3).
  apply wp_bind.
  apply (wp_for_cells pPyy ny ny (cov_yy s) (cov_yy (S s))
           (λ σ', frame σ' ∧ cells_xy s σ')).
  - intros i j σ4 Hi Hj [HF4 Hxy4] Hacc.
    destruct (calc_inputs σ4 HF4) as (EW & EX & EY & Ex & Ey).
    eapply wp_product_term.
    + rewrite EY. apply lookup_mat_at. rewrite HlY. apply cell_lt; lia.
    + rewrite Ey. apply lookup_default. lia.
    + rewrite EY. apply lookup_mat_at. rewrite HlY. apply cell_lt; lia.
    + rewrite Ey. apply lookup_default. lia.
    + rewrite EW. apply lookup_weight. lia.
    + exact Hacc.
    + split; [split|].
      * apply frame_store; [by left|done].
      * intros i' j' Hi' Hj'. rewrite fmem_fupd_ne by done. by apply Hxy4.
      * rewrite fmem_fupd_eq. f_equal. unfold cov_yy.
        rewrite weighted_products_S. unfold deviation. ring.
  - done.
  - done.
  - intros σ4 [HF4 Hxy4] Hyy4.
    apply (wp_for_cells pPxy nx ny (cov_xy s) (cov_xy (S s))
             (λ σ', frame σ' ∧ cells_yy (S s) σ')).
    + intros i j σ5 Hi Hj [HF5 Hyy5] Hacc.
      destruct (calc_inputs σ5 HF5) as (EW & EX & EY & Ex & Ey).
      eapply wp_product_term.
      * rewrite EX. apply lookup_mat_at. rewrite HlX. apply cell_lt; lia.
      * rewrite Ex. apply lookup_default. lia.
      * rewrite EY. apply lookup_mat_at. rewrite HlY. apply cell_lt; lia.
      * rewrite Ey. apply lookup_default. lia.
      * rewrite EW. apply lookup_weight. lia.
      * exact Hacc.
      * split; [split|].
        -- apply frame_store; [by right|done].
        -- intros i' j' Hi' Hj'. rewrite fmem_fupd_ne by done. by apply Hyy5.
        -- rewrite fmem_fupd_eq. f_equal. unfold cov_xy.
           rewrite weighted_products_S. unfold deviation. ring.
    + done.
    + done.
    + intros σ5 [HF5 Hyy5] Hxy5. done.
Qed.

End CalcCovariances.

Lemma weighted_products_sym k ns W A a i j :
  weighted_products k ns W A a A a i j = weighted_products k ns W A a A a j i.
Proof.
  unfold weighted_products. f_equal. apply list_fmap_ext.
  intros _ s _. ring.
Qed.

Section CalcCovariancesResults.
Variables (pUkf : tUKF) (σ : memory) (nx ny ns : nat).
Variables (pWc pX pY pxm pym pR pPyy pPxy : ptr).

Hypothesis HxLen : xLen (par pUkf) = nx.
Hypothesis HyLen : yLen (par pUkf) = ny.
Hypothesis HsLen : sLen (par pUkf) = ns.
Hypothesis HWc : val (Wc (par pUkf)) = Some pWc.
Hypothesis HlWc : ns ≤ length (fmem σ pWc).
Hypothesis HX : laid_out σ (X_m (predict pUkf)) pX nx ns.
Hypothesis HY : laid_out σ (Y_m (predict pUkf)) pY ny ns.
Hypothesis Hxm : laid_out σ (x_m (predict pUkf)) pxm nx 1.
Hypothesis Hym : laid_out σ (y_m (predict pUkf)) pym ny 1.
Hypothesis HR : laid_out σ (Ryy0 (par pUkf)) pR ny ny.
Hypothesis HPyy : laid_out σ (Pyy (update pUkf)) pPyy ny ny.
Hypothesis HPxy : laid_out σ (Pxy (update pUkf)) pPxy nx ny.
Hypothesis Hout : pPyy ≠ pPxy.
Hypothesis Hin : ∀ q, q ∈ [pWc; pX; pY; pxm; pym] → q ≠ pPyy ∧ q ≠ pPxy.

(** X11.  [ukf_calc_covariances] completes and leaves
    [Pyy[i][j] = Ryy0[i][j] + Σ_s Wc[s]·(Y_m[i][s] - y_m[i])·(Y_m[j][s] - y_m[j])]
    and [Pxy[i][j] = Σ_s Wc[s]·(X_m[i][s] - x_m[i])·(Y_m[j][s] - y_m[j])],
    the sums taken over all [sLen] sigma points; no other buffer changes. *)
Theorem ukf_calc_covariances_sums :
  ∃ σ', ukf_calc_covariances pUkf σ = Done tt σ' ∧
        (∀ i j, i < ny → j < ny →
           fmem σ' pPyy !! (ny * i + j)
           = Some (mat_at ny (fmem σ pR) i j
                   + weighted_products ns ns (fmem σ pWc) (fmem σ pY)
                       (fmem σ pym) (fmem σ pY) (fmem σ pym) i j)%Qc) ∧
        (∀ i j, i < nx → j < ny →
           fmem σ' pPxy !! (ny * i + j)
           = Some (weighted_products ns ns (fmem σ pWc) (fmem σ pX)
                     (fmem σ pxm) (fmem σ pY) (fmem σ pym) i j)) ∧
        (∀ q, q ≠ pPyy → q ≠ pPxy → fmem σ' q = fmem σ q).
Proof.
  pose proof (ukf_calc_covariances_total pUkf σ nx ny ns pWc pX pY pxm pym pR
                pPyy pPxy HxLen HyLen HsLen HWc HlWc HX HY Hxm Hym HR HPyy
                HPxy Hout Hin) as Hwp.
  apply wp_done in Hwp as ([] & σ' & Hrun & (_ & _ & Hf) & Hyy & Hxy).
  by exists σ'.
Qed.

(** X12.  In exact arithmetic, a symmetric measurement noise [Ryy0] gives a
    symmetric output covariance [Pyy]. *)
Theorem ukf_calc_covariances_symmetric :
  (∀ i j, i < ny → j < ny →
          mat_at ny (fmem σ pR) i j = mat_at ny (fmem σ pR) j i) →
  ∃ σ', ukf_calc_covariances pUkf σ = Done tt σ' ∧
        ∀ i j, i < ny → j < ny →
               fmem σ' pPyy !! (ny * i + j) = fmem σ' pPyy !! (ny * j + i).
Proof.
  intros Hsym.
  pose proof (ukf_calc_covariances_total pUkf σ nx ny ns pWc pX pY pxm pym pR
                pPyy pPxy HxLen HyLen HsLen HWc HlWc HX HY Hxm Hym HR HPyy
                HPxy Hout Hin) as Hwp.
  apply wp_done in Hwp as ([] & σ' & Hrun & _ & Hyy & _).
  exists σ'. split; [done|]. intros i j Hi Hj.
  rewrite (Hyy i j), (Hyy j i) by done.
  by rewrite Hsym, weighted_products_sym.
Qed.

End CalcCovariancesResults.

Ltac bench_inputs :=
  let q := fresh "q" in
  let Hq := fresh "Hq" in
  intros q Hq; rewrite !elem_of_cons, elem_of_nil in Hq;
  repeat (destruct Hq as [->|Hq]); [..|done]; split; discriminate.

Lemma ukf_calc_covariances_sums_witness :
  let pUkf := Cases.filter_of Bench.follower in
  let σ := Cases.follower_ready in
  ∃ σ', ukf_calc_covariances pUkf σ = Done tt σ' ∧
        (∀ i j, i < 1 → j < 1 →
           fmem σ' Bench.aPyy !! (1 * i + j)
           = Some (mat_at 1 (fmem σ Bench.aRyy0) i j
                   + weighted_products 3 3 (fmem σ Bench.aWc) (fmem σ Bench.aY)
                       (fmem σ Bench.aym) (fmem σ Bench.aY) (fmem σ Bench.aym)
                       i j)%Qc) ∧
        (∀ i j, i < 1 → j < 1 →
           fmem σ' Bench.aPxy !! (1 * i + j)
           = Some (weighted_products 3 3 (fmem σ Bench.aWc) (fmem σ Bench.aX)
                     (fmem σ Bench.ax) (fmem σ Bench.aY) (fmem σ Bench.aym)
                     i j)) ∧
        (∀ q, q ≠ Bench.aPyy → q ≠ Bench.aPxy → fmem σ' q = fmem σ q).
Proof.
  intros pUkf σ.
  apply (ukf_calc_covariances_sums pUkf σ 1 1 3 Bench.aWc Bench.aX Bench.aY
           Bench.ax Bench.aym Bench.aRyy0 Bench.aPyy Bench.aPxy);
    first [ reflexivity | discriminate | vm_compute; lia | bench_layout
          | bench_inputs ].
Defined.

Lemma ukf_calc_covariances_symmetric_witness :
  let pUkf := Cases.filter_of Bench.follower in
  let σ := Cases.follower_ready in
  (∀ i j, i < 1 → j < 1 →
          mat_at 1 (fmem σ Bench.aRyy0) i j = mat_at 1 (fmem σ Bench.aRyy0) j i) ∧
  ∃ σ', ukf_calc_covariances pUkf σ = Done tt σ' ∧
        ∀ i j, i < 1 → j < 1 →
               fmem σ' Bench.aPyy !! (1 * i + j)
               = fmem σ' Bench.aPyy !! (1 * j + i).
Proof.
  intros pUkf σ.
  assert (∀ i j, i < 1 → j < 1 →
            mat_at 1 (fmem σ Bench.aRyy0) i j
            = mat_at 1 (fmem σ Bench.aRyy0) j i) as Hsym.
  { intros i j Hi Hj. by replace j with i by lia. }
  split; [exact Hsym|].
  apply (ukf_calc_covariances_symmetric pUkf σ 1 1 3 Bench.aWc Bench.aX
           Bench.aY Bench.ax Bench.aym Bench.aRyy0 Bench.aPyy Bench.aPxy);
    first [ exact Hsym | reflexivity | discriminate | vm_compute; lia
          | bench_layout | bench_inputs ].
Defined.

(** * Predicted means *)

Lemma weighted_mean_S k ns W A i :
  weighted_mean (S k) ns W A i
  = (weighted_mean k ns W A i + weight W k * mat_at ns A i k)%Qc.
Proof. unfold weighted_mean. by rewrite fsum_seq_S. Qed.

Lemma weighted_mean_ext k ns W A A' i :
  (∀ s, s < k → A !! (ns * i + s) = A' !! (ns * i + s)) →
  weighted_mean k ns W A i = weighted_mean k ns W A' i.
Proof.
  intros Hext. unfold weighted_mean. f_equal. apply list_fmap_ext.
  intros n s Hs. apply lookup_seq in Hs as [-> Hn]. unfold mat_at.
  by rewrite Hext by lia.
Qed.

Section MeanPredState.
Variables (pUkf : tUKF) (σ : memory) (nx ns : nat).
Variables (pWm pX pxm : ptr).

Hypothesis HxLen : xLen (par pUkf) = nx.
Hypothesis HsLen : sLen (par pUkf) = ns.
Hypothesis HWm : val (Wm (par pUkf)) = Some pWm.
Hypothesis HlWm : ns ≤ length (fmem σ pWm).
Hypothesis HX : laid_out σ (X_m (predict pUkf)) pX nx ns.
Hypothesis Hxm : laid_out σ (x_m (predict pUkf)) pxm nx 1.
Hypothesis HxX : pxm ≠ pX.
Hypothesis HxW : pxm ≠ pWm.
Hypothesis HXW : pX ≠ pWm.
Hypothesis Hfit : predictors_fit pUkf σ pX.

Let frame (σ' : memory) : Prop :=
  same_sizes σ σ' ∧ bmem σ' = bmem σ ∧
  ∀ q, q ≠ pxm → q ≠ pX → fmem σ' q = fmem σ q.

Let mean (k : nat) (σ' : memory) (i : nat) : float :=
  weighted_mean k ns (fmem σ pWm) (fmem σ' pX) i.

Lemma wp_predict_slot i s σ' (Q : unit → memory → Prop) :
  i < nx → s < ns → same_sizes σ σ' →
  (∀ σ'', same_sizes σ σ'' → bmem σ'' = bmem σ' →
          (∀ q, q ≠ pX → fmem σ'' q = fmem σ' q) →
          (∀ k, k ≠ ns * i + s → fmem σ'' pX !! k = fmem σ' pX !! k) →
          Q tt σ'') →
  wp (call_slot (pFcnPredict (predict pUkf)) i
        (λ f, f (u_p (prev pUkf)) (X_p (prev pUkf)) (X_m (predict pUkf))
                s (dT (par pUkf)))
        (mret tt)) Q σ'.
Proof.
  intros Hi Hs Hsz HQ. destruct Hfit as [Hcover Hcontract].
  unfold call_slot.
  destruct (Hcover i) as [[f|] Hslot]; [lia|..]; rewrite Hslot.
  - pose proof (Hcontract i f Hslot s σ') as Hf. rewrite HsLen in Hf.
    eapply wp_mono; [|apply Hf; done].
    intros [] σ'' (H1 & H2 & H3 & H4). by apply HQ.
  - apply wp_ret. by apply HQ.
Qed.

Lemma ukf_mean_pred_state_total :
  wp (ukf_mean_pred_state pUkf)
     (λ _ σ', frame σ' ∧
              ∀ i, i < nx → fmem σ' pxm !! i = Some (mean ns σ' i)) σ.
Proof.
  pose proof (laid_out_length σ σ _ _ _ _ (same_sizes_refl σ) HX) as HlX.
  pose proof (laid_out_length σ σ _ _ _ _ (same_sizes_refl σ) Hxm) as Hlxm.
  assert (val (X_m (predict pUkf)) = Some pX) as HvX by apply HX.
  assert (val (x_m (predict pUkf)) = Some pxm) as Hvxm by apply Hxm.
  unfold ukf_mean_pred_state. rewrite HxLen, HsLen, HWm, HvX, Hvxm.
  apply (wp_for (λ k σ',
    frame σ' ∧ ∀ i, i < k → fmem σ' pxm !! i = Some (mean ns σ' i))).
  { lia. }
  { split; [|intros; lia]. split; [apply same_sizes_refl|done]. }
  2:{ done. }
  intros k σ1 Hk ((Hs1 & Hb1 & Hf1) & Hmeans1).
  assert (length (fmem σ1 pxm) = nx) as Hlen1.
  { rewrite (proj1 Hs1). lia. }
  apply wp_bind, wp_store; [lia|].
  set (σ2 := fupd pxm _ σ1).
  apply (wp_for (λ m σ',
    frame σ' ∧
    (∀ i, i < k → fmem σ' pxm !! i = Some (mean ns σ' i)) ∧
    fmem σ' pxm !! k = Some (mean m σ' k))).
  { lia. }
  { split; [|split].
    - split; [by apply same_sizes_store|]. split; [done|].
      intros q H1 H2. unfold σ2. rewrite fmem_fupd_ne by done. by apply Hf1.
    - intros i Hi. unfold σ2, mean. rewrite fmem_fupd_eq, fmem_fupd_ne by done.
      rewrite list_lookup_insert_ne by lia. by apply Hmeans1.
    - unfold σ2. rewrite fmem_fupd_eq.
      by rewrite list_lookup_insert_eq by lia. }
  2:{ intros σ' (HF & Hlt & Heq). split; [done|]. intros i Hi.
      destruct (decide (i = k)) as [->|]; [done|]. apply Hlt. lia. }
  intros m σ3 Hm ((Hs3 & Hb3 & Hf3) & Hmeans3 & Hacc3).
  apply wp_bind. apply wp_predict_slot; [lia|lia|done|].
  intros σ4 Hs4 Hb4 Hf4 Hcells4.
  assert (length (fmem σ4 pX) = nx * ns) as HlX4.
  { rewrite (proj1 Hs4). done. }
  assert (∀ i n, n ≤ ns → (i ≠ k ∨ n ≤ m) →
            weighted_mean n ns (fmem σ pWm) (fmem σ4 pX) i
            = weighted_mean n ns (fmem σ pWm) (fmem σ3 pX) i) as Hsame.
  { intros i n Hn Hin. apply weighted_mean_ext. intros s Hs. apply Hcells4.
    intros Heq. apply cell_inj in Heq; [lia|lia..]. }
  apply wp_bind. eapply wp_load.
  { rewrite Hf4, Hf3 by done. apply lookup_weight. lia. }
  apply wp_bind. eapply wp_load.
  { apply lookup_mat_at. rewrite HlX4. apply cell_lt; lia. }
  apply wp_bind. eapply wp_load.
  { rewrite Hf4 by done. exact Hacc3. }
  apply wp_store.
  { rewrite (proj1 Hs4). lia. }
  split; [|split].
  - split; [by apply same_sizes_store|]. split; [simpl; congruence|].
    intros q H1 H2. rewrite fmem_fupd_ne, Hf4 by done. by apply Hf3.
  - intros i Hi. unfold mean. rewrite fmem_fupd_eq, fmem_fupd_ne by done.
    rewrite list_lookup_insert_ne by lia. rewrite Hf4 by done.
    rewrite Hsame by lia. by apply Hmeans3.
  - unfold mean. rewrite fmem_fupd_eq, fmem_fupd_ne by done.
    rewrite list_lookup_insert_eq by (rewrite Hf4, (proj1 Hs3) by done; lia).
    f_equal. rewrite weighted_mean_S. f_equal. unfold mean.
    symmetry. apply Hsame; lia.
Qed.

End MeanPredState.

Section MeanPredStateResult.
Variables (pUkf : tUKF) (σ : memory) (nx ns : nat).
Variables (pWm pX pxm : ptr).

Hypothesis HxLen : xLen (par pUkf) = nx.
Hypothesis HsLen : sLen (par pUkf) = ns.
Hypothesis HWm : val (Wm (par pUkf)) = Some pWm.
Hypothesis HlWm : ns ≤ length (fmem σ pWm).
Hypothesis HX : laid_out σ (X_m (predict pUkf)) pX nx ns.
Hypothesis Hxm : laid_out σ (x_m (predict pUkf)) pxm nx 1.
Hypothesis HxX : pxm ≠ pX.
Hypothesis HxW : pxm ≠ pWm.
Hypothesis HXW : pX ≠ pWm.
Hypothesis Hfit : predictors_fit pUkf σ pX.

(** X13.  With prediction functions that write their own cell of the
    sigma-point matrix only, [ukf_mean_pred_state] completes and leaves in
    [x_m] the weighted mean of the propagated sigma points:
    [x_m[i] = Σ_s Wm[s]·X_m[i][s]] over all [sLen] sigma points, with [X_m]
    as the prediction functions left it; nothing but [x_m] and [X_m]
    changes. *)
Theorem ukf_mean_pred_state_weighted_mean :
  ∃ σ', ukf_mean_pred_state pUkf σ = Done tt σ' ∧
        (∀ i, i < nx →
           fmem σ' pxm !! i
           = Some (weighted_mean ns ns (fmem σ pWm) (fmem σ' pX) i)) ∧
        (∀ q, q ≠ pxm → q ≠ pX → fmem σ' q = fmem σ q).
Proof.
  pose proof (ukf_mean_pred_state_total pUkf σ nx ns pWm pX pxm HxLen HsLen
                HWm HlWm HX Hxm HxX HxW HXW Hfit) as Hwp.
  apply wp_done in Hwp as ([] & σ' & Hrun & (_ & _ & Hf) & Hmean).
  by exists σ'.
Qed.

End MeanPredStateResult.

Lemma same_sizes_length σ σ' p n :
  same_sizes σ σ' → length (fmem σ p) = n → length (fmem σ' p) = n.
Proof. intros [Hf _] <-. apply Hf. Qed.

Lemma follower_predictors_fit σ :
  length (fmem σ Bench.au) = 1 → length (fmem σ Bench.aX) = 3 →
  predictors_fit (Cases.filter_of Bench.follower) σ Bench.aX.
Proof.
  intros Hu HX. split.
  - intros i Hi. replace i with 0 by (vm_compute in Hi; lia). by eexists.
  - intros i f Hslot s σ' Hs Hsz.
    destruct i as [|i]; [|by destruct i]. injection Hslot as <-.
    change (sLen (par (Cases.filter_of Bench.follower))) with 3 in *.
    assert (length (fmem σ' Bench.au) = 1) as Hlu.
    { by apply (same_sizes_length _ _ _ _ Hsz). }
    assert (length (fmem σ' Bench.aX) = 3) as HlX.
    { by apply (same_sizes_length _ _ _ _ Hsz). }
    unfold writes_cell, predict_call, Bench.follow_input.
    apply wp_bind, wp_load_any; [simpl; lia|]. intros v.
    apply wp_store; [simpl; lia|]. simpl val.
    split; [by apply same_sizes_store|]. split; [done|]. split.
    + intros q Hq. by apply fmem_fupd_ne.
    + intros k Hk. rewrite fmem_fupd_eq. apply list_lookup_insert_ne. lia.
Qed.

Lemma ukf_mean_pred_state_weighted_mean_witness :
  let pUkf := Cases.filter_of Bench.follower in
  let σ := Cases.follower_ready in
  ∃ σ', ukf_mean_pred_state pUkf σ = Done tt σ' ∧
        (∀ i, i < 1 →
           fmem σ' Bench.ax !! i
           = Some (weighted_mean 3 3 (fmem σ Bench.aWm) (fmem σ' Bench.aX) i)) ∧
        (∀ q, q ≠ Bench.ax → q ≠ Bench.aX → fmem σ' q = fmem σ q).
Proof.
  intros pUkf σ.
  apply (ukf_mean_pred_state_weighted_mean pUkf σ 1 3 Bench.aWm Bench.aX
           Bench.ax);
    first [ apply follower_predictors_fit; vm_compute; reflexivity | reflexivity | discriminate
          | vm_compute; lia | bench_layout ].
Defined.

(** * Predicted covariance and predicted output *)

Section MeanPredOutput.
Variables (pUkf : tUKF) (σ : memory) (nx ny ns : nat).
Variables (pWm pWc pX pY pPm pxm pym pQ : ptr).

Hypothesis HxLen : xLen (par pUkf) = nx.
Hypothesis HyLen : yLen (par pUkf) = ny.
Hypothesis HsLen : sLen (par pUkf) = ns.
Hypothesis HWm : val (Wm (par pUkf)) = Some pWm.
Hypothesis HWc : val (Wc (par pUkf)) = Some pWc.
Hypothesis HlWm : ns ≤ length (fmem σ pWm).
Hypothesis HlWc : ns ≤ length (fmem σ pWc).
Hypothesis HX : laid_out σ (X_m (predict pUkf)) pX nx ns.
Hypothesis HY : laid_out σ (Y_m (predict pUkf)) pY ny ns.
Hypothesis HPm : laid_out σ (P_m (predict pUkf)) pPm nx nx.
Hypothesis Hxm : laid_out σ (x_m (predict pUkf)) pxm nx 1.
Hypothesis Hym : laid_out σ (y_m (predict pUkf)) pym ny 1.
Hypothesis HQ : laid_out σ (Qxx (par pUkf)) pQ nx nx.
Hypothesis Hout : NoDup [pPm; pym; pY].
Hypothesis Hin :
  ∀ q, q ∈ [pWm; pWc; pX; pxm] → q ≠ pPm ∧ q ≠ pym ∧ q ≠ pY.
Hypothesis HQy : pQ ≠ pym.
Hypothesis Hfit : observers_fit pUkf σ pY.

Let cov (k i j : nat) : float :=
  (mat_at nx (fmem σ pQ) i j
   + weighted_products k ns (fmem σ pWc) (fmem σ pX) (fmem σ pxm)
       (fmem σ pX) (fmem σ pxm) i j)%Qc.

Let mean (k : nat) (σ' : memory) (i : nat) : float :=
  weighted_mean k ns (fmem σ pWm) (fmem σ' pY) i.

Let frame (σ' : memory) : Prop :=
  same_sizes σ σ' ∧ bmem σ' = bmem σ ∧
  ∀ q, q ≠ pPm → q ≠ pym → q ≠ pY → fmem σ' q = fmem σ q.

Let cells (k : nat) (σ' : memory) : Prop :=
  ∀ i j, i < nx → j < nx → fmem σ' pPm !! (nx * i + j) = Some (cov k i j).

Lemma output_inputs σ' :
  frame σ' →
  fmem σ' pWm = fmem σ pWm ∧ fmem σ' pWc = fmem σ pWc ∧
  fmem σ' pX = fmem σ pX ∧ fmem σ' pxm = fmem σ pxm.
Proof.
  intros (_ & _ & Hf).
  repeat split; apply Hf; apply Hin; repeat constructor.
Qed.

Lemma wp_observe_slot i s σ' (Q : unit → memory → Prop) :
  i < ny → s < ns → same_sizes σ σ' →
  (∀ σ'', same_sizes σ σ'' → bmem σ'' = bmem σ' →
          (∀ q, q ≠ pY → fmem σ'' q = fmem σ' q) →
          (∀ k, k ≠ ns * i + s → fmem σ'' pY !! k = fmem σ' pY !! k) →
          Q tt σ'') →
  wp (observe_sigma pUkf s i) Q σ'.
Proof.
  intros Hi Hs Hsz HQ'.
  destruct (Hfit i) as (f & Hslot & Hcontract); [lia|].
  unfold observe_sigma, call_slot. rewrite Hslot.
  pose proof (Hcontract s σ') as Hf. rewrite HsLen in Hf.
  eapply wp_mono; [|apply Hf; done].
  intros [] σ'' (Hc1 & Hc2 & Hc3 & Hc4). by apply HQ'.
Qed.

Lemma ukf_mean_pred_output_total :
  wp (ukf_mean_pred_output pUkf)
     (λ _ σ', frame σ' ∧ cells ns σ' ∧
              ∀ i, i < ny → fmem σ' pym !! i = Some (mean ns σ' i)) σ.
Proof.
  pose proof (laid_out_length σ σ _ _ _ _ (same_sizes_refl σ) HX) as HlX.
  pose proof (laid_out_length σ σ _ _ _ _ (same_sizes_refl σ) HY) as HlY.
  pose proof (laid_out_length σ σ _ _ _ _ (same_sizes_refl σ) Hxm) as Hlxm.
  pose proof (laid_out_length σ σ _ _ _ _ (same_sizes_refl σ) Hym) as Hlym.
  pose proof (laid_out_length σ σ _ _ _ _ (same_sizes_refl σ) HQ) as HlQ.
  assert (val (X_m (predict pUkf)) = Some pX) as HvX by apply HX.
  assert (val (Y_m (predict pUkf)) = Some pY) as HvY by apply HY.
  assert (val (x_m (predict pUkf)) = Some pxm) as Hvxm by apply Hxm.
  assert (val (y_m (predict pUkf)) = Some pym) as Hvym by apply Hym.
  assert (val (P_m (predict pUkf)) = Some pPm) as HvPm by apply HPm.
  split_distinct Hout.
  unfold ukf_mean_pred_output.
  rewrite HxLen, HyLen, HsLen, HWm, HWc, HvX, HvY, Hvxm, Hvym, HvPm.
  apply wp_bind. eapply (wp_mtx_zeros σ σ); [apply same_sizes_refl|done|].
  intros σ1 Hs1 Hv1 Hf1 Hb1.
  apply wp_bind. eapply (wp_mtx_cpy σ σ1); [done..|].
  intros σ2 Hs2 Hv2 Hf2 Hb2.
  apply (wp_for (λ k σ',
    frame σ' ∧ cells k σ' ∧
    ∀ i, i < ny → fmem σ' pym !! i = Some (mean k σ' i))).
  { lia. }
  { split; [|split].
    - split; [done|]. split; [congruence|].
      intros q Hq1 Hq2 Hq3. rewrite Hf2, Hf1 by done. done.
    - intros i j Hi Hj. rewrite Hv2, Hf1 by done.
      rewrite lookup_mat_at by (rewrite HlQ; by apply cell_lt).
      f_equal. unfold cov, weighted_products. simpl.
      change (fsum []) with 0%Qc. ring.
    - intros i Hi. rewrite Hf2, Hv1 by done.
      rewrite lookup_replicate_2 by lia. done. }
  2:{ done. }
  intros s σ3 Hs (HF3 & HP3 & Hm3).
  apply wp_bind.
  apply (wp_for_cells pPm nx nx (cov s) (cov (S s))
           (λ σ', frame σ' ∧
                  ∀ i, i < ny → fmem σ' pym !! i = Some (mean s σ' i))).
  - intros i j σ4 Hi Hj [HF4 Hm4] Hacc.
    destruct (output_inputs σ4 HF4) as (EWm & EWc & EX & Ex).
    eapply wp_product_term.
    + rewrite EX. apply lookup_mat_at. rewrite HlX. apply cell_lt; lia.
    + rewrite Ex. apply lookup_default. lia.
    + rewrite EX. apply lookup_mat_at. rewrite HlX. apply cell_lt; lia.
    + rewrite Ex. apply lookup_default. lia.
    + rewrite EWc. apply lookup_weight. lia.
    + exact Hacc.
    + split; [split|].
      * destruct HF4 as (Hs4 & Hb4 & Hf4).
        split; [by apply same_sizes_store|]. split; [done|].
        intros q ? ? ?. rewrite fmem_fupd_ne by done. by apply Hf4.
      * intros i' Hi'. unfold mean. rewrite !fmem_fupd_ne by done.
        by apply Hm4.
      * rewrite fmem_fupd_eq. f_equal. unfold cov.
        rewrite weighted_products_S. unfold deviation. ring.
  - done.
  - done.
  - intros σ4 [(Hs4 & Hb4 & Hf4) Hm4] HP4.
    apply (wp_for (λ m σ',
      frame σ' ∧ cells (S s) σ' ∧
      (∀ i, i < m → fmem σ' pym !! i = Some (mean (S s) σ' i)) ∧
      (∀ i, m ≤ i < ny → fmem σ' pym !! i = Some (mean s σ' i)))).
    { lia. }
    { split; [done|]. split; [done|]. split; [intros; lia|].
      intros i Hi. apply Hm4. lia. }
    2:{ intros σ' (HF & HP & Hlt & _). split; [done|]. split; [done|].
        intros i Hi. apply Hlt. lia. }
    intros m σ5 Hm ((Hs5 & Hb5 & Hf5) & HP5 & Hlt5 & Hge5).
    apply wp_bind. apply wp_observe_slot; [lia|lia|done|].
    intros σ6 Hs6 Hb6 Hf6 Hcells6.
    assert (length (fmem σ6 pY) = ny * ns) as HlY6.
    { rewrite (proj1 Hs6). done. }
    assert (∀ i n, n ≤ ns → (i ≠ m ∨ n ≤ s) →
              weighted_mean n ns (fmem σ pWm) (fmem σ6 pY) i
              = weighted_mean n ns (fmem σ pWm) (fmem σ5 pY) i) as Hsame.
    { intros i n Hn Hin'. apply weighted_mean_ext. intros s' Hs'.
      apply Hcells6. intros Heq. apply cell_inj in Heq; [lia|lia..]. }
    destruct (output_inputs σ5 (conj Hs5 (conj Hb5 Hf5)))
      as (EWm & EWc & EX & Ex).
    assert (pWm ≠ pY) as HWY by (apply Hin; repeat constructor).
    apply wp_bind. eapply wp_load.
    { rewrite Hf6, EWm by done. apply lookup_weight. lia. }
    apply wp_bind. eapply wp_load.
    { apply lookup_mat_at. rewrite HlY6. apply cell_lt; lia. }
    apply wp_bind. eapply wp_load.
    { rewrite Hf6 by done. apply Hge5. lia. }
    apply wp_store.
    { rewrite (proj1 Hs6). lia. }
    split; [|split; [|split]].
    + split; [by apply same_sizes_store|]. split; [simpl; congruence|].
      intros q Hq1 Hq2 Hq3. rewrite fmem_fupd_ne, Hf6 by done. by apply Hf5.
    + intros i j Hi Hj. rewrite fmem_fupd_ne, Hf6 by done. by apply HP5.
    + intros i Hi. unfold mean. rewrite fmem_fupd_eq, fmem_fupd_ne by done.
      destruct (decide (i = m)) as [->|Hne].
      * rewrite list_lookup_insert_eq
          by (rewrite Hf6, (proj1 Hs5) by done; lia).
        f_equal. rewrite weighted_mean_S. f_equal. unfold mean.
        symmetry. apply Hsame; lia.
      * rewrite list_lookup_insert_ne by lia. rewrite Hf6 by done.
        rewrite Hsame by lia. apply Hlt5. lia.
    + intros i Hi. unfold mean. rewrite fmem_fupd_eq, fmem_fupd_ne by done.
      rewrite list_lookup_insert_ne by lia. rewrite Hf6 by done.
      rewrite Hsame by lia. apply Hge5. lia.
Qed.

End MeanPredOutput.

Section MeanPredOutputResults.
Variables (pUkf : tUKF) (σ : memory) (nx ny ns : nat).
Variables (pWm pWc pX pY pPm pxm pym pQ : ptr).

Hypothesis HxLen : xLen (par pUkf) = nx.
Hypothesis HyLen : yLen (par pUkf) = ny.
Hypothesis HsLen : sLen (par pUkf) = ns.
Hypothesis HWm : val (Wm (par pUkf)) = Some pWm.
Hypothesis HWc : val (Wc (par pUkf)) = Some pWc.
Hypothesis HlWm : ns ≤ length (fmem σ pWm).
Hypothesis HlWc : ns ≤ length (fmem σ pWc).
Hypothesis HX : laid_out σ (X_m (predict pUkf)) pX nx ns.
Hypothesis HY : laid_out σ (Y_m (predict pUkf)) pY ny ns.
Hypothesis HPm : laid_out σ (P_m (predict pUkf)) pPm nx nx.
Hypothesis Hxm : laid_out σ (x_m (predict pUkf)) pxm nx 1.
Hypothesis Hym : laid_out σ (y_m (predict pUkf)) pym ny 1.
Hypothesis HQ : laid_out σ (Qxx (par pUkf)) pQ nx nx.
Hypothesis Hout : NoDup [pPm; pym; pY].
Hypothesis Hin :
  ∀ q, q ∈ [pWm; pWc; pX; pxm] → q ≠ pPm ∧ q ≠ pym ∧ q ≠ pY.
Hypothesis HQy : pQ ≠ pym.
Hypothesis Hfit : observers_fit pUkf σ pY.

(** X14.  With an observation function for every output that writes its
    own cell of [Y_m] only, [ukf_mean_pred_output] completes and leaves the
    predicted covariance
    [P_m[i][j] = Qxx[i][j] + Σ_s Wc[s]·(X_m[i][s] - x_m[i])·(X_m[j][s] - x_m[j])],
    the sum taken over all [sLen] sigma points. *)
Theorem ukf_mean_pred_output_covariance :
  ∃ σ', ukf_mean_pred_output pUkf σ = Done tt σ' ∧
        ∀ i j, i < nx → j < nx →
          fmem σ' pPm !! (nx * i + j)
          = Some (mat_at nx (fmem σ pQ) i j
                  + weighted_products ns ns (fmem σ pWc) (fmem σ pX)
                      (fmem σ pxm) (fmem σ pX) (fmem σ pxm) i j)%Qc.
Proof.
  pose proof (ukf_mean_pred_output_total pUkf σ nx ny ns pWm pWc pX pY pPm
                pxm pym pQ HxLen HyLen HsLen HWm HWc HlWm HlWc HX HY HPm
                Hxm Hym HQ Hout Hin HQy Hfit) as Hwp.
  apply wp_done in Hwp as ([] & σ' & Hrun & _ & Hcells & _).
  by exists σ'.
Qed.

(** X15.  Under the same conditions the predicted output is the weighted
    mean of the observed sigma points: [y_m[i] = Σ_s Wm[s]·Y_m[i][s]] over
    all [sLen] sigma points, with [Y_m] as the observation functions left
    it; nothing but [P_m], [y_m] and [Y_m] changes. *)
Theorem ukf_mean_pred_output_weighted_mean :
  ∃ σ', ukf_mean_pred_output pUkf σ = Done tt σ' ∧
        (∀ i, i < ny →
           fmem σ' pym !! i
           = Some (weighted_mean ns ns (fmem σ pWm) (fmem σ' pY) i)) ∧
        (∀ q, q ≠ pPm → q ≠ pym → q ≠ pY → fmem σ' q = fmem σ q).
Proof.
  pose proof (ukf_mean_pred_output_total pUkf σ nx ny ns pWm pWc pX pY pPm
                pxm pym pQ HxLen HyLen HsLen HWm HWc HlWm HlWc HX HY HPm
                Hxm Hym HQ Hout Hin HQy Hfit) as Hwp.
  apply wp_done in Hwp as ([] & σ' & Hrun & (_ & _ & Hf) & _ & Hmean).
  by exists σ'.
Qed.

End MeanPredOutputResults.

Lemma follower_observers_fit σ :
  length (fmem σ Bench.aX) = 3 → length (fmem σ Bench.aY) = 3 →
  observers_fit (Cases.filter_of Bench.follower) σ Bench.aY.
Proof.
  intros HX HY i Hi. replace i with 0 by (vm_compute in Hi; lia).
  exists Bench.observe_state. split; [done|]. intros s σ' Hs Hsz.
  change (sLen (par (Cases.filter_of Bench.follower))) with 3 in *.
  assert (length (fmem σ' Bench.aX) = 3) as HlX.
  { by apply (same_sizes_length _ _ _ _ Hsz). }
  assert (length (fmem σ' Bench.aY) = 3) as HlY.
  { by apply (same_sizes_length _ _ _ _ Hsz). }
  unfold writes_cell, observe_call, Bench.observe_state.
  apply wp_bind, wp_load_any; [simpl; lia|]. intros v.
  apply wp_store; [simpl; lia|]. simpl val.
  split; [by apply same_sizes_store|]. split; [done|]. split.
  - intros q Hq. by apply fmem_fupd_ne.
  - intros k Hk. rewrite fmem_fupd_eq. apply list_lookup_insert_ne. lia.
Qed.

Ltac bench_inputs3 :=
  let q := fresh "q" in
  let Hq := fresh "Hq" in
  intros q Hq; rewrite !elem_of_cons, elem_of_nil in Hq;
  repeat (destruct Hq as [->|Hq]); [..|done];
  (split; [|split]); discriminate.

Lemma ukf_mean_pred_output_covariance_witness :
  let pUkf := Cases.filter_of Bench.follower in
  let σ := Cases.follower_ready in
  ∃ σ', ukf_mean_pred_output pUkf σ = Done tt σ' ∧
        ∀ i j, i < 1 → j < 1 →
          fmem σ' Bench.aPxx !! (1 * i + j)
          = Some (mat_at 1 (fmem σ Bench.aQxx) i j
                  + weighted_products 3 3 (fmem σ Bench.aWc) (fmem σ Bench.aX)
                      (fmem σ Bench.ax) (fmem σ Bench.aX) (fmem σ Bench.ax)
                      i j)%Qc.
Proof.
  intros pUkf σ.
  apply (ukf_mean_pred_output_covariance pUkf σ 1 1 3 Bench.aWm Bench.aWc
           Bench.aX Bench.aY Bench.aPxx Bench.ax Bench.aym Bench.aQxx);
    first [ apply follower_observers_fit; vm_compute; reflexivity | reflexivity | discriminate
          | vm_compute; lia | bench_layout | bench_inputs3 ].
Defined.

Lemma ukf_mean_pred_output_weighted_mean_witness :
  let pUkf := Cases.filter_of Bench.follower in
  let σ := Cases.follower_ready in
  ∃ σ', ukf_mean_pred_output pUkf σ = Done tt σ' ∧
        (∀ i, i < 1 →
           fmem σ' Bench.aym !! i
           = Some (weighted_mean 3 3 (fmem σ Bench.aWm) (fmem σ' Bench.aY) i)) ∧
        (∀ q, q ≠ Bench.aPxx → q ≠ Bench.aym → q ≠ Bench.aY →
              fmem σ' q = fmem σ q).
Proof.
  intros pUkf σ.
  apply (ukf_mean_pred_output_weighted_mean pUkf σ 1 1 3 Bench.aWm Bench.aWc
           Bench.aX Bench.aY Bench.aPxx Bench.ax Bench.aym Bench.aQxx);
    first [ apply follower_observers_fit; vm_compute; reflexivity | reflexivity | discriminate
          | vm_compute; lia | bench_layout | bench_inputs3 ].
Defined.

(** * A whole cycle *)

Lemma same_sizes_sym σ σ' : same_sizes σ σ' → same_sizes σ' σ.
Proof. intros [Hf Hb]. split; intros p; [by rewrite Hf|by rewrite Hb]. Qed.

Lemma laid_out_sizes σ σ' m p r c :
  same_sizes σ σ' → laid_out σ m p r c → laid_out σ' m p r c.
Proof. intros [Hf _] (? & ? & ? & ?). repeat split; try done. by rewrite Hf. Qed.

Lemma sigma_limits_ready_sizes pUkf σ σ' nx pX pP :
  same_sizes σ σ' →
  sigma_limits_ready pUkf σ nx pX pP → sigma_limits_ready pUkf σ' nx pX pP.
Proof.
  intros [Hf Hb]. unfold sigma_limits_ready.
  destruct (bval (xLimEnbl (par pUkf))), (val (xLim (par pUkf))); try done.
  by rewrite Hf, Hb.
Qed.

Lemma inputs_ready_sizes pUkf σ σ' :
  same_sizes σ σ' → inputs_ready pUkf σ → inputs_ready pUkf σ'.
Proof.
  intros [Hf _]. unfold inputs_ready.
  destruct (val (u (input pUkf))), (val (u_p (prev pUkf))); try done.
  by rewrite !Hf.
Qed.

Lemma writes_cell_sizes σ0 σ1 σ' p k m :
  same_sizes σ0 σ1 → writes_cell σ0 σ' p k m → writes_cell σ1 σ' p k m.
Proof.
  intros Hs. unfold writes_cell. apply wp_mono.
  intros _ σ'' (H1 & H2). split; [|done].
  eapply same_sizes_trans; [by apply same_sizes_sym|done].
Qed.

Lemma predictors_fit_sizes pUkf σ σ' pX :
  same_sizes σ σ' → predictors_fit pUkf σ pX → predictors_fit pUkf σ' pX.
Proof.
  intros Hs [Hcover Hfit]. split; [done|].
  intros i f Hslot s σ'' Hlt Hs'.
  apply (writes_cell_sizes σ); [done|].
  apply Hfit; [done..|]. by eapply same_sizes_trans.
Qed.

Lemma observers_fit_sizes pUkf σ σ' pY :
  same_sizes σ σ' → observers_fit pUkf σ pY → observers_fit pUkf σ' pY.
Proof.
  intros Hs Hfit i Hi. destruct (Hfit i Hi) as (f & Hslot & Hf).
  exists f. split; [done|]. intros s σ'' Hlt Hs'.
  apply (writes_cell_sizes σ); [done|].
  apply Hf; [done|]. by eapply same_sizes_trans.
Qed.

Lemma step_ready_sizes pUkf b nx ny σ σ' :
  same_sizes σ σ' → step_ready pUkf b nx ny σ → step_ready pUkf b nx ny σ'.
Proof.
  intros Hs. unfold step_ready. cbv zeta.
  intros (Hlen & [HWm HlWm] & [HWc HlWc] & [? ?] & [? ?] & [? ?] & ? & ? & ?
          & ? & ? & ? & ? & ? & ? & ? & ? & ? & Hd & Hlim & Hin & Hp & Ho).
  rewrite <-(proj1 Hs (buf_Wm b)) in HlWm.
  rewrite <-(proj1 Hs (buf_Wc b)) in HlWc.
  repeat (split; [first [ done | by eapply laid_out_sizes
                        | split; by eapply laid_out_sizes ]|]).
  split; [by eapply sigma_limits_ready_sizes|].
  split; [by eapply inputs_ready_sizes|].
  split; [by eapply predictors_fit_sizes|by eapply observers_fit_sizes].
Qed.

Ltac open_ready H :=
  destruct H as ((HxLen & HyLen & HsLen) & [HWm HlWm] & [HWc HlWc]
                 & [Hxp Hxm] & [HXp HXm] & [HPp HPm] & HY & Hym & Hy & Hxc
                 & HPyy & HPyyc & HPxy & HK & HI & HPc & HQ & HR & Hd & Hlim
                 & Hin & Hpred & Hobs);
  let Hd' := fresh "Hd" in
  pose proof Hd as Hd'; split_distinct Hd'.

Ltac apart :=
  first [ assumption | apply not_eq_sym; assumption ].

Ltac distinct_list :=
  repeat (apply NoDup_cons_2;
          [rewrite ?not_elem_of_cons; repeat split;
           first [ apart | apply not_elem_of_nil ]|]);
  apply NoDup_nil_2.

Ltac apart_from_list :=
  let q := fresh "q" in
  let Hq := fresh "Hq" in
  intros q Hq; rewrite !elem_of_cons, elem_of_nil in Hq;
  repeat (destruct Hq as [->|Hq]); [..|done]; repeat split; apart.

Section Cycle.
Variables (N : numerics) (pUkf : tUKF) (b : tUkfBuffers) (nx ny : nat).

Lemma sigmapoint_keeps σ :
  step_ready pUkf b nx ny σ →
  wp (ukf_sigmapoint N pUkf) (λ _ σ', same_sizes σ σ') σ.
Proof.
  intros H. open_ready H.
  destruct (decide ((chol_factor N nx (fmem σ (buf_P b))).1 = MTX_OPERATION_OK))
    as [Hok|Hbad].
  - eapply wp_mono;
      [|apply (ukf_sigmapoint_total N pUkf σ nx (buf_P b) (buf_X b) (buf_x b));
        done || congruence].
    by intros _ σ' [? _].
  - unfold ukf_sigmapoint. cbv zeta.
    apply wp_bind. eapply (wp_mtx_chol_lower σ σ); [apply same_sizes_refl|done|].
    intros σ1 Hs1 _ _ _. rewrite decide_False by congruence. by apply wp_ret.
Qed.

Lemma mean_pred_state_keeps σ :
  step_ready pUkf b nx ny σ →
  wp (ukf_mean_pred_state pUkf) (λ _ σ', same_sizes σ σ') σ.
Proof.
  intros H. open_ready H.
  eapply wp_mono;
    [|apply (ukf_mean_pred_state_total pUkf σ nx (2 * nx + 1)
               (buf_Wm b) (buf_X b) (buf_x b)); done || congruence].
  by intros _ σ' [[? _] _].
Qed.

Lemma mean_pred_output_keeps σ :
  step_ready pUkf b nx ny σ →
  wp (ukf_mean_pred_output pUkf) (λ _ σ', same_sizes σ σ') σ.
Proof.
  intros H. open_ready H.
  eapply wp_mono;
    [|apply (ukf_mean_pred_output_total pUkf σ nx ny (2 * nx + 1)
               (buf_Wm b) (buf_Wc b) (buf_X b) (buf_Y b) (buf_P b) (buf_x b)
               (buf_ym b) (buf_Q b));
      first [ done | congruence | distinct_list | apart_from_list ]].
  by intros _ σ' [[? _] _].
Qed.

Lemma calc_covariances_keeps σ :
  step_ready pUkf b nx ny σ →
  wp (ukf_calc_covariances pUkf) (λ _ σ', same_sizes σ σ') σ.
Proof.
  intros H. open_ready H.
  eapply wp_mono;
    [|apply (ukf_calc_covariances_total pUkf σ nx ny (2 * nx + 1)
               (buf_Wc b) (buf_X b) (buf_Y b) (buf_x b) (buf_ym b) (buf_R b)
               (buf_Pyy b) (buf_Pxy b));
      first [ done | congruence | apart_from_list ]].
  by intros _ σ' [[? _] _].
Qed.

Lemma meas_update_keeps σ :
  step_ready pUkf b nx ny σ →
  wp (ukf_meas_update N pUkf) (λ _ σ', same_sizes σ σ') σ.
Proof.
  intros H. open_ready H.
  eapply wp_mono;
    [|apply (ukf_meas_update_total N pUkf σ nx ny (buf_I b) (buf_Pyycpy b)
               (buf_Pyy b) (buf_Pxy b) (buf_K b) (buf_y b) (buf_ym b)
               (buf_xcorr b) (buf_x b) (buf_Pcorr b) (buf_P b));
      first [ done | distinct_list ]].
  by intros _ σ' [? _].
Qed.

Lemma store_prev_inputs_keeps σ :
  step_ready pUkf b nx ny σ →
  wp (store_prev_inputs pUkf) (λ _ σ', same_sizes σ σ') σ.
Proof.
  intros H. open_ready H. clear -Hin.
  unfold store_prev_inputs, inputs_ready in *.
  destruct (val (u (input pUkf))) as [pu|],
    (val (u_p (prev pUkf))) as [pup|]; simpl;
    try (apply wp_ret, same_sizes_refl).
  destruct Hin as [H1 H2].
  apply (wp_for (λ _ σ', same_sizes σ σ')); [lia|apply same_sizes_refl| |done].
  intros k σ' Hk Hs.
  apply wp_bind, wp_load_any; [rewrite (proj1 Hs); lia|]. intros v.
  apply wp_store; [rewrite (proj1 Hs); lia|]. by apply same_sizes_store.
Qed.

Lemma ukf_step_keeps σ :
  step_ready pUkf b nx ny σ →
  wp (ukf_step N pUkf) (λ _ σ', same_sizes σ σ') σ.
Proof.
  intros H0. unfold ukf_step.
  apply wp_bind. eapply wp_mono; [|by apply sigmapoint_keeps].
  intros [] σ1 Hs1. simpl.
  pose proof (step_ready_sizes _ _ _ _ _ _ Hs1 H0) as H1.
  apply wp_bind. eapply wp_mono; [|by apply mean_pred_state_keeps].
  intros [] σ2 Hs2. simpl.
  pose proof (step_ready_sizes _ _ _ _ _ _ Hs2 H1) as H2.
  apply wp_bind. eapply wp_mono; [|by apply mean_pred_output_keeps].
  intros [] σ3 Hs3. simpl.
  pose proof (step_ready_sizes _ _ _ _ _ _ Hs3 H2) as H3.
  apply wp_bind. eapply wp_mono; [|by apply calc_covariances_keeps].
  intros [] σ4 Hs4. simpl.
  pose proof (step_ready_sizes _ _ _ _ _ _ Hs4 H3) as H4.
  apply wp_bind. eapply wp_mono; [|by apply meas_update_keeps].
  intros [] σ5 Hs5. simpl.
  pose proof (step_ready_sizes _ _ _ _ _ _ Hs5 H4) as H5.
  eapply wp_mono; [|by apply store_prev_inputs_keeps].
  intros [] σ6 Hs6. simpl.
  repeat (eapply same_sizes_trans; [eassumption|]). apply same_sizes_refl.
Qed.

(** X16.  On a filter that is ready to step, any number of consecutive
    cycles complete: no stage reads or writes outside a buffer or through a
    NULL pointer, whether or not the Cholesky factorization or the inversion
    succeed, and the filter is ready to step again afterwards.  Ready to
    step means, besides the layout of the buffers: the table of prediction
    functions covers every state; every output has an observation function
    assigned; and every assigned function completes and changes at most its
    own cell of the sigma-point matrix it writes. *)
Theorem ukf_step_repeats n σ :
  step_ready pUkf b nx ny σ →
  ∃ σ', ukf_steps N pUkf n σ = Done tt σ' ∧ step_ready pUkf b nx ny σ'.
Proof.
  revert σ. induction n as [|n IH]; intros σ H0.
  - by exists σ.
  - pose proof (ukf_step_keeps σ H0) as Hwp.
    apply wp_done in Hwp as ([] & σ1 & Hrun & Hs1).
    destruct (IH σ1) as (σ' & Hrest & H'); [by eapply step_ready_sizes|].
    exists σ'. split; [|done]. simpl. apply bind_done. eauto.
Qed.

End Cycle.

Lemma follower_step_ready :
  step_ready (Cases.filter_of Bench.follower) Cases.buffers 1 1
             Cases.follower_ready.
Proof.
  unfold step_ready. cbv zeta.
  repeat (split; [first [ reflexivity | vm_compute; lia
                        | split; [reflexivity|vm_compute; lia]
                        | bench_layout
                        | split; bench_layout ]|]).
  split; [apply follower_predictors_fit; vm_compute; reflexivity|apply follower_observers_fit; vm_compute; reflexivity].
Qed.

Lemma ukf_step_repeats_witness :
  let pUkf := Cases.filter_of Bench.follower in
  ∃ σ', ukf_steps Bench.scalar_numerics pUkf 2 Cases.follower_ready
        = Done tt σ' ∧
        step_ready pUkf Cases.buffers 1 1 σ'.
Proof.
  intros pUkf.
  exact (ukf_step_repeats Bench.scalar_numerics pUkf Cases.buffers 1 1 2
           Cases.follower_ready follower_step_ready).
Defined.

(** * From configuration to cycle *)

Lemma laid_out_accepted σ m p r c :
  laid_out σ m p r c → present m ∧ shaped m r c.
Proof. intros (Hv & ? & ? & _). unfold present, shaped. by rewrite Hv. Qed.

Lemma u8_small n : n ≤ 255 → u8 n = n.
Proof. intros. unfold u8. apply Nat.mod_small. lia. Qed.

Section Ready.
Variables (c : tUkfMatrix) (b : tUkfBuffers) (pS px0 pP0 : ptr).
Variables (nx ny : nat) (al be ka : float) (σ : memory).
Hypothesis Hready : config_ready c b pS px0 pP0 nx ny al be ka σ.

Let pUkf := ukf_fields c al be ka.

Lemma config_lengths :
  xLen (par pUkf) = nx ∧ yLen (par pUkf) = ny ∧ sLen (par pUkf) = 2 * nx + 1.
Proof.
  destruct Hready as ([Hnx Hny] & _ & _ & _ & Hx & _ & _ & _ & _ & Hym & _).
  destruct Hx as (_ & Hrx & _), Hym as (_ & Hry & _).
  change (xLen (par pUkf)) with (u8 (nrow (x_system_states c))).
  change (yLen (par pUkf)) with (u8 (nrow (y_predicted_mean c))).
  change (sLen (par pUkf)) with (u8 (2 * u8 (nrow (x_system_states c)) + 1)).
  rewrite Hrx, Hry, !u8_small by (rewrite ?u8_small by lia; lia). done.
Qed.

Lemma config_accepted : accepted pUkf.
Proof.
  destruct config_lengths as (HxLen & HyLen & HsLen).
  destruct Hready as (_ & _ & HWm & HWc & _ & _ & _ & HX & HY & _ & Hy & HPyy
                      & HPyyc & HR & HPxy & HP & HP0 & HQ & HK & _ & HPc & _
                      & Hu & _).
  unfold accepted. rewrite HxLen, HyLen, HsLen. cbv zeta.
  split.
  { intros Hpu _. left. by apply Hu. }
  split; [by apply (laid_out_accepted σ _ (buf_y b))|].
  split.
  { destruct (laid_out_accepted _ _ _ _ _ HWm), (laid_out_accepted _ _ _ _ _ HWc).
    split; [done|]. split; [done|]. by left. }
  split; [by apply (laid_out_accepted σ _ pP0)|].
  split; [by apply (laid_out_accepted σ _ (buf_Q b))|].
  split; [by apply (laid_out_accepted σ _ (buf_R b))|].
  split; [by apply (laid_out_accepted σ _ (buf_X b))|].
  split; [by apply (laid_out_accepted σ _ (buf_Y b))|].
  split; [by apply (laid_out_accepted σ _ (buf_P b))|].
  split.
  { destruct (laid_out_accepted _ _ _ _ _ HPyy),
      (laid_out_accepted _ _ _ _ _ HPyyc).
    split; [done|]. split; [done|]. by left. }
  split; [by apply (laid_out_accepted σ _ (buf_Pxy b))|].
  split; [by apply (laid_out_accepted σ _ (buf_Pcorr b))|].
  by apply (laid_out_accepted σ _ (buf_K b)).
Qed.

Lemma config_step_ready : step_ready pUkf b nx ny σ.
Proof.
  destruct config_lengths as (HxLen & HyLen & HsLen).
  destruct Hready as (_ & _ & HWm & HWc & Hx & _ & Hxc & HX & HY & Hym & Hy
                      & HPyy & HPyyc & HR & HPxy & HP & _ & HQ & HK & HI & HPc
                      & Hd & _ & _ & Hlim & Hin & Hpred & Hobs).
  unfold step_ready. cbv zeta.
  split; [done|].
  split.
  { destruct HWm as (? & _ & _ & Hl). split; [done|]. rewrite Hl. lia. }
  split.
  { destruct HWc as (? & _ & _ & Hl). split; [done|]. rewrite Hl. lia. }
  repeat (split; [first [ assumption | split; assumption ]|]).
  done.
Qed.

(** X19.  On a configuration that declares every matrix with the shape
    the state and output counts imply, over distinct buffers of those
    sizes, [ukf_init] completes with status 0 and leaves a filter that is
    ready to step. *)
Theorem ukf_init_makes_ready :
  ∃ σ', ukf_init c σ = Done (0, pUkf) σ' ∧ step_ready pUkf b nx ny σ'.
Proof.
  assert (u8 (2 * nx + 1) = 2 * nx + 1) as Hu.
  { destruct Hready as ([Hnx _] & _). clear -Hnx. apply u8_small. lia. }
  destruct config_lengths as (_ & _ & HsLen).
  destruct Hready as (_ & (HS & Hal & Hbe & Hka) & HWm & HWc & Hx & Hx0 & _ & _
                      & _ & _ & _ & _ & _ & _ & _ & HP & HP0 & _ & _ & _ & _
                      & Hd & _ & Hlimits & _).
  pose proof Hd as Hd'. split_distinct Hd'.
  destruct HWm as (HvWm & _ & HcWm & HlWm), HWc as (HvWc & _ & HcWc & HlWc).
  destruct Hx as (Hvx & Hrx & Hcx & Hlx), Hx0 as (Hvx0 & Hrx0 & Hcx0 & Hlx0).
  destruct HP as (HvP & HrP & HcP & HlP), HP0 as (HvP0 & HrP0 & HcP0 & HlP0).
  rewrite Nat.mul_1_l in HlWm, HlWc.
  assert (copy_ready σ (Pxx_error_covariance c) (Pxx0_init_error_covariance c))
    as Hcopy1.
  { intros _. exists (buf_P b), pP0. unfold nelem.
    rewrite HrP0, HcP0, HlP, HlP0. by repeat split. }
  assert (copy_ready σ (x_system_states c) (x_system_states_ic c)) as Hcopy2.
  { intros _. exists (buf_x b), px0. unfold nelem.
    rewrite Hrx0, Hcx0, Hlx, Hlx0. by repeat split. }
  assert (val (Pxx_error_covariance c) ≠ Some (buf_Wm b)) as HP1.
  { rewrite HvP. intros [= ?]. congruence. }
  assert (val (Pxx_error_covariance c) ≠ Some (buf_Wc b)) as HP2.
  { rewrite HvP. intros [= ?]. congruence. }
  assert (val (x_system_states c) ≠ Some (buf_Wm b)) as Hx1.
  { rewrite Hvx. intros [= ?]. congruence. }
  assert (val (x_system_states c) ≠ Some (buf_Wc b)) as Hx2.
  { rewrite Hvx. intros [= ?]. congruence. }
  assert (buf_Wm b ≠ buf_Wc b) as Hne by assumption.
  pose proof (ukf_init_total c σ pS (buf_Wm b) (buf_Wc b) al be ka
                HS Hal Hbe Hka HvWm HvWc Hne HP1 HP2 Hx1 Hx2) as Hwp.
  fold pUkf in Hwp. rewrite HsLen, HcWm, HcWc, Hu, HlWm, HlWc in Hwp.
  specialize (Hwp eq_refl eq_refl (le_n _) (le_n _) Hlimits Hcopy1 Hcopy2).
  apply wp_done in Hwp as (r & σ' & Hrun & Hr & Hs & _).
  exists σ'. split.
  - rewrite Hrun, Hr, (accepted_status _ config_accepted). reflexivity.
  - eapply step_ready_sizes; [exact Hs|exact config_step_ready].
Qed.

End Ready.
Lemma follower_config_ready :
  config_ready Bench.follower Cases.buffers Bench.aSc Bench.ax0 Bench.aPxx0
               1 1 (Bench.q 1) (Bench.q 2) (Bench.q 0) Bench.follower_mem.
Proof.
  unfold config_ready. cbv zeta.
  split; [lia|].
  split; [repeat split; bench_layout|].
  repeat (split; [first [ bench_layout | vm_compute; lia ]|]).
  split.
  - apply follower_predictors_fit; vm_compute; reflexivity.
  - apply follower_observers_fit; vm_compute; reflexivity.
Qed.

Lemma ukf_init_makes_ready_witness :
  let pUkf := ukf_fields Bench.follower (Bench.q 1) (Bench.q 2) (Bench.q 0) in
  ∃ σ', ukf_init Bench.follower Bench.follower_mem = Done (0, pUkf) σ' ∧
        step_ready pUkf Cases.buffers 1 1 σ'.
Proof.
  intros pUkf.
  exact (ukf_init_makes_ready Bench.follower Cases.buffers Bench.aSc Bench.ax0
           Bench.aPxx0 1 1 (Bench.q 1) (Bench.q 2) (Bench.q 0)
           Bench.follower_mem follower_config_ready).
Defined.
